(** * Lexical diagnostic engine of the Rebuild compiler front-end

    A shallow embedding of [parser/LineErrorReporter.h] (the escaper, the
    marker collectors, the per-kind reporters and the dispatcher), of
    [BlockLine::forEach] from the nesting token header and of the rope
    from [strings/rope.h], followed by the properties of the lexical
    diagnostics established on that embedding. *)

From Stdlib Require Import ZArith List Bool Lia Arith String Ascii.
From Stdlib Require Import Permutation Sorted FinFun.
Import ListNotations.

Set Implicit Arguments.

(** ** The string layer *)

(** A byte is kept as its unsigned value, [0 <= b < 256]. *)
Definition Byte := Z.

(** [strings::String]: an owned byte string. *)
Definition String := list Byte.

(** The bytes of a literal, used to write expected texts. *)
Definition bytes (s : string) : String :=
  map (fun a => Z.of_N (N_of_ascii a)) (list_ascii_of_string s).

(** [strings::View]: a half-open window into the source buffer.  The two
    iterators are kept as offsets into that buffer, so that comparing
    iterators is comparing offsets. *)
Record View := mkView { vbegin : nat; vend : nat }.

Definition byteCount (v : View) : nat := vend v - vbegin v.

(** Modelled from the spec: [View::isPartOf] is declared in a header that
    is not part of the sources; the specification describes it as pure
    pointer-range containment. *)
Definition isPartOf (v other : View) : bool :=
  (vbegin other <=? vbegin v) && (vend v <=? vend other).

(** Dereferencing an iterator of the source buffer. *)
Definition byteAt (source : String) (p : nat) : Byte := nth p source 0%Z.

(** [to_string(view)]. *)
Definition viewToString (source : String) (v : View) : String :=
  firstn (byteCount v) (skipn (vbegin v) source).

Record CodePoint := mkCodePoint { cp_v : Z }.

(** One item of the decoder's output. *)
Inductive Decoded :=
| DecodedCodePoint (input : View) (cp : CodePoint)
| DecodedError (input : View).

(** The collaborators of the string layer whose headers are not part of
    the sources: the UTF-8 decoder, the classification of code points and
    the UTF-8 encoder used by the rope.  The reporter is written against
    this interface. *)
Class StringsLayer := {
  utf8Decode : String -> View -> list Decoded;
  isCombiningMark : CodePoint -> bool;
  isControl : CodePoint -> bool;
  isNonCharacter : CodePoint -> bool;
  isSurrogate : CodePoint -> bool;
  utf8_encode : CodePoint -> String
}.

(** *** The rope ([strings/rope.h]) *)

Inductive RopeElement :=
| RopeCodePoint (c : CodePoint)
| RopeString (s : String)
| RopeView (v : View).

Definition Rope := list RopeElement.

(** [rope += code_point]. *)
Definition rope_add_code_point (r : Rope) (c : CodePoint) : Rope :=
  r ++ [RopeCodePoint c].

(** [rope += string]: an empty string adds no element. *)
Definition rope_add_string (r : Rope) (s : String) : Rope :=
  match s with
  | [] => r
  | _ => r ++ [RopeString s]
  end.

(** [rope += view]: an empty view adds no element. *)
Definition rope_add_view (r : Rope) (v : View) : Rope :=
  if (vbegin v =? vend v)%nat then r else r ++ [RopeView v].

(** [to_string(rope)]: the pieces flattened in order. *)
Definition rope_to_string `{StringsLayer} (source : String) (r : Rope) : String :=
  flat_map (fun e =>
              match e with
              | RopeCodePoint c => utf8_encode c
              | RopeString s => s
              | RopeView v => viewToString source v
              end) r.

(** ** The diagnostic model *)

Module diagnostic.

Record TextSpan := mkTextSpan { start : Z; length : Z }.
Definition TextSpans := list TextSpan.

Record Marker := mkMarker { span : TextSpan; annotations : list String }.
Definition Highlights := list Marker.

Record Paragraph := mkParagraph { text : String; parts : list unit }.

Record SourceCodeBlock := mkSourceCodeBlock {
  code_text : String;
  highlights : Highlights;
  caption : String;
  originLine : Z
}.

Inductive DocumentPart :=
| PartParagraph (p : Paragraph)
| PartSourceCodeBlock (b : SourceCodeBlock).

Definition Document := list DocumentPart.

Record Explanation := mkExplanation { heading : String; doc : Document }.

Record Code := mkCode { category : String; number : Z }.

Record Diagnostic := mkDiagnostic { code : Code; explanations : list Explanation }.

(** The source code blocks of a diagnostic, in order. *)
Definition blocksOf (d : Diagnostic) : list SourceCodeBlock :=
  flat_map (fun e =>
              flat_map (fun p =>
                          match p with
                          | PartSourceCodeBlock b => [b]
                          | PartParagraph _ => []
                          end) (doc e)) (explanations d).

(** All highlight spans of a diagnostic. *)
Definition spansOf (d : Diagnostic) : list TextSpan :=
  flat_map (fun b => map span (highlights b)) (blocksOf d).

End diagnostic.

(** ** The source escaper *)

Definition ViewMarkers := list View.

Record EscapedMarkers := mkEscapedMarkers {
  escaped : String;
  markers : diagnostic.TextSpans
}.

(** The lowercase hexadecimal digit of [d < 16]: ['0' + d] or
    ['a' + d - 10]. *)
Definition hexDigit (d : Z) : Byte :=
  if (d <? 10)%Z then (48 + d)%Z else (87 + d)%Z.

(** The digits of [v] in front of [acc], the least significant digit
    first. *)
Fixpoint hexDigits (fuel : nat) (v : Z) (acc : String) : String :=
  match fuel with
  | O => acc
  | S fuel' =>
      let acc' := hexDigit (Z.land v 15) :: acc in
      if (Z.shiftr v 4 =? 0)%Z then acc' else hexDigits fuel' (Z.shiftr v 4) acc'
  end.

(** [std::hex << v] for a non-negative [int]: lowercase digits, no
    padding; an [int] has at most eight hexadecimal digits. *)
Definition hex (v : Z) : String := hexDigits 8 v [].

(** The text that [addEscaped] streams into [escaped] for the bytes of
    its input, together with whether the branch taken sets
    [requiresEscapes]. *)
Definition escapedText (input : String) : String * bool :=
  match input with
  | [c] =>
      if (c =? 10)%Z then (bytes "\n" ++ [10%Z], false)
      else if (c =? 13)%Z then (bytes "\r", true)
      else if (c =? 9)%Z then (bytes "\t", true)
      else if (c =? 0)%Z then (bytes "\0", true)
      else (bytes "\[" ++ hex (Z.land c 255) ++ bytes "]", true)
  | _ =>
      (bytes "\[" ++ flat_map (fun x => hex (Z.land x 255)) input ++ bytes "]", true)
  end.

(** The local variables of [escapeSourceLine] that its lambdas capture by
    reference. *)
Record Escaper := mkEscaper {
  output : Rope;
  spans : diagnostic.TextSpans;
  begin : nat;
  offset : Z;
  requiresEscapes : bool
}.

(** The body of the loop of [updateMarkers] for one marker. *)
Definition updateMarker (offset : Z) (p : nat) (vm : View) (m : diagnostic.TextSpan)
  : diagnostic.TextSpan :=
  let m1 :=
    if (vbegin vm <=? p)%nat && (diagnostic.start m =? -1)%Z
    then diagnostic.mkTextSpan offset (diagnostic.length m) else m in
  if (vend vm <=? p)%nat && (diagnostic.length m1 =? -1)%Z
  then diagnostic.mkTextSpan (diagnostic.start m1) (offset - diagnostic.start m1)
  else m1.

(** The loop of [updateMarkers]: [viewMarkers] and [markers] walked in
    step. *)
Fixpoint updateMarkersLoop (offset : Z) (p : nat) (viewMarkers : ViewMarkers)
  (ms : diagnostic.TextSpans) : diagnostic.TextSpans :=
  match viewMarkers, ms with
  | vm :: viewMarkers', m :: ms' =>
      updateMarker offset p vm m :: updateMarkersLoop offset p viewMarkers' ms'
  | _, _ => ms
  end.

Definition updateMarkers (viewMarkers : ViewMarkers) (p : nat) (e : Escaper) : Escaper :=
  mkEscaper (output e) (updateMarkersLoop (offset e) p viewMarkers (spans e))
            (begin e) (offset e) (requiresEscapes e).

Definition addEscaped (source : String) (input : View) (e : Escaper) : Escaper :=
  let out1 := rope_add_view (output e) (mkView (begin e) (vbegin input)) in
  let '(str, sets) := escapedText (viewToString source input) in
  mkEscaper (rope_add_string out1 str) (spans e) (vend input)
            (offset e + Z.of_nat (List.length str))
            (if sets then true else requiresEscapes e).

Section Escaper.

Context `{StringsLayer}.
Variable source : String.

(** The body of the loop over the decoded items. *)
Definition escapeStep (viewMarkers : ViewMarkers) (e : Escaper) (d : Decoded) : Escaper :=
  match d with
  | DecodedCodePoint input cp =>
      let e1 := updateMarkers viewMarkers (vbegin input) e in
      if isCombiningMark cp || isControl cp || isNonCharacter cp || isSurrogate cp
      then addEscaped source input e1
      else if (cp_v cp =? 92)%Z
           then mkEscaper
                  (rope_add_code_point
                     (rope_add_view (output e1) (mkView (begin e1) (vend input))) cp)
                  (spans e1) (vend input) (offset e1 + 1 + 1) (requiresEscapes e1)
           else mkEscaper (output e1) (spans e1) (begin e1) (offset e1 + 1)
                          (requiresEscapes e1)
  | DecodedError input =>
      addEscaped source input (updateMarkers viewMarkers (vbegin input) e)
  end.

(** [markers[i] = x]. *)
Fixpoint assign (i : nat) (x : diagnostic.TextSpan) (ms : diagnostic.TextSpans)
  : diagnostic.TextSpans :=
  match ms, i with
  | [], _ => []
  | _ :: ms', O => x :: ms'
  | m :: ms', S i' => m :: assign i' x ms'
  end.

(** The loop of the unescaped return path.  The index [i] is
    initialised to [0] before the loop and the loop body does not
    change it. *)
Fixpoint unescapedMarkers (i : nat) (view : View) (viewMarkers : ViewMarkers)
  (ms : diagnostic.TextSpans) : diagnostic.TextSpans :=
  match viewMarkers with
  | [] => ms
  | vm :: viewMarkers' =>
      unescapedMarkers i view viewMarkers'
        (assign i (diagnostic.mkTextSpan (Z.of_nat (vbegin vm) - Z.of_nat (vbegin view))
                                         (Z.of_nat (byteCount vm))) ms)
  end.

(** The state after the loop over the decoded items, the final flush
    and the final [updateMarkers]. *)
Definition escapeScan (view : View) (viewMarkers : ViewMarkers) : Escaper :=
  let e0 := mkEscaper [] (repeat (diagnostic.mkTextSpan (-1) (-1)) (List.length viewMarkers))
                      (vbegin view) 0 false in
  let e1 := fold_left (escapeStep viewMarkers) (utf8Decode source view) e0 in
  let e2 := mkEscaper (rope_add_view (output e1) (mkView (begin e1) (vend view)))
                      (spans e1) (begin e1) (offset e1) (requiresEscapes e1) in
  updateMarkers viewMarkers (vend view) e2.

Definition escapeSourceLine (view : View) (viewMarkers : ViewMarkers) : EscapedMarkers :=
  let e := escapeScan view viewMarkers in
  if negb (requiresEscapes e)
  then mkEscapedMarkers (viewToString source view)
                        (unescapedMarkers 0 view viewMarkers (spans e))
  else mkEscapedMarkers (rope_to_string source (output e)) (spans e).

End Escaper.


(** ** Tokens of the scanner, filter and nesting stages

    The token headers are not part of the sources; the reporter reads the
    members below. *)

Record Position := mkPosition { line : Z }.

(** Every token carries its [input], its [position] and the [isTainted]
    flag; [value] is the payload of the kind (the unit for tag tokens). *)
Record TokenOf (V : Type) := mkToken {
  input : View;
  position : Position;
  isTainted : bool;
  value : V
}.

(** [const_cast<T&>(t).isTainted = true]. *)
Definition taint {V : Type} (t : TokenOf V) : TokenOf V :=
  mkToken (input t) (position t) true (value t).

Record DecodedErrorPosition := mkDecodedErrorPosition { dep_input : View }.
Record MixedIndentCharacter := mkMixedIndentCharacter { mic_input : View }.

Definition TagToken := TokenOf unit.

(** [TagTokenWithDecodeErrors]: the payload is the member
    [decodeErrors]. *)
Definition TagTokenWithDecodeErrors := TokenOf (list DecodedErrorPosition).
Definition decodeErrors (t : TagTokenWithDecodeErrors) : list DecodedErrorPosition :=
  value t.

(** The value of a literal, reduced to its [errors]. *)
Record LiteralValue (E : Type) := mkLiteralValue { errors : list E }.

(** Modelled from the spec: [hasErrors] is declared with the token values,
    outside the sources; a reporter short-circuits when the error list is
    empty. *)
Definition hasErrors {E : Type} (v : LiteralValue E) : bool :=
  match errors v with
  | [] => false
  | _ :: _ => true
  end.

Inductive NewLineError :=
| NewLineDecodedErrorPosition (dep : DecodedErrorPosition)
| NewLineMixedIndentCharacter (mic : MixedIndentCharacter).

Module Kind.

(** [scanner::StringError::Kind], in the order of the reporter's
    [switch]. *)
Inductive t :=
| EndOfInput
| InvalidEncoding
| InvalidEscape
| InvalidControl
| InvalidDecimalUnicode
| InvalidHexUnicode.

(** [static_cast<int>(kind)].  Modelled from the spec: the declaration of
    the enumeration is not part of the sources; the enumerators are
    numbered in the order in which the specification lists them. *)
Definition index (k : t) : Z :=
  match k with
  | EndOfInput => 0
  | InvalidEncoding => 1
  | InvalidEscape => 2
  | InvalidControl => 3
  | InvalidDecimalUnicode => 4
  | InvalidHexUnicode => 5
  end.

Definition eqb (a b : t) : bool := (index a =? index b)%Z.

End Kind.

Record StringError := mkStringError { kind : Kind.t; se_input : View }.

Inductive NumberLiteralError :=
| NumberDecodedErrorPosition (i : View)
| NumberMissingExponent (i : View)
| NumberMissingValue (i : View)
| NumberMissingBoundary (i : View).

Inductive OperatorLiteralError :=
| OperatorDecodedErrorPosition (i : View)
| OperatorWrongClose (i : View)
| OperatorUnexpectedClose (i : View)
| OperatorNotClosed (i : View).

(** [nesting::Insignificant]. *)
Inductive Insignificant :=
| CommentLiteral (t : TagTokenWithDecodeErrors)
| WhiteSpaceSeparator (t : TagToken)
| InvalidEncoding (t : TagToken)
| UnexpectedCharacter (t : TagToken)
| SemicolonSeparator (t : TagToken)
| NewLineIndentation (t : TokenOf (LiteralValue NewLineError))
| BlockStartColon (t : TagToken)
| BlockEndIdentifier (t : TagToken)
| UnexpectedColon (t : TagToken)
| UnexpectedIndent (t : TagToken)
| UnexpectedTokensAfterEnd (t : TagToken)
| UnexpectedBlockEnd (t : TagToken)
| MissingBlockEnd (t : TagToken)
| MisIndentedBlockEnd (t : TagToken).

(** [nesting::Token].  The nested lines of a [BlockLiteral] are left out:
    the reporter has no handler for it and never descends into them. *)
Inductive Token :=
| BlockLiteral (t : TagToken)
| ColonSeparator (t : TagToken)
| CommaSeparator (t : TagToken)
| SquareBracketOpen (t : TagToken)
| SquareBracketClose (t : TagToken)
| BracketOpen (t : TagToken)
| BracketClose (t : TagToken)
| StringLiteral (t : TokenOf (LiteralValue StringError))
| NumberLiteral (t : TokenOf (LiteralValue NumberLiteralError))
| IdentifierLiteral (t : TagTokenWithDecodeErrors)
| OperatorLiteral (t : TokenOf (LiteralValue OperatorLiteralError)).

(** [i.visit([](auto& x) { return x.input; })]. *)
Definition insignificantInput (i : Insignificant) : View :=
  match i with
  | CommentLiteral t => input t
  | WhiteSpaceSeparator t => input t
  | InvalidEncoding t => input t
  | UnexpectedCharacter t => input t
  | SemicolonSeparator t => input t
  | NewLineIndentation t => input t
  | BlockStartColon t => input t
  | BlockEndIdentifier t => input t
  | UnexpectedColon t => input t
  | UnexpectedIndent t => input t
  | UnexpectedTokensAfterEnd t => input t
  | UnexpectedBlockEnd t => input t
  | MissingBlockEnd t => input t
  | MisIndentedBlockEnd t => input t
  end.

Definition tokenInput (t : Token) : View :=
  match t with
  | BlockLiteral t => input t
  | ColonSeparator t => input t
  | CommaSeparator t => input t
  | SquareBracketOpen t => input t
  | SquareBracketClose t => input t
  | BracketOpen t => input t
  | BracketClose t => input t
  | StringLiteral t => input t
  | NumberLiteral t => input t
  | IdentifierLiteral t => input t
  | OperatorLiteral t => input t
  end.

Definition insignificantTainted (i : Insignificant) : bool :=
  match i with
  | CommentLiteral t => isTainted t
  | WhiteSpaceSeparator t => isTainted t
  | InvalidEncoding t => isTainted t
  | UnexpectedCharacter t => isTainted t
  | SemicolonSeparator t => isTainted t
  | NewLineIndentation t => isTainted t
  | BlockStartColon t => isTainted t
  | BlockEndIdentifier t => isTainted t
  | UnexpectedColon t => isTainted t
  | UnexpectedIndent t => isTainted t
  | UnexpectedTokensAfterEnd t => isTainted t
  | UnexpectedBlockEnd t => isTainted t
  | MissingBlockEnd t => isTainted t
  | MisIndentedBlockEnd t => isTainted t
  end.

Record BlockLine := mkBlockLine {
  tokens : list Token;
  insignificants : list Insignificant
}.

(** The address of an element of a block line: the reporters compare the
    address of the element they visit with the address of the element
    they report on.  An element of a vector is identified by the vector
    and its index. *)
Inductive Element :=
| TokenAt (i : nat)
| InsignificantAt (i : nat).

Definition sameElement (a b : Element) : bool :=
  match a, b with
  | TokenAt i, TokenAt j => (i =? j)%nat
  | InsignificantAt i, InsignificantAt j => (i =? j)%nat
  | _, _ => false
  end.

(** *** [BlockLine::forEach] *)

(** One call of the callback: the element visited and where it lives. *)
Inductive Visit :=
| VisitToken (ti : nat) (t : Token)
| VisitInsignificant (ii : nat) (i : Insignificant).

Definition visitBegin (x : Visit) : nat :=
  match x with
  | VisitToken _ t => vbegin (tokenInput t)
  | VisitInsignificant _ i => vbegin (insignificantInput i)
  end.

(** [while (ii != ie) f( *ii++ )]. *)
Fixpoint forEachInsignificants (ii : nat) (ins : list Insignificant) : list Visit :=
  match ins with
  | [] => []
  | i :: ins' => VisitInsignificant ii i :: forEachInsignificants (S ii) ins'
  end.

(** [while (ti != te) f( *ti++ )]. *)
Fixpoint forEachTokens (ti : nat) (ts : list Token) : list Visit :=
  match ts with
  | [] => []
  | t :: ts' => VisitToken ti t :: forEachTokens (S ti) ts'
  end.

(** The three loops of [forEach], started at the iterators [ti] and
    [ii]; the result lists the calls of the callback in order. *)
Fixpoint forEachFrom (ti : nat) (ts : list Token) (ii : nat) (ins : list Insignificant)
  : list Visit :=
  match ts with
  | [] => forEachInsignificants ii ins
  | t :: ts' =>
      (fix inner (ii : nat) (ins : list Insignificant) : list Visit :=
         match ins with
         | [] => forEachTokens ti ts
         | i :: ins' =>
             if (vbegin (tokenInput t) <? vbegin (insignificantInput i))%nat
             then VisitToken ti t :: forEachFrom (S ti) ts' ii ins
             else VisitInsignificant ii i :: inner (S ii) ins'
         end) ii ins
  end.

Definition forEach (bl : BlockLine) : list Visit :=
  forEachFrom 0 (tokens bl) 0 (insignificants bl).

(** The address of the element of a visit. *)
Definition visitElement (x : Visit) : Element :=
  match x with
  | VisitToken ti _ => TokenAt ti
  | VisitInsignificant ii _ => InsignificantAt ii
  end.

(** *** Taint *)

Definition taintInsignificant (i : Insignificant) : Insignificant :=
  match i with
  | CommentLiteral t => CommentLiteral (taint t)
  | WhiteSpaceSeparator t => WhiteSpaceSeparator (taint t)
  | InvalidEncoding t => InvalidEncoding (taint t)
  | UnexpectedCharacter t => UnexpectedCharacter (taint t)
  | SemicolonSeparator t => SemicolonSeparator (taint t)
  | NewLineIndentation t => NewLineIndentation (taint t)
  | BlockStartColon t => BlockStartColon (taint t)
  | BlockEndIdentifier t => BlockEndIdentifier (taint t)
  | UnexpectedColon t => UnexpectedColon (taint t)
  | UnexpectedIndent t => UnexpectedIndent (taint t)
  | UnexpectedTokensAfterEnd t => UnexpectedTokensAfterEnd (taint t)
  | UnexpectedBlockEnd t => UnexpectedBlockEnd (taint t)
  | MissingBlockEnd t => MissingBlockEnd (taint t)
  | MisIndentedBlockEnd t => MisIndentedBlockEnd (taint t)
  end.

(** [y] is [x], possibly with its flag set since. *)
Definition taintedSince (x y : Insignificant) : Prop :=
  y = x \/ y = taintInsignificant x.

(** [line'] is [line] with the flags of some insignificants set since. *)
Definition laterLine (line line' : BlockLine) : Prop :=
  tokens line' = tokens line
  /\ Forall2 taintedSince (insignificants line) (insignificants line').

(** Two visits of the same element. *)
Definition sameVisit (x y : Visit) : Prop :=
  match x, y with
  | VisitToken i t, VisitToken j t' => i = j /\ t = t'
  | VisitInsignificant i _, VisitInsignificant j _ => i = j
  | _, _ => False
  end.

(** Whether a token gets past the short-circuit of its reporter. *)
Definition tokenReportable (t : Token) : bool :=
  match t with
  | StringLiteral sl => negb (isTainted sl) && hasErrors (value sl)
  | NumberLiteral nl => negb (isTainted nl) && hasErrors (value nl)
  | IdentifierLiteral il =>
      negb (isTainted il) && match decodeErrors il with [] => false | _ => true end
  | OperatorLiteral ol => negb (isTainted ol) && hasErrors (value ol)
  | _ => false
  end.

Definition insignificantReportable (i : Insignificant) : bool :=
  match i with
  | NewLineIndentation nli => negb (isTainted nli) && hasErrors (value nli)
  | CommentLiteral cl =>
      negb (isTainted cl) && match decodeErrors cl with [] => false | _ => true end
  | InvalidEncoding ie => negb (isTainted ie)
  | UnexpectedCharacter uc => negb (isTainted uc)
  | _ => false
  end.


(** ** Line extent *)

Definition isLineBreak (b : Byte) : bool := (b =? 13)%Z || (b =? 10)%Z.

(** [extractBlockLines].  The value-initialised iterators are null until
    one of the two vectors supplies a begin and an end; a block line with
    no element at all yields the empty view of two null iterators, kept
    here as the empty view at offset [0]. *)
Definition extractBlockLines (blockLine : BlockLine) : View :=
  let '(begin, end_) :=
    match tokens blockLine with
    | [] => (None, None)
    | front :: _ =>
        (Some (vbegin (tokenInput front)),
         Some (vend (tokenInput (last (tokens blockLine) front))))
    end in
  let '(begin, end_) :=
    match insignificants blockLine with
    | [] => (begin, end_)
    | front :: _ =>
        let begin2 := vbegin (insignificantInput front) in
        let end2 := vend (insignificantInput (last (insignificants blockLine) front)) in
        (match begin with
         | None => Some begin2
         | Some b => if (begin2 <? b)%nat then Some begin2 else Some b
         end,
         match end_ with
         | None => Some end2
         | Some e => if (e <? end2)%nat then Some end2 else Some e
         end)
    end in
  mkView (match begin with Some b => b | None => 0 end)
         (match end_ with Some e => e | None => 0 end).

(** [while (begin > all.begin() && begin[-1] != '\r' && begin[-1] != '\n') begin--]. *)
Fixpoint lineBegin (source : String) (allBegin : nat) (begin : nat) : nat :=
  match begin with
  | O => O
  | S before =>
      if (allBegin <? begin)%nat && negb (isLineBreak (byteAt source before))
      then lineBegin source allBegin before
      else begin
  end.

(** [while (end < all.end() && end[0] != '\r' && end[0] != '\n') end++];
    the loop runs at most [all.end() - end] times. *)
Fixpoint lineEnd (fuel : nat) (source : String) (allEnd : nat) (end_ : nat) : nat :=
  match fuel with
  | O => end_
  | S fuel' =>
      if (end_ <? allEnd)%nat && negb (isLineBreak (byteAt source end_))
      then lineEnd fuel' source allEnd (S end_)
      else end_
  end.

Definition extractViewLines (source : String) (blockLine : BlockLine) (view : View) : View :=
  let all := extractBlockLines blockLine in
  mkView (lineBegin source (vbegin all) (vbegin view))
         (lineEnd (vend all - vend view) source (vend all) (vend view)).

(** ** The reporters *)

(** The shape every reporter gives its diagnostic: one explanation whose
    document is a paragraph followed by a source code block. *)
Definition lexerDiagnostic (number : Z) (heading paragraph : string)
  (escapedLines : String) (highlights : diagnostic.Highlights) (line : Z)
  : diagnostic.Diagnostic :=
  diagnostic.mkDiagnostic
    (diagnostic.mkCode (bytes "rebuild-lexer") number)
    [diagnostic.mkExplanation (bytes heading)
       [diagnostic.PartParagraph (diagnostic.mkParagraph (bytes paragraph) []);
        diagnostic.PartSourceCodeBlock
          (diagnostic.mkSourceCodeBlock escapedLines highlights [] line)]].

(** [for (auto& m : escapedMarkers) highlights.emplace_back(Marker{m, {}})]. *)
Definition toHighlights (escapedMarkers : diagnostic.TextSpans) : diagnostic.Highlights :=
  map (fun m => diagnostic.mkMarker m []) escapedMarkers.

(** A loop over [blockLine.insignificants] whose body may append to
    [viewMarkers] and set the flag of the element it visits; [idx] is the
    index of the element at the head. *)
Fixpoint insignificantsLoop
  (body : nat -> Insignificant -> ViewMarkers -> ViewMarkers * Insignificant)
  (idx : nat) (ins : list Insignificant) (viewMarkers : ViewMarkers)
  : ViewMarkers * list Insignificant :=
  match ins with
  | [] => (viewMarkers, [])
  | t :: ins' =>
      let '(viewMarkers1, t') := body idx t viewMarkers in
      let '(viewMarkers2, ins'') := insignificantsLoop body (S idx) ins' viewMarkers1 in
      (viewMarkers2, t' :: ins'')
  end.

Definition holdsDecodedErrorPosition (e : NewLineError) : bool :=
  match e with
  | NewLineDecodedErrorPosition _ => true
  | NewLineMixedIndentCharacter _ => false
  end.

Definition holdsMixedIndentCharacter (e : NewLineError) : bool :=
  match e with
  | NewLineDecodedErrorPosition _ => false
  | NewLineMixedIndentCharacter _ => true
  end.

(** [err.visitSome([&](const DecodedErrorPosition& dep) { viewMarkers.emplace_back(dep.input); })]
    over a list of errors. *)
Definition decodedErrorInputs (errs : list NewLineError) : ViewMarkers :=
  flat_map (fun e =>
              match e with
              | NewLineDecodedErrorPosition dep => [dep_input dep]
              | NewLineMixedIndentCharacter _ => []
              end) errs.

Definition mixedIndentInputs (errs : list NewLineError) : ViewMarkers :=
  flat_map (fun e =>
              match e with
              | NewLineDecodedErrorPosition _ => []
              | NewLineMixedIndentCharacter mic => [mic_input mic]
              end) errs.

(** The body of the loop of [collectDecodeErrorMarkers].  The handler for
    [IdentifierLiteral] has no case here: the loop runs over the
    insignificants, and [IdentifierLiteral] is not an alternative of
    [Insignificant]. *)
Definition collectDecodeErrorMarker (tokenLines : View) (tok : Element)
  (idx : nat) (t : Insignificant) (viewMarkers : ViewMarkers)
  : ViewMarkers * Insignificant :=
  match t with
  | InvalidEncoding ie =>
      if isTainted ie || negb (isPartOf (input ie) tokenLines) then (viewMarkers, t)
      else (viewMarkers ++ [input ie],
            if negb (sameElement (InsignificantAt idx) tok)
            then InvalidEncoding (taint ie) else t)
  | CommentLiteral cl =>
      if isTainted cl || negb (isPartOf (input cl) tokenLines) then (viewMarkers, t)
      else (viewMarkers ++ map dep_input (decodeErrors cl),
            if negb (sameElement (InsignificantAt idx) tok)
            then CommentLiteral (taint cl) else t)
  | NewLineIndentation nli =>
      if isTainted nli || negb (isPartOf (input nli) tokenLines) then (viewMarkers, t)
      else if negb (forallb holdsDecodedErrorPosition (errors (value nli)))
           then (viewMarkers, t)
           else (viewMarkers ++ decodedErrorInputs (errors (value nli)),
                 if negb (sameElement (InsignificantAt idx) tok)
                 then NewLineIndentation (taint nli) else t)
  | _ => (viewMarkers, t)
  end.

Definition collectDecodeErrorMarkers (viewMarkers : ViewMarkers) (blockLine : BlockLine)
  (tokenLines : View) (tok : Element) : ViewMarkers * BlockLine :=
  let '(viewMarkers', ins') :=
    insignificantsLoop (collectDecodeErrorMarker tokenLines tok) 0
                       (insignificants blockLine) viewMarkers in
  (viewMarkers', mkBlockLine (tokens blockLine) ins').

(** The body of the sibling loop of the mixed-indentation pass of
    [reportNewline]. *)
Definition collectMixedIndentMarker (tokenLines : View) (tok : Element)
  (idx : nat) (t : Insignificant) (viewMarkers : ViewMarkers)
  : ViewMarkers * Insignificant :=
  match t with
  | NewLineIndentation onli =>
      if isTainted onli || negb (isPartOf (input onli) tokenLines) then (viewMarkers, t)
      else if negb (forallb holdsMixedIndentCharacter (errors (value onli)))
           then (viewMarkers, t)
           else (viewMarkers ++ mixedIndentInputs (errors (value onli)),
                 if negb (sameElement (InsignificantAt idx) tok)
                 then NewLineIndentation (taint onli) else t)
  | _ => (viewMarkers, t)
  end.

(** The body of the loop of [reportUnexpectedCharacter]. *)
Definition collectUnexpectedCharacter (tokenLines : View) (tok : Element)
  (idx : nat) (t : Insignificant) (viewMarkers : ViewMarkers)
  : ViewMarkers * Insignificant :=
  match t with
  | UnexpectedCharacter ouc =>
      if (vbegin tokenLines <=? vbegin (input ouc))%nat
         && (vend (input ouc) <=? vend tokenLines)%nat
      then (viewMarkers ++ [input ouc],
            if negb (sameElement (InsignificantAt idx) tok)
            then UnexpectedCharacter (taint ouc) else t)
      else (viewMarkers, t)
  | _ => (viewMarkers, t)
  end.

(** [err.index().value()].  Modelled from the spec: the declaration of
    [NumberLiteralError] is not part of the sources; its alternatives are
    numbered in the order in which the specification lists them. *)
Definition numberErrorIndex (e : NumberLiteralError) : Z :=
  match e with
  | NumberDecodedErrorPosition _ => 0
  | NumberMissingExponent _ => 1
  | NumberMissingValue _ => 2
  | NumberMissingBoundary _ => 3
  end.

Definition numberErrorInput (e : NumberLiteralError) : View :=
  match e with
  | NumberDecodedErrorPosition i => i
  | NumberMissingExponent i => i
  | NumberMissingValue i => i
  | NumberMissingBoundary i => i
  end.

(** [err.index().value()].  Modelled from the spec: the declaration of
    [OperatorLiteralError] is not part of the sources; its alternatives
    are numbered in the order in which the specification lists them. *)
Definition operatorErrorIndex (e : OperatorLiteralError) : Z :=
  match e with
  | OperatorDecodedErrorPosition _ => 0
  | OperatorWrongClose _ => 1
  | OperatorUnexpectedClose _ => 2
  | OperatorNotClosed _ => 3
  end.

Definition operatorErrorInput (e : OperatorLiteralError) : View :=
  match e with
  | OperatorDecodedErrorPosition i => i
  | OperatorWrongClose i => i
  | OperatorUnexpectedClose i => i
  | OperatorNotClosed i => i
  end.

(** [reportedKinds.set(k)] and [reportedKinds[k]] on a bit set kept as an
    integer. *)
Definition bitset_set (bits : Z) (k : Z) : Z := Z.lor bits (Z.shiftl 1 k).
Definition bitset_test (bits : Z) (k : Z) : bool := Z.testbit bits k.

(** Every reporter returns the line as it leaves it, with the flags it
    has set, and the diagnostics it hands to [context.reportDiagnostic],
    in order.  Line numbers are integers; [text::Line{line.v - 1}] is the
    line before. *)

Section Reporter.

Context `{StringsLayer}.
Variable source : String.

(** [reportDecodeErrorMarkers(line, tokenLines, viewMarkers, context)]. *)
Definition reportDecodeErrorMarkers (line : Z) (tokenLines : View)
  (viewMarkers : ViewMarkers) : list diagnostic.Diagnostic :=
  let em := escapeSourceLine source tokenLines viewMarkers in
  let highlights := toHighlights (markers em) in
  [lexerDiagnostic 1 "Invalid UTF8 Encoding"
     (if (List.length viewMarkers =? 1)%nat
      then "The UTF8-decoder encountered an invalid encoding"
      else "The UTF8-decoder encountered multiple invalid encodings")
     (escaped em) highlights line].

(** [reportDecodeErrors(blockLine, tok, context)]: [tok] is the address
    of the reported token, [t] the token itself. *)
Definition reportDecodeErrors {V : Type} (blockLine : BlockLine) (tok : Element)
  (t : TokenOf V) : BlockLine * list diagnostic.Diagnostic :=
  let tokenLines := extractViewLines source blockLine (input t) in
  let '(viewMarkers, blockLine') :=
    collectDecodeErrorMarkers [] blockLine tokenLines tok in
  (blockLine', reportDecodeErrorMarkers (line (position t)) tokenLines viewMarkers).

Definition reportTokenWithDecodeErrors (blockLine : BlockLine) (tok : Element)
  (de : TagTokenWithDecodeErrors) : BlockLine * list diagnostic.Diagnostic :=
  if isTainted de || match decodeErrors de with [] => true | _ => false end
  then (blockLine, [])
  else reportDecodeErrors blockLine tok de.

Definition reportInvalidEncoding (blockLine : BlockLine) (tok : Element)
  (ie : TagToken) : BlockLine * list diagnostic.Diagnostic :=
  if isTainted ie then (blockLine, [])
  else reportDecodeErrors blockLine tok ie.

(** The first block of [reportNewline]: the decode errors of the
    newline. *)
Definition reportNewlineDecodeErrors (blockLine : BlockLine) (tok : Element)
  (nli : TokenOf (LiteralValue NewLineError)) (tokenLines : View)
  : BlockLine * list diagnostic.Diagnostic :=
  let viewMarkers := decodedErrorInputs (errors (value nli)) in
  match viewMarkers with
  | [] => (blockLine, [])
  | _ :: _ =>
      let viewMarkers :=
        if (List.length viewMarkers =? List.length (errors (value nli)))%nat
        then [] else viewMarkers in
      let '(viewMarkers, blockLine') :=
        collectDecodeErrorMarkers viewMarkers blockLine tokenLines tok in
      (blockLine',
       reportDecodeErrorMarkers (line (position nli) - 1) tokenLines viewMarkers)
  end.

(** The second block of [reportNewline]: the mixed indentation
    characters; it returns when the newline has none. *)
Definition reportNewlineMixedIndent (blockLine : BlockLine) (tok : Element)
  (nli : TokenOf (LiteralValue NewLineError)) (tokenLines : View)
  : BlockLine * list diagnostic.Diagnostic :=
  let viewMarkers := mixedIndentInputs (errors (value nli)) in
  match viewMarkers with
  | [] => (blockLine, [])
  | _ :: _ =>
      let '(viewMarkers, ins') :=
        insignificantsLoop (collectMixedIndentMarker tokenLines tok) 0
                           (insignificants blockLine) viewMarkers in
      let em := escapeSourceLine source tokenLines viewMarkers in
      let highlights := toHighlights (markers em) in
      (mkBlockLine (tokens blockLine) ins',
       [lexerDiagnostic 3 "Mixed Indentation Characters"
          "The indentation mixes tabs and spaces."
          (escaped em) highlights (line (position nli) - 1)])
  end.

Definition reportNewline (blockLine : BlockLine) (tok : Element)
  (nli : TokenOf (LiteralValue NewLineError))
  : BlockLine * list diagnostic.Diagnostic :=
  if isTainted nli || negb (hasErrors (value nli)) then (blockLine, [])
  else
    let tokenLines := extractViewLines source blockLine (input nli) in
    let '(blockLine1, reported1) :=
      reportNewlineDecodeErrors blockLine tok nli tokenLines in
    let '(blockLine2, reported2) :=
      reportNewlineMixedIndent blockLine1 tok nli tokenLines in
    (blockLine2, reported1 ++ reported2).

Definition reportUnexpectedCharacter (blockLine : BlockLine) (tok : Element)
  (uc : TagToken) : BlockLine * list diagnostic.Diagnostic :=
  if isTainted uc then (blockLine, [])
  else
    let tokenLines := extractViewLines source blockLine (input uc) in
    let '(viewMarkers, ins') :=
      insignificantsLoop (collectUnexpectedCharacter tokenLines tok) 0
                         (insignificants blockLine) [] in
    let em := escapeSourceLine source tokenLines viewMarkers in
    let highlights := toHighlights (markers em) in
    (mkBlockLine (tokens blockLine) ins',
     [lexerDiagnostic 2 "Unexpected characters"
        (if (List.length viewMarkers =? 1)%nat
         then "The tokenizer encountered a character that is not part of any Rebuild language token."
         else "The tokenizer encountered multiple characters that are not part of any Rebuild language token.")
        (escaped em) highlights (line (position uc))]).

(** The diagnostic of one kind of string error, from the [switch] of
    [reportStringLiteral]. *)
Definition stringKindDiagnostic (k : Kind.t) (line : Z) (tokenLines : View)
  (viewMarkers : ViewMarkers) : list diagnostic.Diagnostic :=
  let em := escapeSourceLine source tokenLines viewMarkers in
  let highlights := toHighlights (markers em) in
  match k with
  | Kind.EndOfInput =>
      [lexerDiagnostic 10 "Unexpected end of input" "The string was not terminated."
         (escaped em) highlights line]
  | Kind.InvalidEncoding => reportDecodeErrorMarkers line tokenLines viewMarkers
  | Kind.InvalidEscape =>
      [lexerDiagnostic 11 "Unkown escape sequence" "These Escape sequences are unknown."
         (escaped em) highlights line]
  | Kind.InvalidControl =>
      [lexerDiagnostic 12 "Unkown control characters"
         "Use of invalid control characters. Use escape sequences."
         (escaped em) highlights line]
  | Kind.InvalidDecimalUnicode =>
      [lexerDiagnostic 13 "Invalid decimal unicode" "Use of invalid decimal unicode values."
         (escaped em) highlights line]
  | Kind.InvalidHexUnicode =>
      [lexerDiagnostic 14 "Invalid hexadecimal unicode"
         "Use of invalid hexadecimal unicode values."
         (escaped em) highlights line]
  end.

(** [for (auto& err2 : sl.value.errors) if (err2.kind == err.kind)
    viewMarkers.emplace_back(err2.input)]. *)
Definition stringKindMarkers (k : Kind.t) (errs : list StringError) : ViewMarkers :=
  map se_input (filter (fun err2 => Kind.eqb (kind err2) k) errs).

(** The loop of [reportStringLiteral] over [sl.value.errors], from the
    error at the head of [rest] on. *)
Fixpoint reportStringErrors (line : Z) (tokenLines : View) (all rest : list StringError)
  (reportedKinds : Z) : list diagnostic.Diagnostic :=
  match rest with
  | [] => []
  | err :: rest' =>
      if bitset_test reportedKinds (Kind.index (kind err))
      then reportStringErrors line tokenLines all rest' reportedKinds
      else
        stringKindDiagnostic (kind err) line tokenLines (stringKindMarkers (kind err) all)
        ++ reportStringErrors line tokenLines all rest'
             (bitset_set reportedKinds (Kind.index (kind err)))
  end.

Definition reportStringLiteral (blockLine : BlockLine)
  (sl : TokenOf (LiteralValue StringError)) : BlockLine * list diagnostic.Diagnostic :=
  if isTainted sl || negb (hasErrors (value sl)) then (blockLine, [])
  else
    let tokenLines := extractViewLines source blockLine (input sl) in
    (blockLine,
     reportStringErrors (line (position sl)) tokenLines
                        (errors (value sl)) (errors (value sl)) 0).

Definition numberErrorDiagnostic (err : NumberLiteralError) (line : Z) (tokenLines : View)
  (viewMarkers : ViewMarkers) : list diagnostic.Diagnostic :=
  let em := escapeSourceLine source tokenLines viewMarkers in
  let highlights := toHighlights (markers em) in
  match err with
  | NumberDecodedErrorPosition _ => reportDecodeErrorMarkers line tokenLines viewMarkers
  | NumberMissingExponent _ =>
      [lexerDiagnostic 20 "Missing exponent value"
         "After the exponent sign an actual value is expected."
         (escaped em) highlights line]
  | NumberMissingValue _ =>
      [lexerDiagnostic 21 "Missing value" "After the radix sign an actual value is expected."
         (escaped em) highlights line]
  | NumberMissingBoundary _ =>
      [lexerDiagnostic 22 "Missing boundary" "The number literal ends with an unknown suffix."
         (escaped em) highlights line]
  end.

Fixpoint reportNumberErrors (line : Z) (tokenLines : View)
  (all rest : list NumberLiteralError) (reportedKinds : Z) : list diagnostic.Diagnostic :=
  match rest with
  | [] => []
  | err :: rest' =>
      let kind := numberErrorIndex err in
      if bitset_test reportedKinds kind
      then reportNumberErrors line tokenLines all rest' reportedKinds
      else
        numberErrorDiagnostic err line tokenLines
          (map numberErrorInput
               (filter (fun err2 => (numberErrorIndex err2 =? numberErrorIndex err)%Z) all))
        ++ reportNumberErrors line tokenLines all rest' (bitset_set reportedKinds kind)
  end.

Definition reportNumberLiteral (blockLine : BlockLine)
  (nl : TokenOf (LiteralValue NumberLiteralError))
  : BlockLine * list diagnostic.Diagnostic :=
  if isTainted nl || negb (hasErrors (value nl)) then (blockLine, [])
  else
    let tokenLines := extractViewLines source blockLine (input nl) in
    (blockLine,
     reportNumberErrors (line (position nl)) tokenLines
                        (errors (value nl)) (errors (value nl)) 0).

Definition operatorErrorDiagnostic (err : OperatorLiteralError) (line : Z)
  (tokenLines : View) (viewMarkers : ViewMarkers) : list diagnostic.Diagnostic :=
  let em := escapeSourceLine source tokenLines viewMarkers in
  let highlights := toHighlights (markers em) in
  match err with
  | OperatorDecodedErrorPosition _ => reportDecodeErrorMarkers line tokenLines viewMarkers
  | OperatorWrongClose _ =>
      [lexerDiagnostic 30 "Operator wrong close"
         "The closing sign does not match the opening sign."
         (escaped em) highlights line]
  | OperatorUnexpectedClose _ =>
      [lexerDiagnostic 31 "Operator unexpected close"
         "There was no opening sign before the closing sign."
         (escaped em) highlights line]
  | OperatorNotClosed _ =>
      [lexerDiagnostic 32 "Operator not closed"
         "The operator ends before the closing sign was found."
         (escaped em) highlights line]
  end.

Fixpoint reportOperatorErrors (line : Z) (tokenLines : View)
  (all rest : list OperatorLiteralError) (reportedKinds : Z) : list diagnostic.Diagnostic :=
  match rest with
  | [] => []
  | err :: rest' =>
      let kind := operatorErrorIndex err in
      if bitset_test reportedKinds kind
      then reportOperatorErrors line tokenLines all rest' reportedKinds
      else
        operatorErrorDiagnostic err line tokenLines
          (map operatorErrorInput
               (filter (fun err2 => (operatorErrorIndex err2 =? operatorErrorIndex err)%Z) all))
        ++ reportOperatorErrors line tokenLines all rest' (bitset_set reportedKinds kind)
  end.

Definition reportOperatorLiteral (blockLine : BlockLine)
  (ol : TokenOf (LiteralValue OperatorLiteralError))
  : BlockLine * list diagnostic.Diagnostic :=
  if isTainted ol || negb (hasErrors (value ol)) then (blockLine, [])
  else
    let tokenLines := extractViewLines source blockLine (input ol) in
    (blockLine,
     reportOperatorErrors (line (position ol)) tokenLines
                          (errors (value ol)) (errors (value ol)) 0).

(** ** The dispatcher *)

(** The [visitSome] of [reportLineErrors] on a token. *)
Definition reportToken (blockLine : BlockLine) (ti : nat) (t : Token)
  : BlockLine * list diagnostic.Diagnostic :=
  match t with
  | StringLiteral sl => reportStringLiteral blockLine sl
  | NumberLiteral nl => reportNumberLiteral blockLine nl
  | IdentifierLiteral il => reportTokenWithDecodeErrors blockLine (TokenAt ti) il
  | OperatorLiteral ol => reportOperatorLiteral blockLine ol
  | _ => (blockLine, [])
  end.

(** The [visitSome] of [reportLineErrors] on an insignificant. *)
Definition reportInsignificant (blockLine : BlockLine) (ii : nat) (i : Insignificant)
  : BlockLine * list diagnostic.Diagnostic :=
  match i with
  | NewLineIndentation nli => reportNewline blockLine (InsignificantAt ii) nli
  | CommentLiteral cl => reportTokenWithDecodeErrors blockLine (InsignificantAt ii) cl
  | InvalidEncoding ie => reportInvalidEncoding blockLine (InsignificantAt ii) ie
  | UnexpectedCharacter uc => reportUnexpectedCharacter blockLine (InsignificantAt ii) uc
  | _ => (blockLine, [])
  end.

(** One call of the callback that [reportLineErrors] passes to
    [forEach].  The iterators of [forEach] point into the vectors of the
    line, so the callback sees the element as it is when it is reached:
    an insignificant is read from the line at its index, with the flag
    that earlier reporters may have set (the index is that of an element
    of the vector, so the lookup finds one).  Tokens are never written. *)
Definition reportVisit (blockLine : BlockLine) (x : Visit)
  : BlockLine * list diagnostic.Diagnostic :=
  match x with
  | VisitToken ti t => reportToken blockLine ti t
  | VisitInsignificant ii _ =>
      match nth_error (insignificants blockLine) ii with
      | Some i => reportInsignificant blockLine ii i
      | None => (blockLine, [])
      end
  end.

(** The calls of the callback one after the other: the line with the
    flags set so far, and the diagnostics handed to the context so far. *)
Fixpoint reportVisits (blockLine : BlockLine) (visits : list Visit)
  : BlockLine * list diagnostic.Diagnostic :=
  match visits with
  | [] => (blockLine, [])
  | x :: visits' =>
      let '(blockLine1, reported1) := reportVisit blockLine x in
      let '(blockLine2, reported2) := reportVisits blockLine1 visits' in
      (blockLine2, reported1 ++ reported2)
  end.

(** [reportLineErrors(line, context)]: the line as the call leaves it and
    the diagnostics the call hands to [context.reportDiagnostic], in
    order. *)
Definition reportLineErrors (line : BlockLine)
  : BlockLine * list diagnostic.Diagnostic :=
  reportVisits line (forEach line).

(** The diagnostics that the calls of the callback emit while they report
    on the element [e]. *)
Fixpoint reportedFor (e : Element) (blockLine : BlockLine) (visits : list Visit)
  : list diagnostic.Diagnostic :=
  match visits with
  | [] => []
  | x :: visits' =>
      let '(blockLine1, reported1) := reportVisit blockLine x in
      (if sameElement (visitElement x) e then reported1 else [])
      ++ reportedFor e blockLine1 visits'
  end.

(** The diagnostics that [reportLineErrors] emits on behalf of the
    element [e] of the line. *)
Definition reportedOnBehalf (line : BlockLine) (e : Element)
  : list diagnostic.Diagnostic :=
  reportedFor e line (forEach line).

(** Whether the reporter of a visit gets past its short-circuit on the
    line as it is. *)
Definition visitReportable (blockLine : BlockLine) (x : Visit) : bool :=
  match x with
  | VisitToken _ t => tokenReportable t
  | VisitInsignificant ii _ =>
      match nth_error (insignificants blockLine) ii with
      | Some i => insignificantReportable i
      | None => false
      end
  end.

End Reporter.

(** ** A string layer to run the reporter on *)

Definition isContinuation (b : Byte) : bool := (Z.land b 192 =? 128)%Z.

(** Reads [n] continuation bytes into the scalar [acc]. *)
Fixpoint takeContinuations (n : nat) (bs : String) (acc : Z) : option Z :=
  match n with
  | O => Some acc
  | S n' =>
      match bs with
      | b :: bs' =>
          if isContinuation b
          then takeContinuations n' bs' (Z.lor (Z.shiftl acc 6) (Z.land b 63))
          else None
      | [] => None
      end
  end.

(** The number of continuation bytes a lead byte announces and the bits
    of the scalar it carries. *)
Definition leadByte (b : Byte) : option (nat * Z) :=
  if (b <? 128)%Z then Some (0, b)
  else if (b <? 192)%Z then None
  else if (b <? 224)%Z then Some (1, Z.land b 31)
  else if (b <? 240)%Z then Some (2, Z.land b 15)
  else if (b <? 248)%Z then Some (3, Z.land b 7)
  else None.

(** Whether [scalar], read from a lead byte and [n] continuation bytes, is
    a Unicode scalar value in its shortest form: no overlong encoding, no
    surrogate, nothing above U+10FFFF. *)
Definition validScalar (n : nat) (scalar : Z) : bool :=
  match n with
  | 0 => (scalar <? 128)%Z
  | 1 => (128 <=? scalar)%Z
  | 2 => (2048 <=? scalar)%Z && negb ((55296 <=? scalar)%Z && (scalar <=? 57343)%Z)
  | _ => (65536 <=? scalar)%Z && (scalar <=? 1114111)%Z
  end.

(** Decodes the bytes [bs] found at offset [pos]; every item consumes at
    least one byte, so [fuel] need not exceed the number of bytes. *)
Fixpoint decodeBytes (fuel : nat) (pos : nat) (bs : String) : list Decoded :=
  match fuel with
  | O => []
  | S fuel' =>
      match bs with
      | [] => []
      | b :: bs' =>
          match leadByte b with
          | Some (n, bits) =>
              match takeContinuations n bs' bits with
              | Some scalar =>
                  if validScalar n scalar
                  then DecodedCodePoint (mkView pos (pos + S n)) (mkCodePoint scalar)
                       :: decodeBytes fuel' (pos + S n) (skipn n bs')
                  else DecodedError (mkView pos (S pos)) :: decodeBytes fuel' (S pos) bs'
              | None =>
                  DecodedError (mkView pos (S pos)) :: decodeBytes fuel' (S pos) bs'
              end
          | None => DecodedError (mkView pos (S pos)) :: decodeBytes fuel' (S pos) bs'
          end
      end
  end.

Definition modelDecode (source : String) (view : View) : list Decoded :=
  decodeBytes (byteCount view) (vbegin view) (viewToString source view).

Definition between (lo hi : Z) (c : CodePoint) : bool :=
  (lo <=? cp_v c)%Z && (cp_v c <=? hi)%Z.

Definition modelEncode (c : CodePoint) : String :=
  let v := cp_v c in
  if (v <? 128)%Z then [v]
  else if (v <? 2048)%Z
       then [Z.lor 192 (Z.shiftr v 6); Z.lor 128 (Z.land v 63)]
       else if (v <? 65536)%Z
            then [Z.lor 224 (Z.shiftr v 12); Z.lor 128 (Z.land (Z.shiftr v 6) 63);
                  Z.lor 128 (Z.land v 63)]
            else [Z.lor 240 (Z.shiftr v 18); Z.lor 128 (Z.land (Z.shiftr v 12) 63);
                  Z.lor 128 (Z.land (Z.shiftr v 6) 63); Z.lor 128 (Z.land v 63)].

(** Modelled from the spec: the UTF-8 decoder, the code point
    classification and the UTF-8 encoder are collaborators whose headers
    are not part of the sources.  The specification requires of the
    decoder items that cover, in order, exactly the bytes they consume
    and a [DecodedError] for what is no UTF-8 scalar, and names the four
    classification predicates.  This instance decodes a lead byte with the
    continuation bytes it announces into a code point when they are the
    shortest encoding of a Unicode scalar value, and turns any other byte
    (a stray continuation byte, a truncated sequence, an overlong form, an
    encoded surrogate, a value above U+10FFFF) into a decode error of one
    byte; controls are the code points of
    category Cc, surrogates [U+D800..U+DFFF], non-characters
    [U+FDD0..U+FDEF] and the last two code points of every plane, combining
    marks the blocks of combining diacritical marks. *)
#[export] Instance modelStrings : StringsLayer := {
  utf8Decode := modelDecode;
  isCombiningMark c :=
    between 768 879 c || between 6832 6911 c || between 7616 7679 c
    || between 8400 8447 c || between 65056 65071 c;
  isControl c := between 0 31 c || between 127 159 c;
  isNonCharacter c := between 64976 65007 c || (Z.land (cp_v c) 65534 =? 65534)%Z;
  isSurrogate c := between 55296 57343 c;
  utf8_encode := modelEncode
}.

(** ** Scenarios *)

Definition plain (b e : nat) (l : Z) : TagToken := mkToken (mkView b e) (mkPosition l) false tt.

(** The source [ab\xFFcd] scanned as one identifier with one decode error
    at byte 2. *)
Definition sourceS2 : String := bytes "ab" ++ [255%Z] ++ bytes "cd".
Definition lineS2 : BlockLine :=
  mkBlockLine
    [IdentifierLiteral (mkToken (mkView 0 5) (mkPosition 1) false
                                [mkDecodedErrorPosition (mkView 2 3)])]
    [].

Definition lineS3 : BlockLine :=
  mkBlockLine
    [IdentifierLiteral (mkToken (mkView 0 3) (mkPosition 1) false
                                [mkDecodedErrorPosition (mkView 1 2)]);
     IdentifierLiteral (mkToken (mkView 4 7) (mkPosition 1) false
                                [mkDecodedErrorPosition (mkView 5 6)])]
    [WhiteSpaceSeparator (plain 3 4 1)].


(** An identifier followed by a stray invalid byte: [a\xFF]. *)
Definition sourceStray : String := bytes "a" ++ [255%Z].
Definition lineStray : BlockLine :=
  mkBlockLine
    [IdentifierLiteral (mkToken (mkView 0 1) (mkPosition 1) false [])]
    [InvalidEncoding (plain 1 2 1)].

(** Two stray invalid bytes around an identifier: [\xFFa\xFE]. *)
Definition sourceTwoStray : String := [255%Z] ++ bytes "a" ++ [254%Z].
Definition lineTwoStray : BlockLine :=
  mkBlockLine
    [IdentifierLiteral (mkToken (mkView 1 2) (mkPosition 1) false [])]
    [InvalidEncoding (plain 0 1 1); InvalidEncoding (plain 2 3 1)].

(** The indentation of logical line 7 mixes a blank and a tab in front of
    the identifier [x]. *)
Definition sourceS5 : String := bytes " " ++ [9%Z] ++ bytes "x".
Definition newlineS5 : TokenOf (LiteralValue NewLineError) :=
  mkToken (mkView 0 2) (mkPosition 7) false
          (mkLiteralValue
             [NewLineMixedIndentCharacter (mkMixedIndentCharacter (mkView 0 1));
              NewLineMixedIndentCharacter (mkMixedIndentCharacter (mkView 1 2))]).
Definition lineS5 : BlockLine :=
  mkBlockLine
    [IdentifierLiteral (mkToken (mkView 2 3) (mkPosition 7) false [])]
    [NewLineIndentation newlineS5].

(** The string literal ["\q\q"] with its two unknown escapes. *)
Definition sourceEscapes : String := [34%Z] ++ bytes "\q\q" ++ [34%Z].
Definition lineEscapes : BlockLine :=
  mkBlockLine
    [StringLiteral (mkToken (mkView 0 6) (mkPosition 1) false
                      (mkLiteralValue [mkStringError Kind.InvalidEscape (mkView 1 3);
                                       mkStringError Kind.InvalidEscape (mkView 3 5)]))]
    [].

(** A string literal of fifteen bytes that is not terminated and holds
    two unknown escapes, at bytes 5 and 9. *)
Definition sourceS4 : String := [34%Z] ++ bytes "abcd\qef\qghij".
Definition stringS4 : TokenOf (LiteralValue StringError) :=
  mkToken (mkView 0 15) (mkPosition 1) false
          (mkLiteralValue [mkStringError Kind.InvalidEscape (mkView 5 7);
                           mkStringError Kind.InvalidEscape (mkView 9 11);
                           mkStringError Kind.EndOfInput (mkView 14 15)]).
Definition lineS4 : BlockLine := mkBlockLine [StringLiteral stringS4] [].

(** Lines of plain bytes. *)
Definition sourceAbcd : String := bytes "abcd".
Definition sourceTwoLines : String := bytes "a" ++ [10%Z] ++ bytes "b".

(** ** Notions used to state the properties *)

Definition codeNumbers (ds : list diagnostic.Diagnostic) : list Z :=
  map (fun d => diagnostic.number (diagnostic.code d)) ds.



(** The flag of the insignificant at index [j] is set. *)
Definition taintedAt (line : BlockLine) (j : nat) : Prop :=
  exists b, nth_error (insignificants line) j = Some b /\ insignificantTainted b = true.

(** *** Order of the visits *)

Definition visitIsToken (x : Visit) : bool :=
  match x with
  | VisitToken _ _ => true
  | VisitInsignificant _ _ => false
  end.

(** [x] may be visited before [y]: its input begins earlier, or at the
    same byte and then [x] is not a token visited before an
    insignificant. *)
Definition visitBefore (x y : Visit) : Prop :=
  visitBegin x < visitBegin y
  \/ (visitBegin x = visitBegin y /\ (visitIsToken x = true -> visitIsToken y = true)).

Definition tokensSorted (ts : list Token) : Prop :=
  StronglySorted (fun a b => vbegin (tokenInput a) <= vbegin (tokenInput b)) ts.

Definition insignificantsSorted (ins : list Insignificant) : Prop :=
  StronglySorted (fun a b => vbegin (insignificantInput a) <= vbegin (insignificantInput b)) ins.

(** A line with a token and an insignificant that begin at the same
    byte. *)
Definition lineTie : BlockLine :=
  mkBlockLine
    [ColonSeparator (plain 0 1 1); ColonSeparator (plain 2 3 1)]
    [WhiteSpaceSeparator (plain 1 2 1); MissingBlockEnd (plain 2 2 1)].

(** *** Escape forms *)

Definition isByte (b : Byte) : Prop := (0 <= b < 256)%Z.

(** The lowercase hexadecimal numeral of a byte without padding: one
    digit below 16, two digits from 16 on. *)
Definition unpaddedHex (b : Byte) : String :=
  let digits := bytes "0123456789abcdef" in
  if (b <? 16)%Z then [nth (Z.to_nat b) digits 0%Z]
  else [nth (Z.to_nat (b / 16)) digits 0%Z; nth (Z.to_nat (b mod 16)) digits 0%Z].

(** The bytes of an input that take one digit only. *)
Definition oneDigitBytes (input : String) : nat :=
  List.length (filter (fun b => (b <? 16)%Z) input).

Definition isLineFeed (input : String) : bool :=
  match input with
  | [c] => (c =? 10)%Z
  | _ => false
  end.

(** A decoded item that leaves [requiresEscapes] as it is: a code point
    of none of the four escaped classes, or an item over the single byte
    LF. *)
Definition keepsUnescaped `{StringsLayer} (source : String) (d : Decoded) : bool :=
  match d with
  | DecodedCodePoint input cp =>
      if isCombiningMark cp || isControl cp || isNonCharacter cp || isSurrogate cp
      then isLineFeed (viewToString source input)
      else true
  | DecodedError input => isLineFeed (viewToString source input)
  end.

(** *** Spans *)

(** A span lies within a text of [len] bytes. *)
Definition spanWithin (len : Z) (m : diagnostic.TextSpan) : Prop :=
  (0 <= diagnostic.start m)%Z /\ (0 <= diagnostic.length m)%Z
  /\ (diagnostic.start m + diagnostic.length m <= len)%Z.

(** What [updateMarkers] has made of a span when the output offset is
    [offset]: not met yet, begun, or begun and ended. *)
Definition spanTracked (offset : Z) (m : diagnostic.TextSpan) : Prop :=
  (diagnostic.start m = -1 /\ diagnostic.length m = -1)%Z
  \/ ((0 <= diagnostic.start m <= offset)%Z /\ diagnostic.length m = (-1)%Z)
  \/ spanWithin offset m.

(** A marker lies within a view. *)
Definition markerWithin (view vm : View) : Prop :=
  vbegin view <= vbegin vm /\ vbegin vm <= vend vm /\ vend vm <= vend view.

(** The inputs of the decoded items cover the bytes from [p] to [e] in
    order, each item at least one byte: what the specification requires of
    the decoder. *)
Fixpoint decodedTiles (p : nat) (items : list Decoded) (e : nat) : Prop :=
  match items with
  | [] => p = e
  | d :: items' =>
      let input := match d with
                   | DecodedCodePoint input _ => input
                   | DecodedError input => input
                   end in
      vbegin input = p /\ p < vend input /\ decodedTiles (vend input) items' e
  end.

(** What holds of the escaper when the scan has reached the byte [p]:
    the output offset does not exceed the bytes written and still to be
    flushed, and every span is tracked within the offset. *)
Definition scanned `{StringsLayer} (source : String) (viewMarkers : ViewMarkers)
  (p : nat) (e : Escaper) : Prop :=
  begin e <= p
  /\ (0 <= offset e
      <= Z.of_nat (List.length (rope_to_string source (output e))) + Z.of_nat (p - begin e))%Z
  /\ List.length (spans e) = List.length viewMarkers
  /\ Forall (spanTracked (offset e)) (spans e).

(** *** Kinds of string errors *)

(** The kinds of a list of string errors, each once, in the order of
    their first occurrence; [seen] holds the kinds met before. *)
Fixpoint firstOccurrences (seen : list Kind.t) (errs : list StringError) : list Kind.t :=
  match errs with
  | [] => []
  | err :: errs' =>
      if existsb (Kind.eqb (kind err)) seen
      then firstOccurrences seen errs'
      else kind err :: firstOccurrences (kind err :: seen) errs'
  end.

(** The code number of the diagnostic of a kind; a string error of kind
    [InvalidEncoding] is reported as a decode error, with code 1. *)
Definition kindCode (k : Kind.t) : Z :=
  match k with
  | Kind.EndOfInput => 10
  | Kind.InvalidEncoding => 1
  | Kind.InvalidEscape => 11
  | Kind.InvalidControl => 12
  | Kind.InvalidDecimalUnicode => 13
  | Kind.InvalidHexUnicode => 14
  end.

(** The errors of kind [k]. *)
Definition errorsOfKind (k : Kind.t) (errs : list StringError) : list StringError :=
  filter (fun e => Kind.eqb (kind e) k) errs.

(** ** Further notions *)

(** *** Line extent *)

(** Views that are well formed and follow one another without overlap:
    sorted, disjoint ranges. *)
Definition viewsChained (vs : list View) : Prop :=
  Forall (fun v => vbegin v <= vend v) vs
  /\ StronglySorted (fun a b => vend a <= vbegin b) vs.

(** The bytes of the source from [from] up to [to] hold no line break. *)
Definition noLineBreak (source : String) (from to : nat) : Prop :=
  forall p, from <= p < to -> isLineBreak (byteAt source p) = false.

(** Three identifiers on three physical lines: [ab], LF, [cd], LF,
    [ef]. *)
Definition sourceThreeLines : String :=
  bytes "ab" ++ [10%Z] ++ bytes "cd" ++ [10%Z] ++ bytes "ef".
Definition lineThreeLines : BlockLine :=
  mkBlockLine
    [IdentifierLiteral (mkToken (mkView 0 2) (mkPosition 1) false []);
     IdentifierLiteral (mkToken (mkView 3 5) (mkPosition 2) false []);
     IdentifierLiteral (mkToken (mkView 6 8) (mkPosition 3) false [])]
    [NewLineIndentation (mkToken (mkView 2 3) (mkPosition 2) false (mkLiteralValue []));
     NewLineIndentation (mkToken (mkView 5 6) (mkPosition 3) false (mkLiteralValue []))].

(** *** Rendering *)

(** What the loop of [escapeSourceLine] puts into the output for one
    decoded item: the escape form for a code point of an escaped class
    and for a decode error, the bytes followed by the code point once
    more for a backslash, the bytes themselves otherwise. *)
Definition renderItem `{StringsLayer} (source : String) (d : Decoded) : String :=
  match d with
  | DecodedCodePoint input cp =>
      if isCombiningMark cp || isControl cp || isNonCharacter cp || isSurrogate cp
      then fst (escapedText (viewToString source input))
      else if (cp_v cp =? 92)%Z
           then viewToString source input ++ utf8_encode cp
           else viewToString source input
  | DecodedError input => fst (escapedText (viewToString source input))
  end.

(** The bytes of a text that a span points at. *)
Definition slice (text : String) (m : diagnostic.TextSpan) : String :=
  firstn (Z.to_nat (diagnostic.length m)) (skipn (Z.to_nat (diagnostic.start m)) text).

(** Two escapers that agree on everything but the spans. *)
Definition sameScan (e e' : Escaper) : Prop :=
  output e = output e' /\ begin e = begin e' /\ offset e = offset e'
  /\ requiresEscapes e = requiresEscapes e'.

(** *** Elements of a line *)

Definition tokenTainted (t : Token) : bool :=
  match t with
  | BlockLiteral t => isTainted t
  | ColonSeparator t => isTainted t
  | CommaSeparator t => isTainted t
  | SquareBracketOpen t => isTainted t
  | SquareBracketClose t => isTainted t
  | BracketOpen t => isTainted t
  | BracketClose t => isTainted t
  | StringLiteral t => isTainted t
  | NumberLiteral t => isTainted t
  | IdentifierLiteral t => isTainted t
  | OperatorLiteral t => isTainted t
  end.

(** The element at the address [e] of the line has its flag set. *)
Definition elementTainted (line : BlockLine) (e : Element) : Prop :=
  match e with
  | TokenAt k => exists t, nth_error (tokens line) k = Some t /\ tokenTainted t = true
  | InsignificantAt j => taintedAt line j
  end.

(** The line [a\xFF] with the flag of the stray byte set. *)
Definition lineStrayTainted : BlockLine :=
  mkBlockLine
    [IdentifierLiteral (mkToken (mkView 0 1) (mkPosition 1) false [])]
    [InvalidEncoding (mkToken (mkView 1 2) (mkPosition 1) true tt)].

(** The origin lines of the source code blocks of a diagnostic. *)
Definition originLines (d : diagnostic.Diagnostic) : list Z :=
  map diagnostic.originLine (diagnostic.blocksOf d).

(** *** Alternatives of number and operator errors *)

(** The errors that are the first of their alternative, in order; [seen]
    holds the indices of the alternatives met before. *)
Fixpoint firstOfIndex {E : Type} (index : E -> Z) (seen : list Z) (errs : list E) : list E :=
  match errs with
  | [] => []
  | err :: errs' =>
      if existsb (Z.eqb (index err)) seen
      then firstOfIndex index seen errs'
      else err :: firstOfIndex index (index err :: seen) errs'
  end.

(** The errors of the alternative of [err]. *)
Definition errorsOfIndex {E : Type} (index : E -> Z) (err : E) (errs : list E) : list E :=
  filter (fun err2 => (index err2 =? index err)%Z) errs.

(** The code number of the diagnostic of a number error; a decode error
    is reported with code 1. *)
Definition numberErrorCode (e : NumberLiteralError) : Z :=
  match e with
  | NumberDecodedErrorPosition _ => 1
  | NumberMissingExponent _ => 20
  | NumberMissingValue _ => 21
  | NumberMissingBoundary _ => 22
  end.

Definition operatorErrorCode (e : OperatorLiteralError) : Z :=
  match e with
  | OperatorDecodedErrorPosition _ => 1
  | OperatorWrongClose _ => 30
  | OperatorUnexpectedClose _ => 31
  | OperatorNotClosed _ => 32
  end.

(** *** Collectors *)

(** The insignificants of a line after a collector loop: the flag of
    every element that the loop marks is set, except for the element at
    the address [tok]; [idx] is the index of the head. *)
Fixpoint taintOthers (marks : Insignificant -> bool) (tok : Element) (idx : nat)
  (ins : list Insignificant) : list Insignificant :=
  match ins with
  | [] => []
  | t :: ins' =>
      (if marks t && negb (sameElement (InsignificantAt idx) tok)
       then taintInsignificant t else t)
      :: taintOthers marks tok (S idx) ins'
  end.

(** A view lies within the lines of a token. *)
Definition withinLines (tokenLines v : View) : bool :=
  (vbegin tokenLines <=? vbegin v)%nat && (vend v <=? vend tokenLines)%nat.

(** An unexpected character within the lines, whatever its flag. *)
Definition unexpectedMarked (tokenLines : View) (t : Insignificant) : bool :=
  match t with
  | UnexpectedCharacter ouc => withinLines tokenLines (input ouc)
  | _ => false
  end.

Definition unexpectedMarkersOf (tokenLines : View) (t : Insignificant) : ViewMarkers :=
  if unexpectedMarked tokenLines t then [insignificantInput t] else [].

(** A carrier of decode errors within the lines whose flag is not set; a
    newline counts when all of its errors are decode errors. *)
Definition decodeErrorMarked (tokenLines : View) (t : Insignificant) : bool :=
  match t with
  | InvalidEncoding ie => negb (isTainted ie) && isPartOf (input ie) tokenLines
  | CommentLiteral cl => negb (isTainted cl) && isPartOf (input cl) tokenLines
  | NewLineIndentation nli =>
      negb (isTainted nli) && isPartOf (input nli) tokenLines
      && forallb holdsDecodedErrorPosition (errors (value nli))
  | _ => false
  end.

Definition decodeErrorMarkersOf (tokenLines : View) (t : Insignificant) : ViewMarkers :=
  if decodeErrorMarked tokenLines t
  then match t with
       | InvalidEncoding ie => [input ie]
       | CommentLiteral cl => map dep_input (decodeErrors cl)
       | NewLineIndentation nli => decodedErrorInputs (errors (value nli))
       | _ => []
       end
  else [].

(** The insignificant at the address [tok], when there is one. *)
Definition insignificantAt (line : BlockLine) (tok : Element) : option Insignificant :=
  match tok with
  | InsignificantAt i => nth_error (insignificants line) i
  | TokenAt _ => None
  end.

(** Two unexpected characters on one physical line: the insignificants
    at the indices [i] and [j] are unexpected characters, and the input of
    each lies within the physical lines of the other. *)
Definition unexpectedOnOneLine (source : String) (line : BlockLine) (i j : nat) : Prop :=
  exists a b,
    nth_error (insignificants line) i = Some a
    /\ nth_error (insignificants line) j = Some b
    /\ unexpectedMarked (extractViewLines source line (insignificantInput a)) b = true
    /\ unexpectedMarked (extractViewLines source line (insignificantInput b)) a = true.

(** Two characters that belong to no token around an identifier:
    [#a$]. *)
Definition sourceTwoUnexpected : String := bytes "#a$".
Definition lineTwoUnexpected : BlockLine :=
  mkBlockLine
    [IdentifierLiteral (mkToken (mkView 1 2) (mkPosition 1) false [])]
    [UnexpectedCharacter (plain 0 1 1); UnexpectedCharacter (plain 2 3 1)].

(** *** Ropes built by appending *)

(** One of the three [operator+=] of [rope], chosen by the piece. *)
Definition rope_add (r : Rope) (e : RopeElement) : Rope :=
  match e with
  | RopeCodePoint c => rope_add_code_point r c
  | RopeString s => rope_add_string r s
  | RopeView v => rope_add_view r v
  end.

(** The default rope with the pieces appended one after the other. *)
Definition rope_build (pieces : list RopeElement) : Rope := fold_left rope_add pieces [].

(** [rope::is_empty()]. *)
Definition rope_is_empty (r : Rope) : bool :=
  match r with
  | [] => true
  | _ :: _ => false
  end.

(** An empty string or an empty view; a code point is never empty. *)
Definition emptyPiece (e : RopeElement) : bool :=
  match e with
  | RopeCodePoint _ => false
  | RopeString [] => true
  | RopeString (_ :: _) => false
  | RopeView v => (vbegin v =? vend v)%nat
  end.

(** *** The spans of the markers *)

Definition itemInput (d : Decoded) : View :=
  match d with
  | DecodedCodePoint input _ => input
  | DecodedError input => input
  end.

(** What the loop of [escapeSourceLine] adds to [offset] for one decoded
    item: the length of the escape form for an item that is escaped, two
    for a backslash, one for any other code point, whatever the number of
    its bytes. *)
Definition itemWidth `{StringsLayer} (source : String) (d : Decoded) : Z :=
  match d with
  | DecodedCodePoint input cp =>
      if isCombiningMark cp || isControl cp || isNonCharacter cp || isSurrogate cp
      then Z.of_nat (List.length (fst (escapedText (viewToString source input))))
      else if (cp_v cp =? 92)%Z then 2 else 1
  | DecodedError input =>
      Z.of_nat (List.length (fst (escapedText (viewToString source input))))
  end.

(** The calls of [updateMarkers] in order, each with the position it is
    handed and the value of [offset] at the call: one call at the begin of
    every decoded item and one at the end of the view. *)
Fixpoint markerCalls `{StringsLayer} (source : String) (items : list Decoded)
  (offset : Z) (viewEnd : nat) : list (nat * Z) :=
  match items with
  | [] => [(viewEnd, offset)]
  | d :: items' =>
      (vbegin (itemInput d), offset)
      :: markerCalls source items' (offset + itemWidth source d) viewEnd
  end.

(** The offset at the first call whose position has reached [p]. *)
Definition offsetAt (calls : list (nat * Z)) (p : nat) : option Z :=
  option_map snd (find (fun c => (p <=? fst c)%nat) calls).

(** The span of a marker in the rendered text: from the offset at which
    the scan reaches its begin to the offset at which the scan reaches its
    end, with the sentinel for what the scan does not reach. *)
Definition trackedSpan (calls : list (nat * Z)) (vm : View) : diagnostic.TextSpan :=
  match offsetAt calls (vbegin vm) with
  | None => diagnostic.mkTextSpan (-1) (-1)
  | Some s =>
      diagnostic.mkTextSpan s (match offsetAt calls (vend vm) with
                               | Some e => e - s
                               | None => -1
                               end)
  end.

(** Calls whose offsets do not decrease and lie between zero and the
    current offset. *)
Definition callsUpTo (calls : list (nat * Z)) (offset : Z) : Prop :=
  StronglySorted (fun a b => (snd a <= snd b)%Z) calls
  /\ Forall (fun c => (0 <= snd c <= offset)%Z) calls.

(** The span of a marker in the bytes of the view. *)
Definition rawSpan (view vm : View) : diagnostic.TextSpan :=
  diagnostic.mkTextSpan (Z.of_nat (vbegin vm) - Z.of_nat (vbegin view))
                        (Z.of_nat (byteCount vm)).

(** The spans that [escapeSourceLine] hands back for the markers of a
    view.  With escapes every marker has its span in the rendered text.
    Without escapes the first span is the raw span of the last marker and
    every other marker keeps its span in the rendered text, in which a
    backslash counts twice and a code point of several bytes once. *)
Definition returnedSpans `{StringsLayer} (source : String) (view : View)
  (viewMarkers : ViewMarkers) : diagnostic.TextSpans :=
  let items := utf8Decode source view in
  let tracked := map (trackedSpan (markerCalls source items 0 (vend view))) viewMarkers in
  if forallb (keepsUnescaped source) items
  then match tracked with
       | [] => []
       | _ :: rest => rawSpan view (last viewMarkers (mkView 0 0)) :: rest
       end
  else tracked.

(** A view whose begin does not lie behind its end. *)
Definition wellFormed (v : View) : Prop := vbegin v <= vend v.

(** A number literal with two errors of one alternative, at bytes 1 and
    3 of [1e2e]. *)
Definition sourceNumber : String := bytes "1e2e".
Definition numberTwoErrors : TokenOf (LiteralValue NumberLiteralError) :=
  mkToken (mkView 0 4) (mkPosition 1) false
          (mkLiteralValue [NumberMissingExponent (mkView 1 2);
                           NumberMissingExponent (mkView 3 4)]).
Definition lineNumber : BlockLine := mkBlockLine [NumberLiteral numberTwoErrors] [].

(** An operator literal with two errors of one alternative, at bytes 0
    and 2 of [)a)]. *)
Definition sourceOperator : String := bytes ")a)".
Definition operatorTwoErrors : TokenOf (LiteralValue OperatorLiteralError) :=
  mkToken (mkView 0 3) (mkPosition 1) false
          (mkLiteralValue [OperatorUnexpectedClose (mkView 0 1);
                           OperatorUnexpectedClose (mkView 2 3)]).
Definition lineOperator : BlockLine := mkBlockLine [OperatorLiteral operatorTwoErrors] [].

(** * Properties *)


(** ** The scenarios, evaluated *)

(** C2.  On the line whose only token is the identifier [ab\xFFcd] with
    one decode error at byte 2, [reportLineErrors] emits one diagnostic
    with code ("rebuild-lexer", 1) and the text [ab\[ff]cd], but the
    marker of the identifier is not collected: the paragraph is the
    plural one and the block has no highlight. *)
Theorem S2_reported_without_highlight :
  snd (reportLineErrors sourceS2 lineS2)
  = [lexerDiagnostic 1 "Invalid UTF8 Encoding"
       "The UTF8-decoder encountered multiple invalid encodings"
       (bytes "ab\[ff]cd") [] 1].
Proof. vm_compute. reflexivity. Qed.

(** Handed the marker of the identifier, the escaper does return the
    span {start: 2, length: 5} in the text [ab\[ff]cd]. *)
Example S2_marker_span :
  escapeSourceLine sourceS2 (mkView 0 5) [mkView 2 3]
  = mkEscapedMarkers (bytes "ab\[ff]cd") [diagnostic.mkTextSpan 2 5].
Proof. vm_compute. reflexivity. Qed.

(** C4.  On the unescaped return path with two markers, the first span
    receives the values of the last marker and the span of the first
    marker is lost: for the view [abcd] and the markers [0,1) and [2,4)
    both returned spans are {start: 2, length: 2}. *)
Theorem unescaped_spans_of_two_markers :
  escapeSourceLine sourceAbcd (mkView 0 4) [mkView 0 1; mkView 2 4]
  = mkEscapedMarkers (bytes "abcd")
      [diagnostic.mkTextSpan 2 2; diagnostic.mkTextSpan 2 2].
Proof. vm_compute. reflexivity. Qed.

(** C5.  For the newline of logical line 7 whose errors are two mixed
    indentation characters, [reportNewline] emits one diagnostic with code
    ("rebuild-lexer", 3) and origin line 6, but the sibling loop visits
    the newline itself and appends its two markers a second time: the
    block carries four highlights. *)
Theorem S5_reported_with_four_highlights :
  snd (reportNewline sourceS5 lineS5 (InsignificantAt 0) newlineS5)
  = [lexerDiagnostic 3 "Mixed Indentation Characters"
       "The indentation mixes tabs and spaces."
       (bytes " \tx")
       (toHighlights [diagnostic.mkTextSpan 0 1; diagnostic.mkTextSpan 1 2;
                      diagnostic.mkTextSpan 0 1; diagnostic.mkTextSpan 1 2])
       6]
  /\ snd (reportLineErrors sourceS5 lineS5)
     = snd (reportNewline sourceS5 lineS5 (InsignificantAt 0) newlineS5).
Proof. split; vm_compute; reflexivity. Qed.

(** C6.  For the unterminated string literal of fifteen bytes with
    unknown escapes at bytes 5 and 9, [reportLineErrors] emits the code 11
    diagnostic with two highlights and then the code 10 diagnostic with
    the highlight {start: 14, length: 1}; but the highlights of code 11
    are {start: 9, length: 2} and {start: 10, length: 3}: the first
    carries the values of the second escape, the second the offsets
    tracked with every backslash counted twice, and none points at
    byte 5. *)
Theorem S4_reported_with_misplaced_highlights :
  snd (reportLineErrors sourceS4 lineS4)
  = [lexerDiagnostic 11 "Unkown escape sequence" "These Escape sequences are unknown."
       sourceS4
       (toHighlights [diagnostic.mkTextSpan 9 2; diagnostic.mkTextSpan 10 3]) 1;
     lexerDiagnostic 10 "Unexpected end of input" "The string was not terminated."
       sourceS4 (toHighlights [diagnostic.mkTextSpan 14 1]) 1]
  /\ snd (reportLineErrors sourceS4 lineS4)
     = snd (reportStringLiteral sourceS4 lineS4 stringS4).
Proof. split; vm_compute; reflexivity. Qed.

(** C9.  For the string literal ["\q\q"] with its two unknown escapes the
    text of the emitted block is the unescaped literal of six bytes, and
    the second highlight is {start: 4, length: 3}, which ends behind the
    text. *)
Theorem escapes_span_exceeds_text :
  snd (reportLineErrors sourceEscapes lineEscapes)
  = [lexerDiagnostic 11 "Unkown escape sequence" "These Escape sequences are unknown."
       sourceEscapes
       (toHighlights [diagnostic.mkTextSpan 3 2; diagnostic.mkTextSpan 4 3]) 1]
  /\ (Z.of_nat (List.length sourceEscapes) < 4 + 3)%Z.
Proof. split; vm_compute; reflexivity. Qed.

(** C1, as stated, fails: on the line [a\xFF], whose stray byte is
    reported by the first call, the second call on the line as the first
    call left it emits the same diagnostic again. *)
Lemma second_call_reports_again :
  let first := reportLineErrors sourceStray lineStray in
  let second := reportLineErrors sourceStray (fst first) in
  snd second = snd first /\ List.length (snd second) = 1.
Proof. split; vm_compute; reflexivity. Qed.

(** ** Escape forms *)

Lemma hex_of_byte_checked :
  forallb (fun n => let b := Z.of_nat n in
                    if list_eq_dec Z.eq_dec (hex (Z.land b 255)) (unpaddedHex b)
                    then true else false)
          (seq 0 256) = true.
Proof. vm_compute. reflexivity. Qed.

Lemma hex_of_byte (b : Byte) : isByte b -> hex (Z.land b 255) = unpaddedHex b.
Proof.
  intros Hb. pose proof hex_of_byte_checked as Hall.
  rewrite forallb_forall in Hall.
  specialize (Hall (Z.to_nat b)).
  rewrite Z2Nat.id in Hall by (destruct Hb; assumption).
  cbv zeta in Hall.
  destruct (list_eq_dec Z.eq_dec (hex (Z.land b 255)) (unpaddedHex b)) as [Heq|Hne].
  - exact Heq.
  - assert (Hin : In (Z.to_nat b) (seq 0 256)).
    { apply in_seq. destruct Hb. lia. }
    specialize (Hall Hin). discriminate.
Qed.

Lemma flat_map_hex (input : String) :
  Forall isByte input ->
  flat_map (fun x => hex (Z.land x 255)) input = flat_map unpaddedHex input.
Proof.
  induction 1 as [|b input Hb _ IH]; simpl.
  - reflexivity.
  - rewrite hex_of_byte, IH by assumption. reflexivity.
Qed.

Lemma unpaddedHex_digits (input : String) :
  List.length (flat_map unpaddedHex input) + oneDigitBytes input = 2 * List.length input.
Proof.
  unfold oneDigitBytes.
  induction input as [|b input IH]; simpl.
  - reflexivity.
  - rewrite length_app. unfold unpaddedHex at 1.
    destruct (b <? 16)%Z; simpl; lia.
Qed.

(** C8, as the code has it.  A single byte other than LF, CR, TAB and NUL
    is rendered as [\[], its lowercase hexadecimal numeral without
    padding, and []]; an input of two or more bytes is rendered as [\[],
    the unpadded lowercase numerals of its bytes one after the other, and
    []], so that a byte below 16 contributes one digit and the digits are
    [2n] less the number of such bytes. *)
Theorem escapedText_forms (input : String) (Hbytes : Forall isByte input) :
  (forall c, input = [c] -> c <> 10%Z -> c <> 13%Z -> c <> 9%Z -> c <> 0%Z ->
             escapedText input = (bytes "\[" ++ unpaddedHex c ++ bytes "]", true))
  /\ (2 <= List.length input ->
      escapedText input = (bytes "\[" ++ flat_map unpaddedHex input ++ bytes "]", true)
      /\ List.length (flat_map unpaddedHex input) + oneDigitBytes input
         = 2 * List.length input).
Proof.
  split.
  - intros c -> H10 H13 H9 H0. unfold escapedText.
    apply Z.eqb_neq in H10, H13, H9, H0. rewrite H10, H13, H9, H0.
    rewrite hex_of_byte; [reflexivity|].
    inversion Hbytes; assumption.
  - intros Hlen. split; [|apply unpaddedHex_digits].
    destruct input as [|a [|b rest]]; simpl in Hlen; try lia.
    unfold escapedText. rewrite flat_map_hex by assumption. reflexivity.
Qed.

Lemma escapedText_forms_witness :
  escapedText [195%Z; 5%Z] = (bytes "\[c35]", true)
  /\ escapedText [255%Z] = (bytes "\[ff]", true).
Proof.
  split.
  - assert (Hb : Forall isByte [195%Z; 5%Z]) by (repeat constructor; unfold isByte; lia).
    destruct (escapedText_forms Hb) as [_ Hmany].
    destruct (Hmany ltac:(simpl; lia)) as [Heq _]. exact Heq.
  - assert (Hb : Forall isByte [255%Z]) by (repeat constructor; unfold isByte; lia).
    destruct (escapedText_forms Hb) as [Hone _].
    apply (Hone 255%Z eq_refl); discriminate.
Defined.

(** C8, as stated, fails: the decode error of the two bytes 0xC3 0x05 is
    rendered with three digits, [\[c35]], the byte 0x05 contributing the
    single digit [5]; no input of two bytes with a byte below 16 is
    rendered with four digits. *)
Lemma escapedText_two_bytes_three_digits :
  fst (escapedText [195%Z; 5%Z]) = bytes "\[c35]"
  /\ ~ (forall input, 2 <= List.length input -> Forall isByte input ->
          exists digits, fst (escapedText input) = bytes "\[" ++ digits ++ bytes "]"
                         /\ List.length digits = 2 * List.length input).
Proof.
  split; [vm_compute; reflexivity|].
  intros Hall.
  destruct (Hall [195%Z; 5%Z]) as [digits [Heq Hlen]].
  - simpl; lia.
  - repeat constructor; unfold isByte; lia.
  - apply (f_equal (@List.length _)) in Heq.
    rewrite !length_app, Hlen in Heq. vm_compute in Heq. discriminate.
Qed.

(** ** The unescaped return path *)

Lemma escapedText_sets (input : String) :
  snd (escapedText input) = negb (isLineFeed input).
Proof.
  destruct input as [|c [|c' rest]]; simpl; try reflexivity.
  destruct (c =? 10)%Z; [reflexivity|].
  destruct (c =? 13)%Z; [reflexivity|].
  destruct (c =? 9)%Z; [reflexivity|].
  destruct (c =? 0)%Z; reflexivity.
Qed.

Section UnescapedPath.

Context `{StringsLayer}.
Variable source : String.

Lemma addEscaped_requiresEscapes input e :
  requiresEscapes (addEscaped source input e)
  = requiresEscapes e || negb (isLineFeed (viewToString source input)).
Proof.
  unfold addEscaped.
  pose proof (escapedText_sets (viewToString source input)) as Hsets.
  destruct (escapedText (viewToString source input)) as [str sets]; simpl in *.
  subst sets. destruct (isLineFeed _), (requiresEscapes e); reflexivity.
Qed.

Lemma escapeStep_requiresEscapes viewMarkers e d :
  requiresEscapes (escapeStep source viewMarkers e d)
  = requiresEscapes e || negb (keepsUnescaped source d).
Proof.
  destruct d as [input cp|input]; simpl.
  - destruct (isCombiningMark cp || isControl cp || isNonCharacter cp || isSurrogate cp).
    + rewrite addEscaped_requiresEscapes. reflexivity.
    + destruct (cp_v cp =? 92)%Z; simpl; rewrite orb_false_r; reflexivity.
  - rewrite addEscaped_requiresEscapes. reflexivity.
Qed.

Lemma escapeSteps_requiresEscapes viewMarkers items : forall e,
  requiresEscapes (fold_left (escapeStep source viewMarkers) items e)
  = requiresEscapes e || negb (forallb (keepsUnescaped source) items).
Proof.
  induction items as [|d items IH]; intros e; simpl.
  - rewrite orb_false_r. reflexivity.
  - rewrite IH, escapeStep_requiresEscapes.
    destruct (requiresEscapes e), (keepsUnescaped source d); reflexivity.
Qed.

Lemma escapeScan_requiresEscapes view viewMarkers :
  requiresEscapes (escapeScan source view viewMarkers)
  = negb (forallb (keepsUnescaped source) (utf8Decode source view)).
Proof.
  unfold escapeScan, updateMarkers; simpl.
  rewrite escapeSteps_requiresEscapes. reflexivity.
Qed.

(** C7, as the code has it.  [escapeSourceLine] returns the view as it is
    exactly when [requiresEscapes] stayed false, and LF does not set it:
    for a view whose decoded items are code points outside the escaped
    classes and items over the single byte LF, the returned text is the
    view itself, with its LF bytes as they are. *)
Theorem escapeSourceLine_unescaped_with_line_feeds (view : View) (viewMarkers : ViewMarkers)
  (Hitems : forallb (keepsUnescaped source) (utf8Decode source view) = true) :
  requiresEscapes (escapeScan source view viewMarkers) = false
  /\ escaped (escapeSourceLine source view viewMarkers) = viewToString source view.
Proof.
  assert (Hreq : requiresEscapes (escapeScan source view viewMarkers) = false).
  { rewrite escapeScan_requiresEscapes, Hitems. reflexivity. }
  split; [exact Hreq|].
  unfold escapeSourceLine. rewrite Hreq. reflexivity.
Qed.

End UnescapedPath.

Lemma escapeSourceLine_unescaped_with_line_feeds_witness :
  requiresEscapes (escapeScan sourceTwoLines (mkView 0 3) []) = false
  /\ escaped (escapeSourceLine sourceTwoLines (mkView 0 3) []) = sourceTwoLines.
Proof.
  apply (escapeSourceLine_unescaped_with_line_feeds sourceTwoLines (mkView 0 3) []).
  vm_compute. reflexivity.
Defined.

(** C7, as stated, fails: the view [a], LF, [b] holds an LF and nothing
    else that is escaped, and the returned text is the view itself, not
    the rendering [a\n], LF, [b] that the rope holds. *)
Lemma line_feed_is_returned_unescaped :
  escaped (escapeSourceLine sourceTwoLines (mkView 0 3) []) = bytes "a" ++ [10%Z] ++ bytes "b"
  /\ rope_to_string sourceTwoLines (output (escapeScan sourceTwoLines (mkView 0 3) []))
     = bytes "a\n" ++ [10%Z] ++ bytes "b"
  /\ escaped (escapeSourceLine sourceTwoLines (mkView 0 3) [])
     <> bytes "a\n" ++ [10%Z] ++ bytes "b".
Proof. repeat split; try (vm_compute; reflexivity). vm_compute. discriminate. Qed.

(** ** [BlockLine::forEach] *)

Lemma forEachFrom_nil_tokens ti ii ins :
  forEachFrom ti [] ii ins = forEachInsignificants ii ins.
Proof. reflexivity. Qed.

Lemma forEachFrom_nil_insignificants ti ts ii :
  forEachFrom ti ts ii [] = forEachTokens ti ts.
Proof. destruct ts; reflexivity. Qed.

Lemma forEachFrom_cons ti t ts ii i ins :
  forEachFrom ti (t :: ts) ii (i :: ins)
  = if (vbegin (tokenInput t) <? vbegin (insignificantInput i))%nat
    then VisitToken ti t :: forEachFrom (S ti) ts ii (i :: ins)
    else VisitInsignificant ii i :: forEachFrom ti (t :: ts) (S ii) ins.
Proof. reflexivity. Qed.

(** The visits are the visits of the tokens and of the insignificants,
    each once. *)
Lemma forEachFrom_permutation ts : forall ti ii ins,
  Permutation (forEachFrom ti ts ii ins)
              (forEachTokens ti ts ++ forEachInsignificants ii ins).
Proof.
  induction ts as [|t ts IHts]; intros ti ii ins.
  - rewrite forEachFrom_nil_tokens. apply Permutation_refl.
  - revert ii. induction ins as [|i ins IHins]; intros ii.
    + rewrite forEachFrom_nil_insignificants, app_nil_r. apply Permutation_refl.
    + rewrite forEachFrom_cons.
      destruct (vbegin (tokenInput t) <? vbegin (insignificantInput i))%nat.
      * simpl. apply perm_skip. apply IHts.
      * eapply perm_trans; [apply perm_skip, IHins|].
        change (forEachInsignificants ii (i :: ins))
          with (VisitInsignificant ii i :: forEachInsignificants (S ii) ins).
        apply Permutation_middle.
Qed.

Lemma forEachTokens_Forall (P : Visit -> Prop) ts : forall ti,
  Forall (fun t => forall k, P (VisitToken k t)) ts ->
  Forall P (forEachTokens ti ts).
Proof.
  induction ts as [|t ts IH]; intros ti Hall; simpl; constructor.
  - inversion Hall; subst; auto.
  - apply IH. inversion Hall; subst; assumption.
Qed.

Lemma forEachInsignificants_Forall (P : Visit -> Prop) ins : forall ii,
  Forall (fun i => forall k, P (VisitInsignificant k i)) ins ->
  Forall P (forEachInsignificants ii ins).
Proof.
  induction ins as [|i ins IH]; intros ii Hall; simpl; constructor.
  - inversion Hall; subst; auto.
  - apply IH. inversion Hall; subst; assumption.
Qed.

Lemma forEachFrom_Forall (P : Visit -> Prop) ti ts ii ins :
  Forall (fun t => forall k, P (VisitToken k t)) ts ->
  Forall (fun i => forall k, P (VisitInsignificant k i)) ins ->
  Forall P (forEachFrom ti ts ii ins).
Proof.
  intros Hts Hins.
  eapply Permutation_Forall.
  - apply Permutation_sym, forEachFrom_permutation.
  - apply Forall_app; split.
    + apply forEachTokens_Forall; assumption.
    + apply forEachInsignificants_Forall; assumption.
Qed.

Ltac solve_visitBefore :=
  unfold visitBefore; cbv beta in *; simpl;
  match goal with
  | |- ?a < ?b \/ _ =>
      destruct (Nat.eq_dec a b);
      [right; split; [assumption | first [discriminate | tauto]] | left; lia]
  end.

Lemma forEachTokens_sorted ts : forall ti,
  tokensSorted ts -> StronglySorted visitBefore (forEachTokens ti ts).
Proof.
  induction ts as [|t ts IH]; intros ti Hs; simpl; constructor;
    apply StronglySorted_inv in Hs; destruct Hs as [Hs Hhd].
  - apply IH; assumption.
  - apply forEachTokens_Forall.
    eapply Forall_impl; [|exact Hhd].
    intros t' Hle k. solve_visitBefore.
Qed.

Lemma forEachInsignificants_sorted ins : forall ii,
  insignificantsSorted ins -> StronglySorted visitBefore (forEachInsignificants ii ins).
Proof.
  induction ins as [|i ins IH]; intros ii Hs; simpl; constructor;
    apply StronglySorted_inv in Hs; destruct Hs as [Hs Hhd].
  - apply IH; assumption.
  - apply forEachInsignificants_Forall.
    eapply Forall_impl; [|exact Hhd].
    intros i' Hle k. solve_visitBefore.
Qed.

Lemma forEachFrom_sorted ts : forall ti ii ins,
  tokensSorted ts -> insignificantsSorted ins ->
  StronglySorted visitBefore (forEachFrom ti ts ii ins).
Proof.
  induction ts as [|t ts IHts]; intros ti ii ins Hts Hins.
  - rewrite forEachFrom_nil_tokens. apply forEachInsignificants_sorted; assumption.
  - revert ii. induction ins as [|i ins IHins]; intros ii.
    + rewrite forEachFrom_nil_insignificants. apply forEachTokens_sorted; assumption.
    + rewrite forEachFrom_cons.
      pose proof (StronglySorted_inv Hts) as [Hts' Hthd].
      pose proof (StronglySorted_inv Hins) as [Hins' Hihd].
      destruct (vbegin (tokenInput t) <? vbegin (insignificantInput i))%nat eqn:Hlt.
      * apply Nat.ltb_lt in Hlt. constructor.
        -- apply IHts; assumption.
        -- apply forEachFrom_Forall.
           ++ eapply Forall_impl; [|exact Hthd].
              intros t' Hle k. solve_visitBefore.
           ++ constructor.
              ** intros k. left; cbv beta in *; simpl; lia.
              ** eapply Forall_impl; [|exact Hihd].
                 intros i' Hle k. left; cbv beta in *; simpl; lia.
      * apply Nat.ltb_ge in Hlt. constructor.
        -- apply IHins; assumption.
        -- apply forEachFrom_Forall.
           ++ constructor.
              ** intros k. solve_visitBefore.
              ** eapply Forall_impl; [|exact Hthd].
                 intros t' Hle k. solve_visitBefore.
           ++ eapply Forall_impl; [|exact Hihd].
              intros i' Hle k. solve_visitBefore.
Qed.

(** C10.  [forEach] calls the callback once for every token and once for
    every insignificant; on a line whose two vectors are sorted by the
    begin of their inputs the calls are in nondecreasing order of that
    begin, and of a token and an insignificant that begin at the same
    byte the insignificant is visited first. *)
Theorem forEach_visits_in_order (bl : BlockLine)
  (Htokens : tokensSorted (tokens bl))
  (Hinsignificants : insignificantsSorted (insignificants bl)) :
  Permutation (forEach bl)
              (forEachTokens 0 (tokens bl) ++ forEachInsignificants 0 (insignificants bl))
  /\ StronglySorted visitBefore (forEach bl).
Proof.
  split.
  - apply forEachFrom_permutation.
  - apply forEachFrom_sorted; assumption.
Qed.

Lemma forEach_visits_in_order_witness :
  Permutation (forEach lineTie)
              (forEachTokens 0 (tokens lineTie)
               ++ forEachInsignificants 0 (insignificants lineTie))
  /\ StronglySorted visitBefore (forEach lineTie).
Proof.
  apply (forEach_visits_in_order lineTie).
  - unfold tokensSorted; simpl. repeat constructor.
  - unfold insignificantsSorted; simpl. repeat constructor.
Defined.

(** On the line of the witness the colon and the missing block end both
    begin at byte 2, and the insignificant is visited first. *)
Example forEach_tie_order :
  map visitElement (forEach lineTie)
  = [TokenAt 0; InsignificantAt 0; InsignificantAt 1; TokenAt 1].
Proof. reflexivity. Qed.

(** ** Diagnostics of a string literal *)

Lemma spansOf_lexerDiagnostic number heading paragraph text ms line :
  diagnostic.spansOf (lexerDiagnostic number heading paragraph text (toHighlights ms) line)
  = ms.
Proof.
  unfold diagnostic.spansOf, lexerDiagnostic, toHighlights; simpl.
  rewrite app_nil_r, map_map; simpl. apply map_id.
Qed.

Lemma updateMarkersLoop_length offset p viewMarkers : forall ms,
  List.length (updateMarkersLoop offset p viewMarkers ms) = List.length ms.
Proof.
  induction viewMarkers as [|vm viewMarkers IH]; intros [|m ms]; simpl; auto.
Qed.

Lemma assign_length i x : forall ms, List.length (assign i x ms) = List.length ms.
Proof.
  induction i as [|i IH]; intros [|m ms]; simpl; auto.
Qed.

Lemma unescapedMarkers_length i view viewMarkers : forall ms,
  List.length (unescapedMarkers i view viewMarkers ms) = List.length ms.
Proof.
  induction viewMarkers as [|vm viewMarkers IH]; intros ms; simpl.
  - reflexivity.
  - rewrite IH. apply assign_length.
Qed.

Lemma addEscaped_spans source input e :
  spans (addEscaped source input e) = spans e.
Proof.
  unfold addEscaped. destruct (escapedText (viewToString source input)). reflexivity.
Qed.

Lemma Kind_eqb_eq a b : Kind.eqb a b = true <-> a = b.
Proof.
  destruct a, b; split; intros Heq; try reflexivity;
    solve [discriminate | vm_compute in Heq; discriminate].
Qed.

Lemma Kind_eqb_refl a : Kind.eqb a a = true.
Proof. apply Kind_eqb_eq. reflexivity. Qed.

Lemma existsb_Kind_In k seen : existsb (Kind.eqb k) seen = true <-> In k seen.
Proof.
  rewrite existsb_exists. split.
  - intros [x [Hin Heq]]. apply Kind_eqb_eq in Heq. subst. assumption.
  - intros Hin. exists k. split; [assumption|apply Kind_eqb_refl].
Qed.

Lemma bitset_set_test bits (k k' : Kind.t) :
  bitset_test (bitset_set bits (Kind.index k)) (Kind.index k')
  = Kind.eqb k' k || bitset_test bits (Kind.index k').
Proof.
  unfold bitset_test, bitset_set. rewrite Z.lor_spec.
  destruct k, k'; simpl; try apply orb_comm; rewrite orb_false_r; reflexivity.
Qed.

Lemma firstOccurrences_In errs : forall seen k,
  In k (firstOccurrences seen errs)
  <-> (exists e, In e errs /\ kind e = k) /\ ~ In k seen.
Proof.
  induction errs as [|err errs IH]; intros seen k; simpl.
  - split; [intros []|intros [[e [[] _]] _]].
  - destruct (existsb (Kind.eqb (kind err)) seen) eqn:Hseen.
    + apply existsb_Kind_In in Hseen. rewrite IH. split.
      * intros [[e [Hin Hk]] Hnot]. split; [exists e; auto|assumption].
      * intros [[e [[Heq|Hin] Hk]] Hnot]; subst.
        -- contradiction.
        -- split; [exists e; auto|assumption].
    + assert (Hnew : ~ In (kind err) seen).
      { intros Hin. apply existsb_Kind_In in Hin. congruence. }
      simpl. rewrite IH. split.
      * intros [Heq|[[e [Hin Hk]] Hnot]].
        -- subst. split; [exists err; auto|assumption].
        -- split; [exists e; auto|]. intros Hin'. apply Hnot. right; assumption.
      * intros [[e [[Heq|Hin] Hk]] Hnot]; subst.
        -- left; reflexivity.
        -- destruct (Kind_eqb_eq (kind err) (kind e)) as [_ Hdec].
           destruct (Kind.eqb (kind err) (kind e)) eqn:Hsame.
           ++ left. apply Kind_eqb_eq. assumption.
           ++ right. split; [exists e; auto|].
              intros [Heq|Hin']; [|contradiction].
              rewrite Heq, Kind_eqb_refl in Hsame. discriminate.
Qed.

Lemma firstOccurrences_NoDup errs : forall seen, NoDup (firstOccurrences seen errs).
Proof.
  induction errs as [|err errs IH]; intros seen; simpl.
  - constructor.
  - destruct (existsb (Kind.eqb (kind err)) seen); [apply IH|].
    constructor; [|apply IH].
    rewrite firstOccurrences_In. intros [_ Hnot]. apply Hnot. left; reflexivity.
Qed.

Lemma hasErrors_true {E : Type} (v : LiteralValue E) :
  hasErrors v = true <-> errors v <> [].
Proof.
  unfold hasErrors. destruct (errors v); split; intros; congruence.
Qed.

Section StringLiteral.

Context `{StringsLayer}.
Variable source : String.

Lemma escapeStep_spans_length viewMarkers e d :
  List.length (spans (escapeStep source viewMarkers e d)) = List.length (spans e).
Proof.
  destruct d as [input cp|input]; simpl.
  - destruct (isCombiningMark cp || isControl cp || isNonCharacter cp || isSurrogate cp).
    + rewrite addEscaped_spans. simpl. apply updateMarkersLoop_length.
    + destruct (cp_v cp =? 92)%Z; simpl; apply updateMarkersLoop_length.
  - rewrite addEscaped_spans. simpl. apply updateMarkersLoop_length.
Qed.

Lemma escapeSteps_spans_length viewMarkers items : forall e,
  List.length (spans (fold_left (escapeStep source viewMarkers) items e))
  = List.length (spans e).
Proof.
  induction items as [|d items IH]; intros e; simpl.
  - reflexivity.
  - rewrite IH. apply escapeStep_spans_length.
Qed.

(** [escapeSourceLine] returns one span per marker. *)
Lemma escapeSourceLine_markers_length view viewMarkers :
  List.length (markers (escapeSourceLine source view viewMarkers))
  = List.length viewMarkers.
Proof.
  assert (Hscan : List.length (spans (escapeScan source view viewMarkers))
                  = List.length viewMarkers).
  { unfold escapeScan, updateMarkers; simpl.
    rewrite updateMarkersLoop_length, escapeSteps_spans_length; simpl.
    apply repeat_length. }
  unfold escapeSourceLine.
  destruct (negb (requiresEscapes (escapeScan source view viewMarkers))); simpl.
  - rewrite unescapedMarkers_length. exact Hscan.
  - exact Hscan.
Qed.

Lemma reportDecodeErrorMarkers_shape line tokenLines viewMarkers :
  exists d, reportDecodeErrorMarkers source line tokenLines viewMarkers = [d]
            /\ diagnostic.number (diagnostic.code d) = 1%Z
            /\ List.length (diagnostic.spansOf d) = List.length viewMarkers.
Proof.
  unfold reportDecodeErrorMarkers. eexists. split; [reflexivity|]. split; [reflexivity|].
  rewrite spansOf_lexerDiagnostic. apply escapeSourceLine_markers_length.
Qed.

Lemma stringKindDiagnostic_shape k line tokenLines viewMarkers :
  exists d, stringKindDiagnostic source k line tokenLines viewMarkers = [d]
            /\ diagnostic.number (diagnostic.code d) = kindCode k
            /\ List.length (diagnostic.spansOf d) = List.length viewMarkers.
Proof.
  destruct k; simpl;
    try (eexists; split; [reflexivity|]; split; [reflexivity|];
         rewrite spansOf_lexerDiagnostic; apply escapeSourceLine_markers_length).
Qed.

Lemma reportStringErrors_firstOccurrences line tokenLines all rest : forall bits seen,
  (forall k, bitset_test bits (Kind.index k) = existsb (Kind.eqb k) seen) ->
  reportStringErrors source line tokenLines all rest bits
  = flat_map (fun k => stringKindDiagnostic source k line tokenLines
                         (map se_input (errorsOfKind k all)))
             (firstOccurrences seen rest).
Proof.
  induction rest as [|err rest IH]; intros bits seen Hbits; simpl.
  - reflexivity.
  - rewrite Hbits.
    destruct (existsb (Kind.eqb (kind err)) seen) eqn:Hseen.
    + apply IH. assumption.
    + simpl. f_equal. apply IH.
      intros k. rewrite bitset_set_test, Hbits. reflexivity.
Qed.

Lemma kinds_codeNumbers line tokenLines all kinds :
  codeNumbers (flat_map (fun k => stringKindDiagnostic source k line tokenLines
                                    (map se_input (errorsOfKind k all))) kinds)
  = map kindCode kinds
  /\ map (fun d => List.length (diagnostic.spansOf d))
         (flat_map (fun k => stringKindDiagnostic source k line tokenLines
                               (map se_input (errorsOfKind k all))) kinds)
     = map (fun k => List.length (errorsOfKind k all)) kinds.
Proof.
  induction kinds as [|k kinds [IHc IHs]]; simpl.
  - split; reflexivity.
  - destruct (stringKindDiagnostic_shape k line tokenLines
                (map se_input (errorsOfKind k all))) as [d [Hd [Hcode Hspans]]].
    rewrite Hd; simpl. unfold codeNumbers in *; simpl.
    rewrite IHc, IHs, Hcode, Hspans, length_map. split; reflexivity.
Qed.

(** The number and the order of the diagnostics of a string literal.  For
    an untainted string literal with errors, [reportStringLiteral] emits
    one diagnostic for every kind among the errors, in the order in which
    the kinds first occur; the diagnostic of a kind is built from the
    inputs of all errors of that kind, bears the code of the kind and
    carries as many highlights as there are such errors; where the
    highlights point is left open here. *)
Lemma reportStringLiteral_one_diagnostic_per_kind
  (blockLine : BlockLine) (sl : TokenOf (LiteralValue StringError))
  (Huntainted : isTainted sl = false) (Herrors : errors (value sl) <> []) :
  let errs := errors (value sl) in
  let kinds := firstOccurrences [] errs in
  let reported := snd (reportStringLiteral source blockLine sl) in
  NoDup kinds
  /\ (forall k, In k kinds <-> exists e, In e errs /\ kind e = k)
  /\ reported
     = flat_map (fun k => stringKindDiagnostic source k (line (position sl))
                            (extractViewLines source blockLine (input sl))
                            (map se_input (errorsOfKind k errs))) kinds
  /\ codeNumbers reported = map kindCode kinds
  /\ map (fun d => List.length (diagnostic.spansOf d)) reported
     = map (fun k => List.length (errorsOfKind k errs)) kinds.
Proof.
  intros errs kinds reported.
  assert (Hreported :
            reported
            = flat_map (fun k => stringKindDiagnostic source k (line (position sl))
                                   (extractViewLines source blockLine (input sl))
                                   (map se_input (errorsOfKind k errs))) kinds).
  { subst reported. unfold reportStringLiteral.
    rewrite Huntainted, (proj2 (hasErrors_true (value sl)) Herrors). simpl snd.
    apply reportStringErrors_firstOccurrences.
    intros k. apply Z.testbit_0_l. }
  split; [apply firstOccurrences_NoDup|].
  split.
  { intros k. subst kinds. rewrite firstOccurrences_In. split.
    - intros [Hex _]. exact Hex.
    - intros Hex. split; [exact Hex|intros []]. }
  split; [exact Hreported|].
  rewrite Hreported. apply kinds_codeNumbers.
Qed.

End StringLiteral.

Lemma reportStringLiteral_one_diagnostic_per_kind_witness :
  let errs := errors (value stringS4) in
  let kinds := firstOccurrences [] errs in
  let reported := snd (reportStringLiteral sourceS4 lineS4 stringS4) in
  NoDup kinds
  /\ (forall k, In k kinds <-> exists e, In e errs /\ kind e = k)
  /\ reported
     = flat_map (fun k => stringKindDiagnostic sourceS4 k (line (position stringS4))
                            (extractViewLines sourceS4 lineS4 (input stringS4))
                            (map se_input (errorsOfKind k errs))) kinds
  /\ codeNumbers reported = map kindCode kinds
  /\ map (fun d => List.length (diagnostic.spansOf d)) reported
     = map (fun k => List.length (errorsOfKind k errs)) kinds.
Proof.
  apply (reportStringLiteral_one_diagnostic_per_kind sourceS4 lineS4 stringS4).
  - reflexivity.
  - simpl. discriminate.
Defined.

(** The unterminated string with two unknown escapes: code 11 with the
    two escapes, then code 10 with the end of input. *)
Example S4_codes_and_markers :
  firstOccurrences [] (errors (value stringS4)) = [Kind.InvalidEscape; Kind.EndOfInput]
  /\ codeNumbers (snd (reportLineErrors sourceS4 lineS4)) = [11%Z; 10%Z]
  /\ map se_input (errorsOfKind Kind.InvalidEscape (errors (value stringS4)))
     = [mkView 5 7; mkView 9 11]
  /\ map se_input (errorsOfKind Kind.EndOfInput (errors (value stringS4)))
     = [mkView 14 15].
Proof. repeat split; vm_compute; reflexivity. Qed.

(** ** Tainting *)

Lemma taint_tainted {V : Type} (t : TokenOf V) : isTainted t = true -> taint t = t.
Proof. destruct t; simpl; intros ->; reflexivity. Qed.

Lemma taintInsignificant_tainted x : insignificantTainted (taintInsignificant x) = true.
Proof. destruct x; reflexivity. Qed.

Lemma taintInsignificant_of_tainted x :
  insignificantTainted x = true -> taintInsignificant x = x.
Proof. destruct x; simpl; intros Ht; rewrite taint_tainted by assumption; reflexivity. Qed.

Lemma taintInsignificant_twice x :
  taintInsignificant (taintInsignificant x) = taintInsignificant x.
Proof. apply taintInsignificant_of_tainted, taintInsignificant_tainted. Qed.

Lemma taintInsignificant_input x :
  insignificantInput (taintInsignificant x) = insignificantInput x.
Proof. destruct x; reflexivity. Qed.


Lemma taintedSince_refl x : taintedSince x x.
Proof. left; reflexivity. Qed.

Lemma taintedSince_taint x : taintedSince x (taintInsignificant x).
Proof. right; reflexivity. Qed.

Lemma taintedSince_trans x y z :
  taintedSince x y -> taintedSince y z -> taintedSince x z.
Proof.
  intros [->| ->] [->| ->]; unfold taintedSince; auto.
  rewrite taintInsignificant_twice; auto.
Qed.

Lemma taintedSince_input x y :
  taintedSince x y -> insignificantInput y = insignificantInput x.
Proof. intros [->| ->]; [reflexivity|apply taintInsignificant_input]. Qed.


(** A flag that is set stays set. *)
Lemma taintedSince_tainted x y :
  taintedSince x y -> insignificantTainted x = true -> y = x.
Proof.
  intros [->| ->] Ht; [reflexivity|apply taintInsignificant_of_tainted; assumption].
Qed.

Create HintDb taint.
#[local] Hint Resolve taintedSince_refl taintedSince_taint : taint.

Lemma Forall2_taintedSince_refl ins : Forall2 taintedSince ins ins.
Proof. induction ins; constructor; auto with taint. Qed.

Lemma Forall2_taintedSince_trans a : forall b c,
  Forall2 taintedSince a b -> Forall2 taintedSince b c -> Forall2 taintedSince a c.
Proof.
  induction a as [|x a IH]; intros b c Hab Hbc; inversion Hab; subst;
    inversion Hbc; subst; constructor.
  - eapply taintedSince_trans; eassumption.
  - eapply IH; eassumption.
Qed.

Lemma Forall2_taintedSince_nth_error a b :
  Forall2 taintedSince a b ->
  forall j x, nth_error a j = Some x ->
              exists y, nth_error b j = Some y /\ taintedSince x y.
Proof.
  induction 1 as [|x y a b Hxy _ IH]; intros [|j] z Hz; simpl in *; try discriminate.
  - inversion Hz; subst. exists y; auto.
  - apply IH; assumption.
Qed.

Lemma laterLine_refl bl : laterLine bl bl.
Proof. split; [reflexivity|apply Forall2_taintedSince_refl]. Qed.

Lemma laterLine_trans a b c : laterLine a b -> laterLine b c -> laterLine a c.
Proof.
  intros [Hta Hia] [Htb Hib]. split; [congruence|].
  eapply Forall2_taintedSince_trans; eassumption.
Qed.

(** *** The line extent does not depend on the flags *)

Lemma Forall2_taintedSince_last a b :
  Forall2 taintedSince a b ->
  forall d d', taintedSince d d' -> taintedSince (last a d) (last b d').
Proof.
  induction 1 as [|x y a b Hxy Hab IH]; intros d d' Hd; simpl.
  - assumption.
  - destruct Hab as [|x' y' a' b' Hxy' Hab'].
    + assumption.
    + apply (IH d d' Hd).
Qed.

Lemma extractBlockLines_later bl bl' :
  laterLine bl bl' -> extractBlockLines bl' = extractBlockLines bl.
Proof.
  intros [Htok Hins]. unfold extractBlockLines. rewrite Htok.
  destruct Hins as [|x y a b Hxy Hab].
  - reflexivity.
  - pose proof (Forall2_taintedSince_last (Forall2_cons _ _ Hxy Hab) Hxy) as Hlast.
    rewrite (taintedSince_input Hxy), (taintedSince_input Hlast). reflexivity.
Qed.

Lemma extractViewLines_later source bl bl' view :
  laterLine bl bl' -> extractViewLines source bl' view = extractViewLines source bl view.
Proof.
  intros Hlater. unfold extractViewLines.
  rewrite (extractBlockLines_later Hlater). reflexivity.
Qed.

(** *** The loops over the insignificants *)

Section Loops.

Variable body : nat -> Insignificant -> ViewMarkers -> ViewMarkers * Insignificant.

Lemma insignificantsLoop_cons idx t ins viewMarkers :
  snd (insignificantsLoop body idx (t :: ins) viewMarkers)
  = snd (body idx t viewMarkers)
    :: snd (insignificantsLoop body (S idx) ins (fst (body idx t viewMarkers))).
Proof.
  simpl. destruct (body idx t viewMarkers) as [vm1 t']. simpl.
  destruct (insignificantsLoop body (S idx) ins vm1) as [vm2 ins'']. reflexivity.
Qed.

Lemma insignificantsLoop_later :
  (forall idx t vm, taintedSince t (snd (body idx t vm))) ->
  forall ins idx vm, Forall2 taintedSince ins (snd (insignificantsLoop body idx ins vm)).
Proof.
  intros Hbody. induction ins as [|t ins IH]; intros idx vm.
  - constructor.
  - rewrite insignificantsLoop_cons. constructor; [apply Hbody|apply IH].
Qed.

Lemma insignificantsLoop_nth_error ins : forall idx vm j t,
  nth_error ins j = Some t ->
  exists vm', nth_error (snd (insignificantsLoop body idx ins vm)) j
              = Some (snd (body (idx + j) t vm')).
Proof.
  induction ins as [|t0 ins IH]; intros idx vm [|j] t Ht; simpl in Ht; try discriminate;
    rewrite insignificantsLoop_cons; simpl.
  - inversion Ht; subst. exists vm. rewrite Nat.add_0_r. reflexivity.
  - destruct (IH (S idx) (fst (body idx t0 vm)) j t Ht) as [vm' Hvm'].
    exists vm'. rewrite Hvm'. rewrite Nat.add_succ_r. reflexivity.
Qed.

Lemma insignificantsLoop_nth_error_none ins : forall idx vm j,
  nth_error ins j = None ->
  nth_error (snd (insignificantsLoop body idx ins vm)) j = None.
Proof.
  induction ins as [|t0 ins IH]; intros idx vm [|j] Ht; simpl in Ht; try discriminate;
    try reflexivity; rewrite insignificantsLoop_cons; simpl.
  apply IH; assumption.
Qed.

(** A body that leaves the element at index [self] as it is makes a loop
    that leaves it as it is. *)
Lemma insignificantsLoop_self self :
  (forall t vm, snd (body self t vm) = t) ->
  forall ins vm,
    nth_error (snd (insignificantsLoop body 0 ins vm)) self = nth_error ins self.
Proof.
  intros Hbody ins vm.
  destruct (nth_error ins self) as [t|] eqn:Ht.
  - destruct (insignificantsLoop_nth_error ins 0 vm self Ht) as [vm' Hvm'].
    rewrite Hvm'. simpl. rewrite Hbody. reflexivity.
  - apply insignificantsLoop_nth_error_none; assumption.
Qed.

End Loops.

(** *** The three loop bodies *)

Ltac destruct_ifs :=
  repeat match goal with
         | |- context [if ?c then _ else _] => destruct c eqn:?
         end.

Lemma collectDecodeErrorMarker_later tokenLines tok idx t vm :
  taintedSince t (snd (collectDecodeErrorMarker tokenLines tok idx t vm)).
Proof.
  destruct t; simpl; destruct_ifs; simpl; auto with taint.
Qed.

Lemma collectMixedIndentMarker_later tokenLines tok idx t vm :
  taintedSince t (snd (collectMixedIndentMarker tokenLines tok idx t vm)).
Proof.
  destruct t; simpl; destruct_ifs; simpl; auto with taint.
Qed.

Lemma collectUnexpectedCharacter_later tokenLines tok idx t vm :
  taintedSince t (snd (collectUnexpectedCharacter tokenLines tok idx t vm)).
Proof.
  destruct t; simpl; destruct_ifs; simpl; auto with taint.
Qed.

Lemma sameElement_refl e : sameElement e e = true.
Proof. destruct e; simpl; apply Nat.eqb_refl. Qed.

(** No loop body sets the flag of the element that is reported on. *)
Lemma collectDecodeErrorMarker_self tokenLines idx t vm :
  snd (collectDecodeErrorMarker tokenLines (InsignificantAt idx) idx t vm) = t.
Proof.
  destruct t; simpl; rewrite ?Nat.eqb_refl; simpl; destruct_ifs; reflexivity.
Qed.

Lemma collectMixedIndentMarker_self tokenLines idx t vm :
  snd (collectMixedIndentMarker tokenLines (InsignificantAt idx) idx t vm) = t.
Proof.
  destruct t; simpl; rewrite ?Nat.eqb_refl; simpl; destruct_ifs; reflexivity.
Qed.

Lemma collectUnexpectedCharacter_self tokenLines idx t vm :
  snd (collectUnexpectedCharacter tokenLines (InsignificantAt idx) idx t vm) = t.
Proof.
  destruct t; simpl; rewrite ?Nat.eqb_refl; simpl; destruct_ifs; reflexivity.
Qed.


(** *** The reporters *)

Section TaintReporters.

Context `{StringsLayer}.
Variable source : String.

Lemma collectDecodeErrorMarkers_eq viewMarkers bl tokenLines tok :
  collectDecodeErrorMarkers viewMarkers bl tokenLines tok
  = (fst (insignificantsLoop (collectDecodeErrorMarker tokenLines tok) 0
                             (insignificants bl) viewMarkers),
     mkBlockLine (tokens bl)
       (snd (insignificantsLoop (collectDecodeErrorMarker tokenLines tok) 0
                                (insignificants bl) viewMarkers))).
Proof.
  unfold collectDecodeErrorMarkers.
  destruct (insignificantsLoop _ 0 (insignificants bl) viewMarkers); reflexivity.
Qed.

Lemma reportDecodeErrors_eq {V : Type} bl tok (t : TokenOf V) :
  reportDecodeErrors source bl tok t
  = (mkBlockLine (tokens bl)
       (snd (insignificantsLoop
               (collectDecodeErrorMarker (extractViewLines source bl (input t)) tok) 0
               (insignificants bl) [])),
     reportDecodeErrorMarkers source (line (position t))
       (extractViewLines source bl (input t))
       (fst (insignificantsLoop
               (collectDecodeErrorMarker (extractViewLines source bl (input t)) tok) 0
               (insignificants bl) []))).
Proof.
  unfold reportDecodeErrors. rewrite collectDecodeErrorMarkers_eq. reflexivity.
Qed.

Lemma reportNewlineDecodeErrors_eq bl tok nli tokenLines :
  reportNewlineDecodeErrors source bl tok nli tokenLines = (bl, [])
  /\ decodedErrorInputs (errors (value nli)) = []
  \/ exists viewMarkers,
      decodedErrorInputs (errors (value nli)) <> []
      /\ reportNewlineDecodeErrors source bl tok nli tokenLines
         = (mkBlockLine (tokens bl)
              (snd (insignificantsLoop (collectDecodeErrorMarker tokenLines tok) 0
                                       (insignificants bl) viewMarkers)),
            reportDecodeErrorMarkers source (line (position nli) - 1) tokenLines
              (fst (insignificantsLoop (collectDecodeErrorMarker tokenLines tok) 0
                                       (insignificants bl) viewMarkers))).
Proof.
  unfold reportNewlineDecodeErrors.
  destruct (decodedErrorInputs (errors (value nli))) as [|m ms] eqn:Hm.
  - left. split; reflexivity.
  - right. eexists. split; [discriminate|].
    rewrite collectDecodeErrorMarkers_eq. reflexivity.
Qed.

Lemma reportNewlineMixedIndent_eq bl tok nli tokenLines :
  reportNewlineMixedIndent source bl tok nli tokenLines = (bl, [])
  /\ mixedIndentInputs (errors (value nli)) = []
  \/ exists d,
      mixedIndentInputs (errors (value nli)) <> []
      /\ reportNewlineMixedIndent source bl tok nli tokenLines
         = (mkBlockLine (tokens bl)
              (snd (insignificantsLoop (collectMixedIndentMarker tokenLines tok) 0
                                       (insignificants bl)
                                       (mixedIndentInputs (errors (value nli))))),
            [d]).
Proof.
  unfold reportNewlineMixedIndent.
  destruct (mixedIndentInputs (errors (value nli))) as [|m ms] eqn:Hm.
  - left. split; reflexivity.
  - right.
    destruct (insignificantsLoop (collectMixedIndentMarker tokenLines tok) 0
                                 (insignificants bl) (m :: ms)) as [vm ins'] eqn:Hloop.
    eexists. split; [discriminate|]. reflexivity.
Qed.

Lemma reportUnexpectedCharacter_eq bl tok (uc : TagToken) :
  isTainted uc = false ->
  exists d,
    reportUnexpectedCharacter source bl tok uc
    = (mkBlockLine (tokens bl)
         (snd (insignificantsLoop
                 (collectUnexpectedCharacter (extractViewLines source bl (input uc)) tok) 0
                 (insignificants bl) [])),
       [d]).
Proof.
  intros Ht. unfold reportUnexpectedCharacter. rewrite Ht.
  destruct (insignificantsLoop _ 0 (insignificants bl) []) as [vm ins'] eqn:Hloop.
  eexists. reflexivity.
Qed.

Lemma newline_errors_inputs (errs : list NewLineError) :
  decodedErrorInputs errs = [] -> mixedIndentInputs errs = [] -> errs = [].
Proof.
  destruct errs as [|[dep|mic] errs]; simpl; intros; congruence.
Qed.


(** Every loop leaves the tokens and only sets flags. *)
Lemma loop_line_later (body : nat -> Insignificant -> ViewMarkers -> ViewMarkers * Insignificant)
  bl vm :
  (forall idx t vm, taintedSince t (snd (body idx t vm))) ->
  laterLine bl (mkBlockLine (tokens bl)
                  (snd (insignificantsLoop body 0 (insignificants bl) vm))).
Proof.
  intros Hbody. split; [reflexivity|]. simpl. apply insignificantsLoop_later; assumption.
Qed.

Lemma reportNewlineDecodeErrors_later bl ii nli tokenLines :
  laterLine bl (fst (reportNewlineDecodeErrors source bl (InsignificantAt ii) nli tokenLines))
  /\ nth_error (insignificants
                  (fst (reportNewlineDecodeErrors source bl (InsignificantAt ii) nli tokenLines)))
               ii
     = nth_error (insignificants bl) ii.
Proof.
  destruct (reportNewlineDecodeErrors_eq bl (InsignificantAt ii) nli tokenLines)
    as [[-> _]|[vm [_ ->]]]; simpl.
  - split; [apply laterLine_refl|reflexivity].
  - split.
    + apply loop_line_later. intros; apply collectDecodeErrorMarker_later.
    + apply insignificantsLoop_self. intros; apply collectDecodeErrorMarker_self.
Qed.

Lemma reportNewlineMixedIndent_later bl ii nli tokenLines :
  laterLine bl (fst (reportNewlineMixedIndent source bl (InsignificantAt ii) nli tokenLines))
  /\ nth_error (insignificants
                  (fst (reportNewlineMixedIndent source bl (InsignificantAt ii) nli tokenLines)))
               ii
     = nth_error (insignificants bl) ii.
Proof.
  destruct (reportNewlineMixedIndent_eq bl (InsignificantAt ii) nli tokenLines)
    as [[-> _]|[d [_ ->]]]; simpl.
  - split; [apply laterLine_refl|reflexivity].
  - split.
    + apply loop_line_later. intros; apply collectMixedIndentMarker_later.
    + apply insignificantsLoop_self. intros; apply collectMixedIndentMarker_self.
Qed.

Lemma reportNewline_later bl ii nli :
  laterLine bl (fst (reportNewline source bl (InsignificantAt ii) nli))
  /\ nth_error (insignificants (fst (reportNewline source bl (InsignificantAt ii) nli))) ii
     = nth_error (insignificants bl) ii.
Proof.
  unfold reportNewline.
  destruct (isTainted nli || negb (hasErrors (value nli))).
  - split; [apply laterLine_refl|reflexivity].
  - pose proof (reportNewlineDecodeErrors_later bl ii nli
                  (extractViewLines source bl (input nli))) as [Hl1 Hs1].
    destruct (reportNewlineDecodeErrors source bl (InsignificantAt ii) nli
                (extractViewLines source bl (input nli))) as [bl1 r1].
    simpl in Hl1, Hs1.
    pose proof (reportNewlineMixedIndent_later bl1 ii nli
                  (extractViewLines source bl (input nli))) as [Hl2 Hs2].
    destruct (reportNewlineMixedIndent source bl1 (InsignificantAt ii) nli
                (extractViewLines source bl (input nli))) as [bl2 r2].
    simpl in *. split; [eapply laterLine_trans; eassumption|congruence].
Qed.

(** A reporter of an insignificant leaves the tokens, only sets flags, and
    does not set the flag of the element it reports on. *)
Lemma reportInsignificant_later bl ii i :
  laterLine bl (fst (reportInsignificant source bl ii i))
  /\ nth_error (insignificants (fst (reportInsignificant source bl ii i))) ii
     = nth_error (insignificants bl) ii.
Proof.
  destruct i; simpl; try (split; [apply laterLine_refl|reflexivity]).
  - (* comment *)
    unfold reportTokenWithDecodeErrors.
    destruct (isTainted t || match decodeErrors t with [] => true | _ => false end).
    + split; [apply laterLine_refl|reflexivity].
    + rewrite reportDecodeErrors_eq. simpl. split.
      * apply loop_line_later. intros; apply collectDecodeErrorMarker_later.
      * apply insignificantsLoop_self. intros; apply collectDecodeErrorMarker_self.
  - (* invalid encoding *)
    unfold reportInvalidEncoding. destruct (isTainted t).
    + split; [apply laterLine_refl|reflexivity].
    + rewrite reportDecodeErrors_eq. simpl. split.
      * apply loop_line_later. intros; apply collectDecodeErrorMarker_later.
      * apply insignificantsLoop_self. intros; apply collectDecodeErrorMarker_self.
  - (* unexpected character *)
    destruct (isTainted t) eqn:Ht.
    + unfold reportUnexpectedCharacter. rewrite Ht.
      split; [apply laterLine_refl|reflexivity].
    + destruct (reportUnexpectedCharacter_eq bl (InsignificantAt ii) t Ht) as [d ->].
      simpl. split.
      * apply loop_line_later. intros; apply collectUnexpectedCharacter_later.
      * apply insignificantsLoop_self. intros; apply collectUnexpectedCharacter_self.
  - (* newline *)
    apply reportNewline_later.
Qed.

Lemma reportToken_later bl ti t : laterLine bl (fst (reportToken source bl ti t)).
Proof.
  destruct t; simpl; try apply laterLine_refl.
  - unfold reportStringLiteral.
    destruct (isTainted t || negb (hasErrors (value t))); apply laterLine_refl.
  - unfold reportNumberLiteral.
    destruct (isTainted t || negb (hasErrors (value t))); apply laterLine_refl.
  - unfold reportTokenWithDecodeErrors.
    destruct (isTainted t || match decodeErrors t with [] => true | _ => false end).
    + apply laterLine_refl.
    + rewrite reportDecodeErrors_eq. simpl.
      apply loop_line_later. intros; apply collectDecodeErrorMarker_later.
  - unfold reportOperatorLiteral.
    destruct (isTainted t || negb (hasErrors (value t))); apply laterLine_refl.
Qed.

Lemma reportVisit_later bl x : laterLine bl (fst (reportVisit source bl x)).
Proof.
  destruct x as [ti t|ii i]; simpl.
  - apply reportToken_later.
  - destruct (nth_error (insignificants bl) ii) as [live|].
    + apply reportInsignificant_later.
    + apply laterLine_refl.
Qed.

Lemma reportVisits_later visits : forall bl,
  laterLine bl (fst (reportVisits source bl visits)).
Proof.
  induction visits as [|x visits IH]; intros bl; simpl.
  - apply laterLine_refl.
  - pose proof (reportVisit_later bl x) as H1.
    destruct (reportVisit source bl x) as [bl1 r1]. simpl in H1.
    pose proof (IH bl1) as H2.
    destruct (reportVisits source bl1 visits) as [bl2 r2]. simpl in *.
    eapply laterLine_trans; eassumption.
Qed.

(** *** Which reporters emit *)

Lemma reportStringErrors_nonempty line tokenLines all errs :
  errs <> [] -> reportStringErrors source line tokenLines all errs 0 <> [].
Proof.
  destruct errs as [|err errs]; [congruence|]. intros _. simpl.
  unfold bitset_test. rewrite Z.testbit_0_l.
  destruct (stringKindDiagnostic_shape source (kind err) line tokenLines
              (stringKindMarkers (kind err) all)) as [d [-> _]].
  discriminate.
Qed.

Lemma reportNumberErrors_nonempty line tokenLines all errs :
  errs <> [] -> reportNumberErrors source line tokenLines all errs 0 <> [].
Proof.
  destruct errs as [|err errs]; [congruence|]. intros _. simpl.
  unfold bitset_test. rewrite Z.testbit_0_l.
  destruct err; simpl; discriminate.
Qed.

Lemma reportOperatorErrors_nonempty line tokenLines all errs :
  errs <> [] -> reportOperatorErrors source line tokenLines all errs 0 <> [].
Proof.
  destruct errs as [|err errs]; [congruence|]. intros _. simpl.
  unfold bitset_test. rewrite Z.testbit_0_l.
  destruct err; simpl; discriminate.
Qed.

Lemma guard_of_reportable (tainted has : bool) :
  negb tainted && has = negb (tainted || negb has).
Proof. destruct tainted, has; reflexivity. Qed.

Lemma decodeErrors_guard (tainted : bool) (errs : list DecodedErrorPosition) :
  negb tainted && match errs with [] => false | _ => true end
  = negb (tainted || match errs with [] => true | _ => false end).
Proof. destruct tainted, errs; reflexivity. Qed.

Lemma reportToken_silent bl ti t :
  tokenReportable t = false -> reportToken source bl ti t = (bl, []).
Proof.
  destruct t; simpl; try reflexivity; intros Hr.
  - unfold reportStringLiteral. rewrite guard_of_reportable in Hr.
    apply negb_false_iff in Hr. rewrite Hr. reflexivity.
  - unfold reportNumberLiteral. rewrite guard_of_reportable in Hr.
    apply negb_false_iff in Hr. rewrite Hr. reflexivity.
  - unfold reportTokenWithDecodeErrors. rewrite decodeErrors_guard in Hr.
    apply negb_false_iff in Hr. rewrite Hr. reflexivity.
  - unfold reportOperatorLiteral. rewrite guard_of_reportable in Hr.
    apply negb_false_iff in Hr. rewrite Hr. reflexivity.
Qed.

Lemma reportToken_emits bl ti t :
  tokenReportable t = true -> snd (reportToken source bl ti t) <> [].
Proof.
  destruct t; simpl; try discriminate; intros Hr.
  - unfold reportStringLiteral. rewrite guard_of_reportable in Hr.
    apply negb_true_iff in Hr. rewrite Hr. simpl.
    apply reportStringErrors_nonempty. apply hasErrors_true.
    apply orb_false_iff in Hr. destruct Hr as [_ Hr]. apply negb_false_iff in Hr. exact Hr.
  - unfold reportNumberLiteral. rewrite guard_of_reportable in Hr.
    apply negb_true_iff in Hr. rewrite Hr. simpl.
    apply reportNumberErrors_nonempty. apply hasErrors_true.
    apply orb_false_iff in Hr. destruct Hr as [_ Hr]. apply negb_false_iff in Hr. exact Hr.
  - unfold reportTokenWithDecodeErrors. rewrite decodeErrors_guard in Hr.
    apply negb_true_iff in Hr. rewrite Hr.
    rewrite reportDecodeErrors_eq. simpl. discriminate.
  - unfold reportOperatorLiteral. rewrite guard_of_reportable in Hr.
    apply negb_true_iff in Hr. rewrite Hr. simpl.
    apply reportOperatorErrors_nonempty. apply hasErrors_true.
    apply orb_false_iff in Hr. destruct Hr as [_ Hr]. apply negb_false_iff in Hr. exact Hr.
Qed.

Lemma reportInsignificant_silent bl ii i :
  insignificantReportable i = false -> reportInsignificant source bl ii i = (bl, []).
Proof.
  destruct i; simpl; try reflexivity; intros Hr.
  - unfold reportTokenWithDecodeErrors. rewrite decodeErrors_guard in Hr.
    apply negb_false_iff in Hr. rewrite Hr. reflexivity.
  - unfold reportInvalidEncoding. apply negb_false_iff in Hr. rewrite Hr. reflexivity.
  - unfold reportUnexpectedCharacter. apply negb_false_iff in Hr. rewrite Hr. reflexivity.
  - unfold reportNewline. rewrite guard_of_reportable in Hr.
    apply negb_false_iff in Hr. rewrite Hr. reflexivity.
Qed.

Lemma reportNewline_emits bl tok nli :
  isTainted nli || negb (hasErrors (value nli)) = false ->
  snd (reportNewline source bl tok nli) <> [].
Proof.
  intros Hguard. unfold reportNewline. rewrite Hguard.
  apply orb_false_iff in Hguard. destruct Hguard as [_ Herrs].
  apply negb_false_iff, hasErrors_true in Herrs.
  destruct (reportNewlineDecodeErrors_eq bl tok nli (extractViewLines source bl (input nli)))
    as [[-> Hnone]|[vm [_ ->]]].
  - destruct (reportNewlineMixedIndent_eq bl tok nli (extractViewLines source bl (input nli)))
      as [[-> Hnone']|[d [_ ->]]].
    + exfalso. apply Herrs. apply newline_errors_inputs; assumption.
    + simpl. discriminate.
  - match goal with
    | |- context [reportNewlineMixedIndent source ?b tok nli ?tl] =>
        destruct (reportNewlineMixedIndent source b tok nli tl) as [bl2 r2]
    end.
    simpl. discriminate.
Qed.

Lemma reportInsignificant_emits bl ii i :
  insignificantReportable i = true -> snd (reportInsignificant source bl ii i) <> [].
Proof.
  destruct i; simpl; try discriminate; intros Hr.
  - unfold reportTokenWithDecodeErrors. rewrite decodeErrors_guard in Hr.
    apply negb_true_iff in Hr. rewrite Hr.
    rewrite reportDecodeErrors_eq. simpl. discriminate.
  - unfold reportInvalidEncoding. apply negb_true_iff in Hr. rewrite Hr.
    rewrite reportDecodeErrors_eq. simpl. discriminate.
  - apply negb_true_iff in Hr.
    destruct (reportUnexpectedCharacter_eq bl (InsignificantAt ii) t Hr) as [d ->].
    simpl. discriminate.
  - apply reportNewline_emits. rewrite guard_of_reportable in Hr.
    apply negb_true_iff in Hr. exact Hr.
Qed.

Lemma reportVisit_silent bl x :
  visitReportable bl x = false -> reportVisit source bl x = (bl, []).
Proof.
  destruct x as [ti t|ii i]; simpl.
  - apply reportToken_silent.
  - destruct (nth_error (insignificants bl) ii) as [live|]; [|reflexivity].
    apply reportInsignificant_silent.
Qed.

Lemma reportVisit_emits bl x :
  visitReportable bl x = true -> snd (reportVisit source bl x) <> [].
Proof.
  destruct x as [ti t|ii i]; simpl.
  - apply reportToken_emits.
  - destruct (nth_error (insignificants bl) ii) as [live|]; [|discriminate].
    apply reportInsignificant_emits.
Qed.

(** The reporter of a visit leaves the element of the visit
    reportable. *)
Lemma reportVisit_self bl x :
  visitReportable (fst (reportVisit source bl x)) x = visitReportable bl x.
Proof.
  destruct x as [ti t|ii i]; simpl.
  - reflexivity.
  - destruct (nth_error (insignificants bl) ii) as [live|] eqn:Hlive.
    + destruct (reportInsignificant_later bl ii live) as [_ Hself].
      rewrite Hself, Hlive. reflexivity.
    + simpl. rewrite Hlive. reflexivity.
Qed.

(** Calls that emit nothing leave the line as it is. *)
Lemma reportVisits_silent visits : forall bl,
  snd (reportVisits source bl visits) = [] -> fst (reportVisits source bl visits) = bl.
Proof.
  induction visits as [|x visits IH]; intros bl; simpl.
  - reflexivity.
  - destruct (visitReportable bl x) eqn:Hx.
    + pose proof (reportVisit_emits bl x Hx) as Hemit.
      destruct (reportVisit source bl x) as [bl1 r1].
      destruct (reportVisits source bl1 visits) as [bl2 r2]. simpl in *.
      intros Happ. apply app_eq_nil in Happ. destruct Happ; contradiction.
    + rewrite (reportVisit_silent bl x Hx).
      specialize (IH bl).
      destruct (reportVisits source bl visits) as [bl2 r2]. simpl in *. exact IH.
Qed.

(** When the calls emit, one visited element is still reportable on the
    line they leave: the one whose reporter emitted last. *)
Lemma reportVisits_last_reported visits : forall bl,
  snd (reportVisits source bl visits) <> [] ->
  exists x, In x visits
            /\ visitReportable (fst (reportVisits source bl visits)) x = true.
Proof.
  induction visits as [|x visits IH]; intros bl; simpl.
  - congruence.
  - pose proof (reportVisit_self bl x) as Hself.
    pose proof (reportVisit_silent bl x) as Hsilent.
    destruct (reportVisit source bl x) as [bl1 r1]. simpl in Hself.
    pose proof (IH bl1) as IH1.
    pose proof (reportVisits_silent visits bl1) as Hrest.
    destruct (reportVisits source bl1 visits) as [bl2 r2]. simpl in *.
    intros Hemit. destruct r2 as [|d r2].
    + rewrite (Hrest eq_refl). exists x. split; [left; reflexivity|].
      rewrite Hself. destruct (visitReportable bl x); [reflexivity|].
      specialize (Hsilent eq_refl). inversion Hsilent; subst.
      rewrite app_nil_r in Hemit. congruence.
    + destruct IH1 as [y [Hin Hy]]; [discriminate|].
      exists y. split; [right; assumption|assumption].
Qed.

(** A reportable element among the visits makes the calls emit. *)
Lemma reportVisits_reports visits : forall bl x,
  In x visits -> visitReportable bl x = true ->
  snd (reportVisits source bl visits) <> [].
Proof.
  induction visits as [|x0 visits IH]; intros bl x Hin Hx; simpl.
  - destruct Hin.
  - destruct (visitReportable bl x0) eqn:Hx0.
    + pose proof (reportVisit_emits bl x0 Hx0) as Hemit.
      destruct (reportVisit source bl x0) as [bl1 r1].
      destruct (reportVisits source bl1 visits) as [bl2 r2]. simpl in *.
      intros Happ. apply app_eq_nil in Happ. destruct Happ; contradiction.
    + rewrite (reportVisit_silent bl x0 Hx0).
      destruct Hin as [->|Hin]; [congruence|].
      specialize (IH bl x Hin Hx).
      destruct (reportVisits source bl visits) as [bl2 r2]. simpl in *. exact IH.
Qed.

(** *** The visits of a line do not depend on the flags *)

Lemma forEachInsignificants_sameVisit ins : forall ins' ii,
  Forall2 taintedSince ins ins' ->
  Forall2 sameVisit (forEachInsignificants ii ins) (forEachInsignificants ii ins').
Proof.
  induction ins as [|i ins IH]; intros ins' ii Hrel; inversion Hrel; subst; simpl;
    constructor; [reflexivity|apply IH; assumption].
Qed.

Lemma forEachTokens_sameVisit ts : forall ti,
  Forall2 sameVisit (forEachTokens ti ts) (forEachTokens ti ts).
Proof.
  induction ts as [|t ts IH]; intros ti; simpl; constructor; [split; reflexivity|apply IH].
Qed.

Lemma forEachFrom_sameVisit ts : forall ti ii ins ins',
  Forall2 taintedSince ins ins' ->
  Forall2 sameVisit (forEachFrom ti ts ii ins) (forEachFrom ti ts ii ins').
Proof.
  induction ts as [|t ts IHts]; intros ti ii ins ins' Hrel.
  - rewrite !forEachFrom_nil_tokens. apply forEachInsignificants_sameVisit; assumption.
  - revert ii. induction Hrel as [|i i' ins ins' Hi Hrel IHins]; intros ii.
    + rewrite !forEachFrom_nil_insignificants. apply forEachTokens_sameVisit.
    + rewrite !forEachFrom_cons. rewrite (taintedSince_input Hi).
      destruct (vbegin (tokenInput t) <? vbegin (insignificantInput i))%nat.
      * constructor; [split; reflexivity|]. apply IHts. constructor; assumption.
      * constructor; [reflexivity|]. apply IHins.
Qed.

Lemma forEach_later bl bl' :
  laterLine bl bl' -> Forall2 sameVisit (forEach bl) (forEach bl').
Proof.
  intros [Htok Hins]. unfold forEach. rewrite Htok.
  apply forEachFrom_sameVisit; assumption.
Qed.

Lemma sameVisit_In visits visits' :
  Forall2 sameVisit visits visits' ->
  forall x, In x visits -> exists y, In y visits' /\ sameVisit x y.
Proof.
  induction 1 as [|a b visits visits' Hab _ IH]; intros x Hin.
  - destruct Hin.
  - destruct Hin as [->|Hin].
    + exists b. split; [left; reflexivity|assumption].
    + destruct (IH x Hin) as [y [Hy Hxy]]. exists y. split; [right; assumption|assumption].
Qed.

Lemma visitReportable_sameVisit bl x y :
  sameVisit x y -> visitReportable bl y = visitReportable bl x.
Proof.
  destruct x, y; simpl; try contradiction.
  - intros [_ ->]. reflexivity.
  - intros ->. reflexivity.
Qed.

(** C1, as the code has it.  A second call of [reportLineErrors] on the
    line as the first call left it emits no diagnostic exactly when the
    first call emitted none.  The reporters set [isTainted] on the other
    insignificants whose markers they collect, never on the element they
    report on and never on a token, so the element whose reporter emitted
    last in the first call is reported again by the second. *)
Theorem second_call_silent_iff_first_silent (bl : BlockLine) :
  snd (reportLineErrors source (fst (reportLineErrors source bl))) = []
  <-> snd (reportLineErrors source bl) = [].
Proof.
  unfold reportLineErrors. split.
  - intros Hsecond.
    destruct (snd (reportVisits source bl (forEach bl))) as [|d ds] eqn:Hfirst;
      [reflexivity|exfalso].
    destruct (reportVisits_last_reported (forEach bl) bl) as [x [Hin Hx]].
    { rewrite Hfirst. discriminate. }
    pose proof (forEach_later (reportVisits_later (forEach bl) bl)) as Hsame.
    destruct (sameVisit_In Hsame x Hin) as [y [Hy Hxy]].
    eapply reportVisits_reports; [exact Hy| |exact Hsecond].
    rewrite (@visitReportable_sameVisit _ x y Hxy). exact Hx.
  - intros Hfirst. rewrite (reportVisits_silent _ _ Hfirst). exact Hfirst.
Qed.

End TaintReporters.

(** ** One diagnostic for two carriers on one line *)

Lemma sameElement_eq a b : sameElement a b = true <-> a = b.
Proof.
  destruct a, b; simpl; rewrite ?Nat.eqb_eq; split; intros Heq;
    try discriminate; congruence.
Qed.

Lemma forEachTokens_elements ts : forall ti,
  map visitElement (forEachTokens ti ts) = map TokenAt (seq ti (List.length ts)).
Proof.
  induction ts as [|t ts IH]; intros ti; simpl; [reflexivity|]. rewrite IH. reflexivity.
Qed.

Lemma forEachInsignificants_elements ins : forall ii,
  map visitElement (forEachInsignificants ii ins)
  = map InsignificantAt (seq ii (List.length ins)).
Proof.
  induction ins as [|i ins IH]; intros ii; simpl; [reflexivity|]. rewrite IH. reflexivity.
Qed.

(** [forEach] visits no element twice. *)
Lemma forEach_NoDup bl : NoDup (map visitElement (forEach bl)).
Proof.
  eapply Permutation_NoDup.
  - apply Permutation_sym, Permutation_map, forEachFrom_permutation.
  - rewrite map_app, forEachTokens_elements, forEachInsignificants_elements.
    apply NoDup_app.
    + apply Injective_map_NoDup; [|apply seq_NoDup].
      intros x y Heq. congruence.
    + apply Injective_map_NoDup; [|apply seq_NoDup].
      intros x y Heq. congruence.
    + intros e Hin Hin'. apply in_map_iff in Hin, Hin'.
      destruct Hin as [x [Hx _]], Hin' as [y [Hy _]]. congruence.
Qed.

Lemma insignificantReportable_tainted i :
  insignificantTainted i = true -> insignificantReportable i = false.
Proof. destruct i; simpl; intros Ht; rewrite ?Ht; reflexivity. Qed.



Lemma taintedAt_later bl bl' j : laterLine bl bl' -> taintedAt bl j -> taintedAt bl' j.
Proof.
  intros Hlater [b [Hb Ht]].
  destruct (Forall2_taintedSince_nth_error (proj2 Hlater) _ Hb) as [b' [Hb' Hbb']].
  rewrite (taintedSince_tainted Hbb' Ht) in Hb'. exists b. split; assumption.
Qed.

Section OneLine.

Context `{StringsLayer}.
Variable source : String.




Lemma reportedFor_not_visited e visits : forall bl,
  ~ In e (map visitElement visits) -> reportedFor source e bl visits = [].
Proof.
  induction visits as [|x visits IH]; intros bl Hnot; simpl.
  - reflexivity.
  - destruct (reportVisit source bl x) as [bl1 r1].
    destruct (sameElement (visitElement x) e) eqn:Hsame.
    + exfalso. apply Hnot. left. apply sameElement_eq. assumption.
    + simpl. apply IH. intros Hin. apply Hnot. right. assumption.
Qed.

(** Visiting an insignificant whose flag is set emits nothing and changes
    nothing. *)
Lemma reportVisit_tainted bl j x :
  visitElement x = InsignificantAt j -> taintedAt bl j ->
  reportVisit source bl x = (bl, []).
Proof.
  intros Hx [b [Hb Ht]]. apply reportVisit_silent.
  destruct x as [ti t|ii i]; simpl in *; [discriminate|].
  inversion Hx; subst. rewrite Hb. apply insignificantReportable_tainted; assumption.
Qed.

(** Nothing is emitted on behalf of an insignificant whose flag is
    set. *)
Lemma reportedFor_tainted j visits : forall bl,
  taintedAt bl j -> reportedFor source (InsignificantAt j) bl visits = [].
Proof.
  induction visits as [|x visits IH]; intros bl Ht; simpl.
  - reflexivity.
  - pose proof (reportVisit_later source bl x) as Hlater.
    destruct (sameElement (visitElement x) (InsignificantAt j)) eqn:Hsame.
    + apply sameElement_eq in Hsame.
      rewrite (@reportVisit_tainted bl j x Hsame Ht). simpl. apply IH; assumption.
    + destruct (reportVisit source bl x) as [bl1 r1]. simpl in *.
      apply IH. eapply taintedAt_later; eassumption.
Qed.





End OneLine.



(** ** Spans on the escaped return path *)

Lemma spanTracked_grows offset offset' m :
  (offset <= offset')%Z -> spanTracked offset m -> spanTracked offset' m.
Proof.
  unfold spanTracked, spanWithin. intros Hle [H1|[H2|H3]]; [left|right; left|right; right];
    intuition lia.
Qed.

Ltac destruct_tests :=
  repeat (match goal with
          | |- context [(?a <=? ?b)%nat] => destruct (Nat.leb_spec a b)
          | |- context [(?a =? ?b)%Z] => destruct (Z.eqb_spec a b)
          end; cbn [andb diagnostic.start diagnostic.length]).

Lemma updateMarker_tracked offset p vm m :
  (0 <= offset)%Z -> vbegin vm <= vend vm ->
  spanTracked offset m ->
  spanTracked offset (updateMarker offset p vm m)
  /\ (vend vm <= p -> spanWithin offset (updateMarker offset p vm m)).
Proof.
  intros Hoff Hvm Hm. unfold updateMarker. destruct m as [s l].
  unfold spanTracked, spanWithin in *. cbn [diagnostic.start diagnostic.length] in *.
  destruct_tests; cbn [diagnostic.start diagnostic.length] in *; lia.
Qed.

Lemma updateMarkersLoop_tracked offset p viewMarkers : forall ms,
  (0 <= offset)%Z ->
  Forall (fun vm => vbegin vm <= vend vm) viewMarkers ->
  List.length ms = List.length viewMarkers ->
  Forall (spanTracked offset) ms ->
  Forall (spanTracked offset) (updateMarkersLoop offset p viewMarkers ms)
  /\ (Forall (fun vm => vend vm <= p) viewMarkers ->
      Forall (spanWithin offset) (updateMarkersLoop offset p viewMarkers ms)).
Proof.
  induction viewMarkers as [|vm viewMarkers IH]; intros [|m ms] Hoff Hvms Hlen Hms;
    simpl in *; try discriminate.
  - split; [constructor|intros; constructor].
  - apply Forall_cons_iff in Hvms. destruct Hvms as [Hvm Hvms].
    apply Forall_cons_iff in Hms. destruct Hms as [Hm Hms].
    destruct (@updateMarker_tracked offset p vm m Hoff Hvm Hm) as [Htracked Hwithin].
    assert (Hlen' : List.length ms = List.length viewMarkers) by lia.
    destruct (IH ms Hoff Hvms Hlen' Hms) as [IHt IHw].
    split.
    + constructor; assumption.
    + intros Hends. apply Forall_cons_iff in Hends. destruct Hends as [Hend Hends].
      constructor; auto.
Qed.

Section EscapedSpans.

Context `{StringsLayer}.
Variable source : String.

Lemma viewToString_length v :
  vend v <= List.length source -> List.length (viewToString source v) = byteCount v.
Proof.
  intros Hend. unfold viewToString, byteCount.
  rewrite length_firstn, length_skipn. lia.
Qed.

Lemma rope_to_string_app r r' :
  rope_to_string source (r ++ r') = rope_to_string source r ++ rope_to_string source r'.
Proof. unfold rope_to_string. apply flat_map_app. Qed.

Lemma rope_add_view_length r v :
  vend v <= List.length source ->
  List.length (rope_to_string source (rope_add_view r v))
  = List.length (rope_to_string source r) + byteCount v.
Proof.
  intros Hend. unfold rope_add_view.
  destruct (vbegin v =? vend v)%nat eqn:Hempty.
  - apply Nat.eqb_eq in Hempty. unfold byteCount. lia.
  - rewrite rope_to_string_app, length_app. simpl. rewrite app_nil_r.
    rewrite viewToString_length by assumption. reflexivity.
Qed.

Lemma rope_add_string_length r s :
  List.length (rope_to_string source (rope_add_string r s))
  = List.length (rope_to_string source r) + List.length s.
Proof.
  unfold rope_add_string. destruct s as [|c s].
  - simpl. lia.
  - rewrite rope_to_string_app, length_app. simpl. rewrite app_nil_r. reflexivity.
Qed.

Lemma rope_add_code_point_length r c :
  List.length (rope_to_string source (rope_add_code_point r c))
  = List.length (rope_to_string source r) + List.length (utf8_encode c).
Proof.
  unfold rope_add_code_point. rewrite rope_to_string_app, length_app. simpl.
  rewrite app_nil_r. reflexivity.
Qed.

Variable viewMarkers : ViewMarkers.
Hypothesis Hmarkers : Forall (fun vm => vbegin vm <= vend vm) viewMarkers.
Hypothesis Hencode : forall cp, cp_v cp = 92%Z -> utf8_encode cp <> [].

Lemma updateMarkers_scanned p e :
  scanned source viewMarkers p e ->
  scanned source viewMarkers p (updateMarkers viewMarkers p e).
Proof.
  intros [Hb [Ho [Hl Hs]]]. unfold scanned, updateMarkers; simpl.
  split; [assumption|]. split; [assumption|]. split.
  - rewrite updateMarkersLoop_length. assumption.
  - apply updateMarkersLoop_tracked; try assumption; lia.
Qed.

Lemma addEscaped_scanned p input e :
  vbegin input = p -> p < vend input -> vend input <= List.length source ->
  scanned source viewMarkers p e ->
  scanned source viewMarkers (vend input) (addEscaped source input e).
Proof.
  intros Hp Hne Hend [Hb [Ho [Hl Hs]]]. unfold scanned, addEscaped.
  destruct (escapedText (viewToString source input)) as [str sets]. simpl.
  rewrite rope_add_string_length, rope_add_view_length by (simpl; lia).
  unfold byteCount; simpl.
  split; [lia|]. split; [lia|]. split; [assumption|].
  eapply Forall_impl; [|exact Hs]. intros m. apply spanTracked_grows. lia.
Qed.

Lemma escapeStep_scanned p d e :
  vbegin (match d with DecodedCodePoint input _ => input | DecodedError input => input end) = p ->
  p < vend (match d with DecodedCodePoint input _ => input | DecodedError input => input end) ->
  vend (match d with DecodedCodePoint input _ => input | DecodedError input => input end)
  <= List.length source ->
  scanned source viewMarkers p e ->
  scanned source viewMarkers
          (vend (match d with DecodedCodePoint input _ => input | DecodedError input => input end))
          (escapeStep source viewMarkers e d).
Proof.
  intros Hp Hne Hend He. apply updateMarkers_scanned in He.
  destruct d as [input cp|input]; simpl in *; rewrite Hp.
  - destruct (isCombiningMark cp || isControl cp || isNonCharacter cp || isSurrogate cp).
    + apply addEscaped_scanned with (p := p); assumption.
    + destruct He as [Hb [Ho [Hl Hs]]].
      destruct (cp_v cp =? 92)%Z eqn:Hbackslash; unfold scanned; simpl.
      * apply Z.eqb_eq in Hbackslash. pose proof (Hencode cp Hbackslash) as Hnonempty.
        rewrite rope_add_code_point_length, rope_add_view_length by (simpl; lia).
        unfold byteCount; simpl.
        assert (1 <= List.length (utf8_encode cp)).
        { destruct (utf8_encode cp); [congruence|simpl; lia]. }
        simpl in *.
        split; [lia|]. split; [lia|]. split; [assumption|].
        eapply Forall_impl; [|exact Hs]. intros m. apply spanTracked_grows. lia.
      * simpl in *.
        split; [lia|]. split; [lia|]. split; [assumption|].
        eapply Forall_impl; [|exact Hs]. intros m. apply spanTracked_grows. lia.
  - apply addEscaped_scanned with (p := p); assumption.
Qed.

Lemma decodedTiles_ends items : forall p last, decodedTiles p items last -> p <= last.
Proof.
  induction items as [|d items IH]; intros p last Ht; simpl in Ht.
  - lia.
  - destruct Ht as [_ [Hlt Hr]]. specialize (IH _ _ Hr). lia.
Qed.

Lemma escapeSteps_scanned items : forall p e last,
  decodedTiles p items last -> last <= List.length source ->
  scanned source viewMarkers p e ->
  scanned source viewMarkers last (fold_left (escapeStep source viewMarkers) items e).
Proof.
  induction items as [|d items IH]; intros p e last Htiles Hlast He; simpl in *.
  - subst. assumption.
  - destruct Htiles as [Hp [Hne Hrest]].
    pose proof (decodedTiles_ends _ _ _ Hrest) as Hle.
    eapply IH; try eassumption.
    apply escapeStep_scanned with (p := p); try assumption. lia.
Qed.

End EscapedSpans.

(** X10.  On the escaped return path every span handed back lies within the
    returned text and none keeps the sentinel, provided the markers lie
    within the view, the decoded items cover the view and a backslash is
    encoded in at least one byte. *)
Theorem escaped_spans_within `{StringsLayer} (source : String)
  (view : View) (viewMarkers : ViewMarkers)
  (Hview : vbegin view <= vend view <= List.length source)
  (Hwithin : Forall (markerWithin view) viewMarkers)
  (Htiles : decodedTiles (vbegin view) (utf8Decode source view) (vend view))
  (Hencode : forall cp, cp_v cp = 92%Z -> utf8_encode cp <> [])
  (Hescaped : requiresEscapes (escapeScan source view viewMarkers) = true) :
  Forall (spanWithin (Z.of_nat (List.length (escaped (escapeSourceLine source view viewMarkers)))))
         (markers (escapeSourceLine source view viewMarkers)).
Proof.
  assert (Hmarkers : Forall (fun vm => vbegin vm <= vend vm) viewMarkers).
  { eapply Forall_impl; [|exact Hwithin]. intros vm [_ [Hvm _]]. exact Hvm. }
  assert (Hends : Forall (fun vm => vend vm <= vend view) viewMarkers).
  { eapply Forall_impl; [|exact Hwithin]. intros vm [_ [_ Hend]]. exact Hend. }
  unfold escapeSourceLine. rewrite Hescaped. simpl. clear Hescaped.
  unfold escapeScan.
  set (e0 := mkEscaper [] (repeat (diagnostic.mkTextSpan (-1) (-1)) (List.length viewMarkers))
                       (vbegin view) 0 false).
  assert (H0 : scanned source viewMarkers (vbegin view) e0).
  { unfold scanned, e0; simpl.
    split; [lia|]. split; [lia|]. split; [apply repeat_length|].
    apply Forall_forall. intros m Hm. apply repeat_spec in Hm. subst.
    left. split; reflexivity. }
  destruct (@escapeSteps_scanned _ source viewMarkers Hmarkers Hencode
              (utf8Decode source view) (vbegin view) e0 (vend view)
              Htiles (proj2 Hview) H0) as [Hb [Ho [Hl Hs]]].
  set (e1 := fold_left (escapeStep source viewMarkers) (utf8Decode source view) e0) in *.
  unfold updateMarkers. simpl.
  rewrite rope_add_view_length by (simpl; lia). unfold byteCount; simpl.
  destruct (@updateMarkersLoop_tracked (offset e1) (vend view) viewMarkers (spans e1)
              (proj1 Ho) Hmarkers Hl Hs) as [_ Hfinal].
  eapply Forall_impl; [|apply Hfinal; exact Hends].
  intros m [Hs0 [Hl0 Hsum]]. split; [assumption|]. split; [assumption|]. lia.
Qed.

Lemma escaped_spans_within_witness :
  Forall (spanWithin
            (Z.of_nat (List.length (escaped (escapeSourceLine sourceS2 (mkView 0 5)
                                                              [mkView 2 3])))))
         (markers (escapeSourceLine sourceS2 (mkView 0 5) [mkView 2 3])).
Proof.
  apply (@escaped_spans_within modelStrings sourceS2 (mkView 0 5) [mkView 2 3]).
  - simpl. lia.
  - repeat constructor; simpl; lia.
  - simpl. repeat split; lia.
  - intros cp Hcp. unfold utf8_encode; simpl. unfold modelEncode. rewrite Hcp. discriminate.
  - reflexivity.
Defined.

(** * Further properties *)

(** ** Line extent *)

Lemma last_In {A : Type} (l : list A) (d : A) : l <> [] -> In (last l d) l.
Proof.
  induction l as [|x l IH]; [congruence|]. intros _.
  destruct l as [|y l]; [left; reflexivity|].
  right. apply IH. discriminate.
Qed.

Lemma chained_front (vs : list View) (front : View) (rest : list View) :
  vs = front :: rest -> viewsChained vs ->
  forall v, In v vs -> vbegin front <= vbegin v.
Proof.
  intros -> [Hwf Hsorted] v [<-|Hin]; [lia|].
  apply StronglySorted_inv in Hsorted. destruct Hsorted as [_ Hhd].
  rewrite Forall_forall in Hhd, Hwf.
  specialize (Hhd v Hin). specialize (Hwf front (or_introl eq_refl)). lia.
Qed.

Lemma chained_back (vs : list View) : forall d,
  viewsChained vs -> forall v, In v vs -> vend v <= vend (last vs d).
Proof.
  induction vs as [|x vs IH]; intros d [Hwf Hsorted] v Hin; [destruct Hin|].
  apply StronglySorted_inv in Hsorted. destruct Hsorted as [Hsorted Hhd].
  apply Forall_cons_iff in Hwf. destruct Hwf as [Hx Hwf].
  destruct vs as [|y vs].
  - destruct Hin as [<-|[]]. simpl. lia.
  - change (last (x :: y :: vs) d) with (last (y :: vs) d).
    destruct Hin as [<-|Hin].
    + assert (Hy : vend y <= vend (last (y :: vs) d)).
      { apply IH; [split; assumption|left; reflexivity]. }
      apply Forall_cons_iff in Hhd. destruct Hhd as [Hxy _].
      apply Forall_cons_iff in Hwf. destruct Hwf as [Hyw _]. lia.
    + apply IH; [split; assumption|assumption].
Qed.

Lemma last_map {A B : Type} (f : A -> B) (l : list A) : forall d,
  last (map f l) (f d) = f (last l d).
Proof.
  induction l as [|x l IH]; intros d; [reflexivity|].
  destruct l as [|y l]; [reflexivity|]. apply (IH d).
Qed.

(** X1.  On a line whose tokens and whose insignificants are each sorted,
    disjoint and well formed, the view of [extractBlockLines] contains
    the input of every token and of every insignificant. *)
Theorem extractBlockLines_covers (bl : BlockLine)
  (Htokens : viewsChained (map tokenInput (tokens bl)))
  (Hinsignificants : viewsChained (map insignificantInput (insignificants bl))) :
  (forall t, In t (tokens bl) -> isPartOf (tokenInput t) (extractBlockLines bl) = true)
  /\ (forall i, In i (insignificants bl) ->
                isPartOf (insignificantInput i) (extractBlockLines bl) = true).
Proof.
  assert (Ht : forall front rest, tokens bl = front :: rest ->
                 forall t, In t (tokens bl) ->
                   vbegin (tokenInput front) <= vbegin (tokenInput t)
                   /\ vend (tokenInput t) <= vend (tokenInput (last (tokens bl) front))).
  { intros front rest Heq t Hin. split.
    - apply (@chained_front (map tokenInput (tokens bl)) (tokenInput front)
               (map tokenInput rest)); [rewrite Heq; reflexivity|assumption|].
      apply in_map; assumption.
    - rewrite <- last_map. apply chained_back; [assumption|apply in_map; assumption]. }
  assert (Hi : forall front rest, insignificants bl = front :: rest ->
                 forall i, In i (insignificants bl) ->
                   vbegin (insignificantInput front) <= vbegin (insignificantInput i)
                   /\ vend (insignificantInput i)
                      <= vend (insignificantInput (last (insignificants bl) front))).
  { intros front rest Heq i Hin. split.
    - apply (@chained_front (map insignificantInput (insignificants bl))
               (insignificantInput front) (map insignificantInput rest));
        [rewrite Heq; reflexivity|assumption|].
      apply in_map; assumption.
    - rewrite <- last_map. apply chained_back; [assumption|apply in_map; assumption]. }
  assert (Hpart : forall v all, vbegin all <= vbegin v -> vend v <= vend all ->
                                isPartOf v all = true).
  { intros v all Hb He. unfold isPartOf. apply andb_true_iff.
    split; apply Nat.leb_le; assumption. }
  unfold extractBlockLines.
  destruct (tokens bl) as [|tf tr] eqn:Etok; destruct (insignificants bl) as [|jf jr] eqn:Eins.
  - split; intros x [].
  - split; [intros x []|]. intros i Hin. destruct (Hi jf jr eq_refl i Hin).
    apply Hpart; assumption.
  - split; [|intros x []]. intros t Hin. destruct (Ht tf tr eq_refl t Hin).
    apply Hpart; assumption.
  - cbv beta iota zeta.
    repeat match goal with
           | |- context [(?a <? ?b)%nat] => destruct (Nat.ltb_spec a b)
           end;
      (split;
       [intros t Hin; destruct (Ht tf tr eq_refl t Hin) as [Hb He]
       |intros i Hin; destruct (Hi jf jr eq_refl i Hin) as [Hb He]];
       apply Hpart; cbn [vbegin vend]; lia).
Qed.

Lemma extractBlockLines_covers_witness :
  (forall t, In t (tokens lineS3) -> isPartOf (tokenInput t) (extractBlockLines lineS3) = true)
  /\ (forall i, In i (insignificants lineS3) ->
                isPartOf (insignificantInput i) (extractBlockLines lineS3) = true).
Proof.
  apply (extractBlockLines_covers lineS3).
  - split; simpl; repeat constructor; simpl; lia.
  - split; simpl; repeat constructor; simpl; lia.
Defined.

(** *** The two scans of [extractViewLines] *)

Lemma lineBegin_le source allBegin : forall start, lineBegin source allBegin start <= start.
Proof.
  induction start as [|k IH]; simpl; [lia|].
  destruct ((allBegin <? S k)%nat && negb (isLineBreak (byteAt source k))); lia.
Qed.

Lemma lineBegin_ge source allBegin : forall start,
  allBegin <= start -> allBegin <= lineBegin source allBegin start.
Proof.
  induction start as [|k IH]; simpl; intros Hle; [lia|].
  destruct (allBegin <? S k)%nat eqn:Hlt; simpl.
  - apply Nat.ltb_lt in Hlt.
    destruct (isLineBreak (byteAt source k)); simpl; [lia|]. apply IH. lia.
  - lia.
Qed.

(** Where the backward scan stops: at the begin of the line extent, or
    right after a line break. *)
Lemma lineBegin_stop source allBegin : forall start,
  lineBegin source allBegin start <= allBegin
  \/ isLineBreak (byteAt source (lineBegin source allBegin start - 1)) = true.
Proof.
  induction start as [|k IH]; simpl; [left; lia|].
  destruct (allBegin <? S k)%nat eqn:Hlt; simpl.
  - destruct (isLineBreak (byteAt source k)) eqn:Hbreak; simpl.
    + right. rewrite Nat.sub_0_r. assumption.
    + apply IH.
  - apply Nat.ltb_ge in Hlt. left. assumption.
Qed.

Lemma lineBegin_no_break source allBegin : forall start,
  noLineBreak source (lineBegin source allBegin start) start.
Proof.
  induction start as [|k IH]; simpl; intros p Hp; [lia|].
  destruct (allBegin <? S k)%nat eqn:Hlt; simpl in Hp.
  - destruct (isLineBreak (byteAt source k)) eqn:Hbreak; simpl in Hp; [lia|].
    destruct (Nat.eq_dec p k) as [->|Hne]; [assumption|]. apply IH. lia.
  - lia.
Qed.

(** The backward scan started anywhere between its result and its start
    stops at the same place. *)
Lemma lineBegin_restart source allBegin : forall start w,
  lineBegin source allBegin start <= w -> w <= start ->
  lineBegin source allBegin w = lineBegin source allBegin start.
Proof.
  induction start as [|k IH]; intros w Hlo Hhi.
  - assert (w = 0) by lia. subst. reflexivity.
  - destruct (Nat.eq_dec w (S k)) as [->|Hne]; [reflexivity|].
    simpl in *.
    destruct ((allBegin <? S k)%nat && negb (isLineBreak (byteAt source k))).
    + apply IH; lia.
    + lia.
Qed.

Lemma lineEnd_ge source allEnd : forall fuel start,
  start <= lineEnd fuel source allEnd start.
Proof.
  induction fuel as [|n IH]; intros start; simpl; [lia|].
  destruct ((start <? allEnd)%nat && negb (isLineBreak (byteAt source start))); [|lia].
  specialize (IH (S start)). lia.
Qed.

Lemma lineEnd_le source allEnd : forall fuel start,
  start <= allEnd -> lineEnd fuel source allEnd start <= allEnd.
Proof.
  induction fuel as [|n IH]; intros start Hle; simpl; [lia|].
  destruct (start <? allEnd)%nat eqn:Hlt; simpl; [|lia].
  apply Nat.ltb_lt in Hlt.
  destruct (isLineBreak (byteAt source start)); simpl; [lia|]. apply IH. lia.
Qed.

(** Where the forward scan stops when it has fuel for the whole
    distance: at the end of the line extent, or right before a line
    break. *)
Lemma lineEnd_stop source allEnd : forall fuel start,
  allEnd - start <= fuel ->
  allEnd <= lineEnd fuel source allEnd start
  \/ isLineBreak (byteAt source (lineEnd fuel source allEnd start)) = true.
Proof.
  induction fuel as [|n IH]; intros start Hfuel; simpl; [left; lia|].
  destruct (start <? allEnd)%nat eqn:Hlt; simpl.
  - destruct (isLineBreak (byteAt source start)) eqn:Hbreak; simpl.
    + right. assumption.
    + apply IH. lia.
  - apply Nat.ltb_ge in Hlt. left. assumption.
Qed.

Lemma lineEnd_no_break source allEnd : forall fuel start,
  noLineBreak source start (lineEnd fuel source allEnd start).
Proof.
  induction fuel as [|n IH]; intros start p Hp; simpl in Hp; [lia|].
  destruct (start <? allEnd)%nat eqn:Hlt; simpl in Hp; [|lia].
  destruct (isLineBreak (byteAt source start)) eqn:Hbreak; simpl in Hp; [lia|].
  destruct (Nat.eq_dec p start) as [->|Hne]; [assumption|]. apply (IH (S start)). lia.
Qed.

(** The forward scan started anywhere between its start and its result
    stops at the same place. *)
Lemma lineEnd_restart source allEnd : forall fuel start w fuel',
  allEnd - start <= fuel -> allEnd - w <= fuel' ->
  start <= w -> w <= lineEnd fuel source allEnd start ->
  lineEnd fuel' source allEnd w = lineEnd fuel source allEnd start.
Proof.
  induction fuel as [|n IH]; intros start w fuel' Hfuel Hfuel' Hlo Hhi.
  - simpl in *. assert (w = start) by lia. subst.
    destruct fuel' as [|m]; [reflexivity|]. simpl.
    destruct (start <? allEnd)%nat eqn:Hlt; [apply Nat.ltb_lt in Hlt; lia|reflexivity].
  - simpl in *.
    destruct ((start <? allEnd)%nat && negb (isLineBreak (byteAt source start))) eqn:Hgo.
    + destruct (Nat.eq_dec w start) as [->|Hne].
      * apply andb_true_iff in Hgo. destruct Hgo as [Hlt Hbreak].
        apply Nat.ltb_lt in Hlt.
        destruct fuel' as [|m]; [lia|]. simpl. rewrite (proj2 (Nat.ltb_lt _ _) Hlt), Hbreak.
        simpl. apply IH; try lia. apply lineEnd_ge.
      * apply IH; lia.
    + assert (w = start) by lia. subst.
      destruct fuel' as [|m]; [reflexivity|]. simpl. rewrite Hgo. reflexivity.
Qed.

Lemma isPartOf_spec v other :
  isPartOf v other = true <-> vbegin other <= vbegin v /\ vend v <= vend other.
Proof.
  unfold isPartOf. rewrite andb_true_iff, !Nat.leb_le. reflexivity.
Qed.

(** X2.  [extractViewLines] only widens the view it is given, and the
    lines of a view that lies within the extent of the block line lie
    within that extent too. *)
Theorem extractViewLines_widens_within_extent (source : String) (bl : BlockLine)
  (view : View) (Hview : isPartOf view (extractBlockLines bl) = true) :
  isPartOf view (extractViewLines source bl view) = true
  /\ isPartOf (extractViewLines source bl view) (extractBlockLines bl) = true.
Proof.
  apply isPartOf_spec in Hview. destruct Hview as [Hb He].
  unfold extractViewLines. rewrite !isPartOf_spec. cbn [vbegin vend].
  pose proof (lineBegin_le source (vbegin (extractBlockLines bl)) (vbegin view)).
  pose proof (@lineBegin_ge source (vbegin (extractBlockLines bl)) (vbegin view) Hb).
  pose proof (lineEnd_ge source (vend (extractBlockLines bl))
                (vend (extractBlockLines bl) - vend view) (vend view)).
  pose proof (@lineEnd_le source (vend (extractBlockLines bl))
                (vend (extractBlockLines bl) - vend view) (vend view) He).
  lia.
Qed.

Lemma extractViewLines_widens_within_extent_witness :
  isPartOf (mkView 3 4) (extractViewLines sourceThreeLines lineThreeLines (mkView 3 4)) = true
  /\ isPartOf (extractViewLines sourceThreeLines lineThreeLines (mkView 3 4))
              (extractBlockLines lineThreeLines) = true.
Proof.
  apply (extractViewLines_widens_within_extent sourceThreeLines lineThreeLines (mkView 3 4)).
  reflexivity.
Defined.

(** X3.  The lines of a view within the extent of the block line begin at
    the begin of the extent or right after a line break, end at the end of
    the extent or right before a line break, and the bytes added on either
    side of the view hold no line break. *)
Theorem extractViewLines_stops_at_line_breaks (source : String) (bl : BlockLine)
  (view : View) (Hview : isPartOf view (extractBlockLines bl) = true) :
  let lines := extractViewLines source bl view in
  (vbegin lines = vbegin (extractBlockLines bl)
   \/ isLineBreak (byteAt source (vbegin lines - 1)) = true)
  /\ (vend lines = vend (extractBlockLines bl)
      \/ isLineBreak (byteAt source (vend lines)) = true)
  /\ noLineBreak source (vbegin lines) (vbegin view)
  /\ noLineBreak source (vend view) (vend lines).
Proof.
  apply isPartOf_spec in Hview. destruct Hview as [Hb He].
  unfold extractViewLines. cbn [vbegin vend]. split; [|split; [|split]].
  - destruct (lineBegin_stop source (vbegin (extractBlockLines bl)) (vbegin view))
      as [Hstop|Hbreak]; [left|right; assumption].
    pose proof (@lineBegin_ge source (vbegin (extractBlockLines bl)) (vbegin view) Hb). lia.
  - destruct (@lineEnd_stop source (vend (extractBlockLines bl))
                (vend (extractBlockLines bl) - vend view) (vend view) (le_n _))
      as [Hstop|Hbreak]; [left|right; assumption].
    pose proof (@lineEnd_le source (vend (extractBlockLines bl))
                  (vend (extractBlockLines bl) - vend view) (vend view) He). lia.
  - apply lineBegin_no_break.
  - apply lineEnd_no_break.
Qed.

Lemma extractViewLines_stops_at_line_breaks_witness :
  let lines := extractViewLines sourceThreeLines lineThreeLines (mkView 3 4) in
  (vbegin lines = vbegin (extractBlockLines lineThreeLines)
   \/ isLineBreak (byteAt sourceThreeLines (vbegin lines - 1)) = true)
  /\ (vend lines = vend (extractBlockLines lineThreeLines)
      \/ isLineBreak (byteAt sourceThreeLines (vend lines)) = true)
  /\ noLineBreak sourceThreeLines (vbegin lines) (vbegin (mkView 3 4))
  /\ noLineBreak sourceThreeLines (vend (mkView 3 4)) (vend lines).
Proof.
  apply (extractViewLines_stops_at_line_breaks sourceThreeLines lineThreeLines (mkView 3 4)).
  reflexivity.
Defined.

(** X4.  Every view that contains the given view and lies within its
    lines has the same lines; in particular the lines of the lines of a
    view are the lines of the view. *)
Theorem extractViewLines_same_lines (source : String) (bl : BlockLine) (view w : View)
  (Hcontains : isPartOf view w = true)
  (Hwithin : isPartOf w (extractViewLines source bl view) = true) :
  extractViewLines source bl w = extractViewLines source bl view.
Proof.
  apply isPartOf_spec in Hcontains, Hwithin.
  unfold extractViewLines in *. cbn [vbegin vend] in *.
  destruct Hcontains as [Hb He]. destruct Hwithin as [Hb' He']. f_equal.
  - apply lineBegin_restart; assumption.
  - apply lineEnd_restart; try lia; assumption.
Qed.

Lemma extractViewLines_same_lines_witness :
  extractViewLines sourceThreeLines lineThreeLines
    (extractViewLines sourceThreeLines lineThreeLines (mkView 3 4))
  = extractViewLines sourceThreeLines lineThreeLines (mkView 3 4).
Proof.
  apply (extractViewLines_same_lines sourceThreeLines lineThreeLines (mkView 3 4)
           (extractViewLines sourceThreeLines lineThreeLines (mkView 3 4))).
  - reflexivity.
  - reflexivity.
Defined.

(** ** The escaper *)

Lemma firstn_add {A : Type} (n m : nat) : forall l : list A,
  firstn (n + m) l = firstn n l ++ firstn m (skipn n l).
Proof.
  induction n as [|n IH]; intros l; simpl; [reflexivity|].
  destruct l as [|x l]; simpl.
  - rewrite firstn_nil. reflexivity.
  - rewrite IH. reflexivity.
Qed.

Lemma viewToString_app source a b c :
  a <= b -> b <= c ->
  viewToString source (mkView a b) ++ viewToString source (mkView b c)
  = viewToString source (mkView a c).
Proof.
  intros Hab Hbc. unfold viewToString, byteCount. cbn [vbegin vend].
  replace (c - a) with ((b - a) + (c - b)) by lia.
  rewrite firstn_add, skipn_skipn.
  replace (b - a + a) with b by lia. reflexivity.
Qed.

Lemma viewToString_empty source a : viewToString source (mkView a a) = [].
Proof. unfold viewToString, byteCount. cbn [vbegin vend]. rewrite Nat.sub_diag. reflexivity. Qed.

Lemma viewToString_eta source v :
  viewToString source v = viewToString source (mkView (vbegin v) (vend v)).
Proof. destruct v; reflexivity. Qed.

Section EscaperText.

Context `{StringsLayer}.
Variable source : String.

Lemma rope_add_view_text r v :
  rope_to_string source (rope_add_view r v)
  = rope_to_string source r ++ viewToString source v.
Proof.
  unfold rope_add_view. destruct (vbegin v =? vend v)%nat eqn:Hempty.
  - apply Nat.eqb_eq in Hempty. rewrite viewToString_eta, Hempty, viewToString_empty.
    rewrite app_nil_r. reflexivity.
  - rewrite rope_to_string_app. simpl. rewrite app_nil_r. reflexivity.
Qed.

Lemma rope_add_string_text r s :
  rope_to_string source (rope_add_string r s) = rope_to_string source r ++ s.
Proof.
  unfold rope_add_string. destruct s as [|c s].
  - rewrite app_nil_r. reflexivity.
  - rewrite rope_to_string_app. simpl. rewrite app_nil_r. reflexivity.
Qed.

Lemma rope_add_code_point_text r c :
  rope_to_string source (rope_add_code_point r c)
  = rope_to_string source r ++ utf8_encode c.
Proof.
  unfold rope_add_code_point. rewrite rope_to_string_app. simpl.
  rewrite app_nil_r. reflexivity.
Qed.

(** The output and the bytes not flushed yet, after the item that ends at
    [vend input], are those before it followed by the rendering of the
    item. *)
Lemma escapeStep_text viewMarkers p d e acc :
  vbegin (match d with DecodedCodePoint input _ => input | DecodedError input => input end) = p ->
  p < vend (match d with DecodedCodePoint input _ => input | DecodedError input => input end) ->
  begin e <= p ->
  rope_to_string source (output e) ++ viewToString source (mkView (begin e) p) = acc ->
  let e' := escapeStep source viewMarkers e d in
  let q := vend (match d with DecodedCodePoint input _ => input | DecodedError input => input end) in
  begin e' <= q
  /\ rope_to_string source (output e') ++ viewToString source (mkView (begin e') q)
     = acc ++ renderItem source d.
Proof.
  intros Hp Hq Hb Hacc.
  assert (Hescaped : forall input,
             vbegin input = p -> p < vend input ->
             begin (addEscaped source input (updateMarkers viewMarkers p e)) <= vend input
             /\ rope_to_string source
                  (output (addEscaped source input (updateMarkers viewMarkers p e)))
                ++ viewToString source
                     (mkView (begin (addEscaped source input (updateMarkers viewMarkers p e)))
                             (vend input))
                = acc ++ fst (escapedText (viewToString source input))).
  { intros input Hin Hlt. unfold addEscaped.
    destruct (escapedText (viewToString source input)) as [str sets]. simpl.
    split; [lia|].
    rewrite rope_add_string_text, rope_add_view_text, viewToString_empty, app_nil_r.
    rewrite Hin, Hacc. reflexivity. }
  destruct d as [input cp|input]; simpl in *.
  - rewrite Hp.
    destruct (isCombiningMark cp || isControl cp || isNonCharacter cp || isSurrogate cp).
    + apply Hescaped; assumption.
    + destruct (cp_v cp =? 92)%Z; simpl.
      * split; [lia|].
        rewrite rope_add_code_point_text, rope_add_view_text, viewToString_empty, app_nil_r.
        rewrite <- (viewToString_app source Hb (Nat.lt_le_incl _ _ Hq)).
        rewrite app_assoc, Hacc, (viewToString_eta source input), Hp, <- app_assoc.
        reflexivity.
      * split; [lia|].
        rewrite <- (viewToString_app source Hb (Nat.lt_le_incl _ _ Hq)).
        rewrite app_assoc, Hacc, (viewToString_eta source input), Hp. reflexivity.
  - rewrite Hp. apply Hescaped; assumption.
Qed.

Lemma escapeSteps_text viewMarkers items : forall p e acc last,
  decodedTiles p items last -> begin e <= p ->
  rope_to_string source (output e) ++ viewToString source (mkView (begin e) p) = acc ->
  let e' := fold_left (escapeStep source viewMarkers) items e in
  begin e' <= last
  /\ rope_to_string source (output e') ++ viewToString source (mkView (begin e') last)
     = acc ++ flat_map (renderItem source) items.
Proof.
  induction items as [|d items IH]; intros p e acc last Htiles Hb Hacc; simpl in *.
  - subst last. rewrite app_nil_r. split; assumption.
  - destruct Htiles as [Hp [Hq Hrest]].
    destruct (escapeStep_text viewMarkers d e Hp Hq Hb Hacc) as [Hb' Hacc'].
    destruct (IH _ _ _ _ Hrest Hb' Hacc') as [Hb'' Hacc''].
    split; [assumption|]. rewrite Hacc'', app_assoc. reflexivity.
Qed.

(** X5.  When the decoded items cover the view, the text that
    [escapeSourceLine] returns is the view itself if no item sets
    [requiresEscapes], and otherwise the renderings of the items one after
    the other: the pieces flushed lazily into the rope add up to exactly
    that. *)
Theorem escapeSourceLine_text (view : View) (viewMarkers : ViewMarkers)
  (Htiles : decodedTiles (vbegin view) (utf8Decode source view) (vend view)) :
  escaped (escapeSourceLine source view viewMarkers)
  = if forallb (keepsUnescaped source) (utf8Decode source view)
    then viewToString source view
    else flat_map (renderItem source) (utf8Decode source view).
Proof.
  unfold escapeSourceLine. rewrite escapeScan_requiresEscapes, negb_involutive.
  destruct (forallb (keepsUnescaped source) (utf8Decode source view)); [reflexivity|].
  cbn [escaped]. unfold escapeScan, updateMarkers. cbn [output].
  rewrite rope_add_view_text.
  set (e0 := mkEscaper [] (repeat (diagnostic.mkTextSpan (-1) (-1)) (List.length viewMarkers))
                       (vbegin view) 0 false).
  destruct (@escapeSteps_text viewMarkers (utf8Decode source view) (vbegin view) e0 []
              (vend view) Htiles (le_n _)) as [_ Htext].
  - cbn [e0 output begin]. rewrite viewToString_empty. reflexivity.
  - exact Htext.
Qed.

(** *** The scan does not depend on the markers *)

Lemma updateMarkers_sameScan viewMarkers p e : sameScan (updateMarkers viewMarkers p e) e.
Proof. repeat split. Qed.

Lemma sameScan_trans e1 e2 e3 : sameScan e1 e2 -> sameScan e2 e3 -> sameScan e1 e3.
Proof. unfold sameScan. intuition congruence. Qed.

Lemma sameScan_sym e1 e2 : sameScan e1 e2 -> sameScan e2 e1.
Proof. unfold sameScan. intuition congruence. Qed.

Lemma addEscaped_sameScan input e e' :
  sameScan e e' -> sameScan (addEscaped source input e) (addEscaped source input e').
Proof.
  intros [Ho [Hb [Hf Hr]]]. unfold addEscaped, sameScan.
  destruct (escapedText (viewToString source input)) as [str sets]. simpl.
  rewrite Ho, Hb, Hf, Hr. repeat split.
Qed.

Lemma escapeStep_sameScan a b e e' d :
  sameScan e e' -> sameScan (escapeStep source a e d) (escapeStep source b e' d).
Proof.
  intros Hsame.
  assert (Hupd : forall p, sameScan (updateMarkers a p e) (updateMarkers b p e')).
  { intros p. eapply sameScan_trans; [apply updateMarkers_sameScan|].
    eapply sameScan_trans; [exact Hsame|]. apply sameScan_sym, updateMarkers_sameScan. }
  destruct d as [input cp|input]; simpl.
  - destruct (isCombiningMark cp || isControl cp || isNonCharacter cp || isSurrogate cp).
    + apply addEscaped_sameScan, Hupd.
    + destruct Hsame as [Ho [Hb [Hf Hr]]].
      destruct (cp_v cp =? 92)%Z; unfold sameScan; simpl; rewrite Ho, Hb, Hf, Hr;
        repeat split.
  - apply addEscaped_sameScan, Hupd.
Qed.

Lemma escapeSteps_sameScan a b items : forall e e',
  sameScan e e' ->
  sameScan (fold_left (escapeStep source a) items e) (fold_left (escapeStep source b) items e').
Proof.
  induction items as [|d items IH]; intros e e' Hsame; simpl; [assumption|].
  apply IH. apply escapeStep_sameScan. assumption.
Qed.

Lemma escapeScan_sameScan view a b :
  sameScan (escapeScan source view a) (escapeScan source view b).
Proof.
  unfold escapeScan.
  match goal with
  | |- sameScan (updateMarkers a _ ?x) (updateMarkers b _ ?y) =>
      assert (Hxy : sameScan x y)
  end.
  { pose proof (@escapeSteps_sameScan a b (utf8Decode source view)
                  (mkEscaper [] (repeat (diagnostic.mkTextSpan (-1) (-1)) (List.length a))
                             (vbegin view) 0 false)
                  (mkEscaper [] (repeat (diagnostic.mkTextSpan (-1) (-1)) (List.length b))
                             (vbegin view) 0 false)) as Hfold.
    destruct Hfold as [Ho [Hb [Hf Hr]]]; [repeat split|].
    unfold sameScan. simpl. rewrite Ho, Hb, Hf, Hr. repeat split. }
  eapply sameScan_trans; [apply updateMarkers_sameScan|].
  eapply sameScan_trans; [exact Hxy|]. apply sameScan_sym, updateMarkers_sameScan.
Qed.

(** X6.  The text that [escapeSourceLine] returns does not depend on the
    markers it is given. *)
Theorem escapeSourceLine_text_independent_of_markers (view : View) (a b : ViewMarkers) :
  escaped (escapeSourceLine source view a) = escaped (escapeSourceLine source view b).
Proof.
  destruct (escapeScan_sameScan view a b) as [Ho [_ [_ Hr]]].
  unfold escapeSourceLine. rewrite Hr.
  destruct (negb (requiresEscapes (escapeScan source view b))); cbn [escaped];
    [reflexivity|].
  rewrite Ho. reflexivity.
Qed.

(** *** Every marker is tracked on its own *)

Lemma updateMarkersLoop_app offset p a b : forall sa sb,
  List.length sa = List.length a ->
  updateMarkersLoop offset p (a ++ b) (sa ++ sb)
  = updateMarkersLoop offset p a sa ++ updateMarkersLoop offset p b sb.
Proof.
  induction a as [|vm a IH]; intros [|m sa] sb Hlen; simpl in *; try discriminate.
  - reflexivity.
  - rewrite IH by lia. reflexivity.
Qed.

Lemma escapeStep_spans_app a b eab ea eb d :
  sameScan eab ea -> sameScan eab eb ->
  spans eab = spans ea ++ spans eb -> List.length (spans ea) = List.length a ->
  spans (escapeStep source (a ++ b) eab d)
  = spans (escapeStep source a ea d) ++ spans (escapeStep source b eb d).
Proof.
  intros [_ [_ [Hfa _]]] [_ [_ [Hfb _]]] Hspans Hlen.
  assert (Hupd : forall p,
             updateMarkersLoop (offset eab) p (a ++ b) (spans eab)
             = updateMarkersLoop (offset ea) p a (spans ea)
               ++ updateMarkersLoop (offset eb) p b (spans eb)).
  { intros p. rewrite Hspans, <- Hfa, <- Hfb. apply updateMarkersLoop_app. assumption. }
  destruct d as [input cp|input]; simpl.
  - destruct (isCombiningMark cp || isControl cp || isNonCharacter cp || isSurrogate cp).
    + rewrite !addEscaped_spans. simpl. apply Hupd.
    + destruct (cp_v cp =? 92)%Z; simpl; apply Hupd.
  - rewrite !addEscaped_spans. simpl. apply Hupd.
Qed.

Lemma escapeSteps_spans_app a b items : forall eab ea eb,
  sameScan eab ea -> sameScan eab eb ->
  spans eab = spans ea ++ spans eb -> List.length (spans ea) = List.length a ->
  spans (fold_left (escapeStep source (a ++ b)) items eab)
  = spans (fold_left (escapeStep source a) items ea)
    ++ spans (fold_left (escapeStep source b) items eb)
  /\ sameScan (fold_left (escapeStep source (a ++ b)) items eab)
              (fold_left (escapeStep source a) items ea)
  /\ sameScan (fold_left (escapeStep source (a ++ b)) items eab)
              (fold_left (escapeStep source b) items eb)
  /\ List.length (spans (fold_left (escapeStep source a) items ea)) = List.length a.
Proof.
  induction items as [|d items IH]; intros eab ea eb Ha Hb Hspans Hlen; simpl.
  - repeat split; try assumption; try apply Ha; try apply Hb.
  - apply IH.
    + apply escapeStep_sameScan; assumption.
    + apply escapeStep_sameScan; assumption.
    + apply escapeStep_spans_app; assumption.
    + rewrite escapeStep_spans_length. assumption.
Qed.

(** X7.  On the escaped return path every marker is tracked on its own:
    the spans returned for a list of markers are the spans returned for
    its front part followed by the spans returned for its back part. *)
Theorem escaped_spans_of_appended_markers (view : View) (a b : ViewMarkers)
  (Hescaped : requiresEscapes (escapeScan source view []) = true) :
  markers (escapeSourceLine source view (a ++ b))
  = markers (escapeSourceLine source view a) ++ markers (escapeSourceLine source view b).
Proof.
  assert (Hreq : forall c, requiresEscapes (escapeScan source view c) = true).
  { intros c. destruct (escapeScan_sameScan view c []) as [_ [_ [_ Hr]]]. congruence. }
  unfold escapeSourceLine. rewrite !Hreq. simpl.
  unfold escapeScan, updateMarkers. cbn [spans offset].
  set (init := fun c : ViewMarkers =>
                 mkEscaper [] (repeat (diagnostic.mkTextSpan (-1) (-1)) (List.length c))
                           (vbegin view) 0 false).
  destruct (@escapeSteps_spans_app a b (utf8Decode source view) (init (a ++ b)) (init a) (init b))
    as [Hspans [[_ [_ [Hfa _]]] [[_ [_ [Hfb _]]] Hlen]]].
  - repeat split.
  - repeat split.
  - unfold init; simpl. rewrite length_app, repeat_app. reflexivity.
  - unfold init; simpl. apply repeat_length.
  - fold (init (a ++ b)) (init a) (init b).
    rewrite Hspans, <- Hfa, <- Hfb. apply updateMarkersLoop_app. assumption.
Qed.

End EscaperText.

Lemma escapeSourceLine_text_witness :
  escaped (escapeSourceLine sourceS2 (mkView 0 5) [mkView 2 3])
  = if forallb (keepsUnescaped sourceS2) (utf8Decode sourceS2 (mkView 0 5))
    then viewToString sourceS2 (mkView 0 5)
    else flat_map (renderItem sourceS2) (utf8Decode sourceS2 (mkView 0 5)).
Proof.
  apply (@escapeSourceLine_text modelStrings sourceS2 (mkView 0 5) [mkView 2 3]).
  simpl. repeat split; lia.
Defined.

Lemma escaped_spans_of_appended_markers_witness :
  markers (escapeSourceLine sourceS2 (mkView 0 5) ([mkView 2 3] ++ [mkView 0 1]))
  = markers (escapeSourceLine sourceS2 (mkView 0 5) [mkView 2 3])
    ++ markers (escapeSourceLine sourceS2 (mkView 0 5) [mkView 0 1]).
Proof.
  apply (@escaped_spans_of_appended_markers modelStrings sourceS2 (mkView 0 5)
           [mkView 2 3] [mkView 0 1]).
  reflexivity.
Defined.

(** *** One marker on the unescaped return path *)

Lemma viewToString_slice source view vm :
  vbegin view <= vbegin vm -> vend vm <= vend view ->
  firstn (byteCount vm) (skipn (vbegin vm - vbegin view) (viewToString source view))
  = viewToString source vm.
Proof.
  intros Hb He. unfold viewToString, byteCount.
  rewrite skipn_firstn_comm, skipn_skipn, firstn_firstn.
  replace (vbegin vm - vbegin view + vbegin view) with (vbegin vm) by lia.
  replace (Nat.min (vend vm - vbegin vm) (vend view - vbegin view - (vbegin vm - vbegin view)))
    with (vend vm - vbegin vm) by lia.
  reflexivity.
Qed.

(** X8.  Round trip for one marker on the unescaped return path: when no
    decoded item sets [requiresEscapes] and the marker lies within the
    view, the span returned for it is its offset in the view and its byte
    count, and the returned text sliced at that span is the bytes of the
    marker. *)
Theorem unescaped_single_marker_round_trip `{StringsLayer} (source : String)
  (view vm : View)
  (Hitems : forallb (keepsUnescaped source) (utf8Decode source view) = true)
  (Hwithin : markerWithin view vm) :
  markers (escapeSourceLine source view [vm])
  = [diagnostic.mkTextSpan (Z.of_nat (vbegin vm) - Z.of_nat (vbegin view))
                           (Z.of_nat (byteCount vm))]
  /\ forall m, In m (markers (escapeSourceLine source view [vm])) ->
               slice (escaped (escapeSourceLine source view [vm])) m
               = viewToString source vm.
Proof.
  destruct Hwithin as [Hb [_ He]].
  assert (Hmarkers : markers (escapeSourceLine source view [vm])
                     = [diagnostic.mkTextSpan (Z.of_nat (vbegin vm) - Z.of_nat (vbegin view))
                                              (Z.of_nat (byteCount vm))]).
  { pose proof (escapeSourceLine_markers_length source view [vm]) as Hlen.
    unfold escapeSourceLine in *.
    rewrite escapeScan_requiresEscapes, Hitems in *. cbn [negb markers] in *.
    cbn [unescapedMarkers] in *.
    destruct (spans (escapeScan source view [vm])) as [|m0 [|m1 rest]];
      simpl in Hlen; try discriminate.
    reflexivity. }
  split; [exact Hmarkers|].
  intros m Hin. rewrite Hmarkers in Hin. destruct Hin as [<-|[]].
  unfold escapeSourceLine. rewrite escapeScan_requiresEscapes, Hitems.
  cbn [negb escaped]. unfold slice. cbn [diagnostic.start diagnostic.length].
  rewrite Nat2Z.id.
  replace (Z.to_nat (Z.of_nat (vbegin vm) - Z.of_nat (vbegin view)))
    with (vbegin vm - vbegin view) by lia.
  apply viewToString_slice; assumption.
Qed.

Lemma unescaped_single_marker_round_trip_witness :
  markers (escapeSourceLine sourceAbcd (mkView 0 4) [mkView 1 3])
  = [diagnostic.mkTextSpan (Z.of_nat 1 - Z.of_nat 0) (Z.of_nat (byteCount (mkView 1 3)))]
  /\ forall m, In m (markers (escapeSourceLine sourceAbcd (mkView 0 4) [mkView 1 3])) ->
               slice (escaped (escapeSourceLine sourceAbcd (mkView 0 4) [mkView 1 3])) m
               = viewToString sourceAbcd (mkView 1 3).
Proof.
  apply (@unescaped_single_marker_round_trip modelStrings sourceAbcd (mkView 0 4) (mkView 1 3)).
  - reflexivity.
  - unfold markerWithin; simpl. lia.
Defined.

(** X9.  [escapeSourceLine] hands back exactly one span for every marker
    it is given, on either return path. *)
Theorem escapeSourceLine_one_span_per_marker `{StringsLayer} (source : String)
  (view : View) (viewMarkers : ViewMarkers) :
  List.length (markers (escapeSourceLine source view viewMarkers))
  = List.length viewMarkers.
Proof. apply escapeSourceLine_markers_length. Qed.

(** ** The spans of the markers *)

Lemma find_snoc {A : Type} (f : A -> bool) (x : A) : forall l,
  find f (l ++ [x])
  = match find f l with
    | Some y => Some y
    | None => if f x then Some x else None
    end.
Proof.
  induction l as [|a l IH]; simpl; [reflexivity|].
  destruct (f a); [reflexivity|exact IH].
Qed.

Lemma StronglySorted_snoc {A : Type} (R : A -> A -> Prop) (y : A) : forall l,
  StronglySorted R l -> Forall (fun x => R x y) l -> StronglySorted R (l ++ [y]).
Proof.
  induction l as [|a l IH]; intros Hs Hall; simpl.
  - constructor; constructor.
  - inversion Hs; subst. inversion Hall; subst. constructor.
    + apply IH; assumption.
    + apply Forall_app. split; [assumption|]. constructor; [assumption|constructor].
Qed.

Lemma callsUpTo_snoc calls offset offset' p :
  callsUpTo calls offset -> (0 <= offset <= offset')%Z ->
  callsUpTo (calls ++ [(p, offset)]) offset'.
Proof.
  intros [Hs Hall] Hoff. split.
  - apply StronglySorted_snoc; [assumption|].
    eapply Forall_impl; [|exact Hall]. simpl. intros c Hc. lia.
  - apply Forall_app. split.
    + eapply Forall_impl; [|exact Hall]. simpl. intros c Hc. lia.
    + constructor; [simpl; lia|constructor].
Qed.

(** In calls whose offsets do not decrease, the first call that passes a
    test comes no later than the first call that passes a stronger
    test. *)
Lemma find_sorted_le (f g : nat * Z -> bool) : forall calls c0 c1,
  StronglySorted (fun a b => (snd a <= snd b)%Z) calls ->
  (forall c, f c = true -> g c = true) ->
  find g calls = Some c0 -> find f calls = Some c1 -> (snd c0 <= snd c1)%Z.
Proof.
  induction calls as [|c calls IH]; intros c0 c1 Hs Hfg Hg Hf; simpl in *; [discriminate|].
  inversion Hs as [|? ? Hs' Hall]; subst.
  destruct (g c) eqn:Hgc.
  - inversion Hg; subst. destruct (f c0) eqn:Hfc.
    + inversion Hf; subst. lia.
    + apply find_some in Hf. destruct Hf as [Hin _].
      rewrite Forall_forall in Hall. apply Hall. assumption.
  - destruct (f c) eqn:Hfc.
    + apply Hfg in Hfc. congruence.
    + eapply IH; eassumption.
Qed.

Lemma offsetAt_snoc calls p q offset :
  offsetAt (calls ++ [(q, offset)]) p
  = match offsetAt calls p with
    | Some o => Some o
    | None => if (p <=? q)%nat then Some offset else None
    end.
Proof.
  unfold offsetAt. rewrite find_snoc. simpl.
  destruct (find (fun c => (p <=? fst c)%nat) calls); simpl; [reflexivity|].
  destruct (p <=? q)%nat; reflexivity.
Qed.

Lemma offsetAt_bounds calls offset p o :
  callsUpTo calls offset -> offsetAt calls p = Some o -> (0 <= o <= offset)%Z.
Proof.
  intros [_ Hall] Ho. unfold offsetAt in Ho.
  destruct (find (fun c => (p <=? fst c)%nat) calls) as [c|] eqn:Hfind; [|discriminate].
  simpl in Ho. inversion Ho; subst.
  apply find_some in Hfind. destruct Hfind as [Hin _].
  rewrite Forall_forall in Hall. apply Hall. assumption.
Qed.

(** The scan reaches the begin of a well-formed marker no later than its
    end. *)
Lemma offsetAt_begin_end calls offset vm e :
  callsUpTo calls offset -> wellFormed vm -> offsetAt calls (vend vm) = Some e ->
  exists s, offsetAt calls (vbegin vm) = Some s /\ (0 <= s <= e)%Z.
Proof.
  intros Hcalls Hwf He. pose proof Hcalls as [Hs Hall]. unfold offsetAt in *.
  destruct (find (fun c => (vend vm <=? fst c)%nat) calls) as [c1|] eqn:H1; [|discriminate].
  simpl in He. inversion He; subst.
  destruct (find (fun c => (vbegin vm <=? fst c)%nat) calls) as [c0|] eqn:H0.
  - exists (snd c0). split; [reflexivity|]. split.
    + apply find_some in H0. destruct H0 as [Hin _].
      rewrite Forall_forall in Hall. apply (Hall _ Hin).
    + apply (@find_sorted_le (fun c => (vend vm <=? fst c)%nat)
               (fun c => (vbegin vm <=? fst c)%nat) calls c0 c1); try assumption.
      intros c Hc. apply Nat.leb_le in Hc. apply Nat.leb_le. unfold wellFormed in Hwf. lia.
  - exfalso. apply find_some in H1. destruct H1 as [Hin Hc].
    pose proof (find_none _ _ H0 _ Hin) as Hn. simpl in Hn.
    apply Nat.leb_le in Hc. apply Nat.leb_gt in Hn. unfold wellFormed in Hwf. lia.
Qed.

(** One call of [updateMarkers] takes the span of a well-formed marker
    after the calls so far to its span after one call more. *)
Lemma updateMarker_trackedSpan calls offset p vm :
  callsUpTo calls offset -> wellFormed vm ->
  updateMarker offset p vm (trackedSpan calls vm)
  = trackedSpan (calls ++ [(p, offset)]) vm.
Proof.
  intros Hcalls Hwf. unfold trackedSpan. rewrite !offsetAt_snoc.
  destruct (offsetAt calls (vend vm)) as [e|] eqn:He.
  - destruct (offsetAt_begin_end Hcalls Hwf He) as [s [Hs Hse]]. rewrite Hs.
    unfold updateMarker. cbn [diagnostic.start diagnostic.length].
    destruct (Z.eqb_spec s (-1)) as [Heq|_]; [lia|].
    rewrite andb_false_r. cbn [diagnostic.start diagnostic.length].
    destruct (Z.eqb_spec (e - s) (-1)) as [Heq|_]; [lia|].
    rewrite andb_false_r. reflexivity.
  - destruct (offsetAt calls (vbegin vm)) as [s|] eqn:Hs.
    + pose proof (offsetAt_bounds _ Hcalls Hs) as Hbound.
      unfold updateMarker. cbn [diagnostic.start diagnostic.length].
      destruct (Z.eqb_spec s (-1)) as [Heq|_]; [lia|].
      rewrite andb_false_r. cbn [diagnostic.start diagnostic.length].
      rewrite andb_true_r. destruct (vend vm <=? p)%nat; reflexivity.
    + unfold updateMarker. cbn [diagnostic.start diagnostic.length].
      rewrite !andb_true_r.
      destruct (Nat.leb_spec (vbegin vm) p) as [Hb|Hb];
        cbn [diagnostic.start diagnostic.length]; rewrite ?andb_true_r.
      * destruct (vend vm <=? p)%nat; [|reflexivity].
        rewrite Z.sub_diag. reflexivity.
      * destruct (Nat.leb_spec (vend vm) p) as [He'|He']; [|reflexivity].
        unfold wellFormed in Hwf. lia.
Qed.

Lemma updateMarkersLoop_trackedSpan calls offset p : forall viewMarkers,
  callsUpTo calls offset -> Forall wellFormed viewMarkers ->
  updateMarkersLoop offset p viewMarkers (map (trackedSpan calls) viewMarkers)
  = map (trackedSpan (calls ++ [(p, offset)])) viewMarkers.
Proof.
  induction viewMarkers as [|vm vms IH]; intros Hcalls Hwf; simpl; [reflexivity|].
  inversion Hwf; subst.
  rewrite updateMarker_trackedSpan by assumption. rewrite IH by assumption. reflexivity.
Qed.

Lemma assign_twice x y : forall ms, assign 0 y (assign 0 x ms) = assign 0 y ms.
Proof. intros [|m ms]; reflexivity. Qed.

(** The loop of the unescaped return path writes the first span only, and
    leaves in it the raw span of the last marker. *)
Lemma unescapedMarkers_last view : forall viewMarkers vm ms,
  unescapedMarkers 0 view (vm :: viewMarkers) ms
  = assign 0 (rawSpan view (last (vm :: viewMarkers) (mkView 0 0))) ms.
Proof.
  induction viewMarkers as [|vm' vms IH]; intros vm ms.
  - reflexivity.
  - change (unescapedMarkers 0 view (vm :: vm' :: vms) ms)
      with (unescapedMarkers 0 view (vm' :: vms) (assign 0 (rawSpan view vm) ms)).
    rewrite IH, assign_twice. reflexivity.
Qed.

Section ReturnedSpans.

Context `{StringsLayer}.
Variable source : String.

Lemma itemWidth_nonneg d : (0 <= itemWidth source d)%Z.
Proof.
  destruct d as [input cp|input]; simpl; [|lia].
  destruct (isCombiningMark cp || isControl cp || isNonCharacter cp || isSurrogate cp);
    [lia|]. destruct (cp_v cp =? 92)%Z; lia.
Qed.

Lemma addEscaped_offset input e :
  offset (addEscaped source input e)
  = (offset e + Z.of_nat (List.length (fst (escapedText (viewToString source input)))))%Z.
Proof.
  unfold addEscaped. destruct (escapedText (viewToString source input)); reflexivity.
Qed.

Lemma escapeStep_spans viewMarkers e d :
  spans (escapeStep source viewMarkers e d)
  = updateMarkersLoop (offset e) (vbegin (itemInput d)) viewMarkers (spans e).
Proof.
  destruct d as [input cp|input]; simpl.
  - destruct (isCombiningMark cp || isControl cp || isNonCharacter cp || isSurrogate cp).
    + rewrite addEscaped_spans. reflexivity.
    + destruct (cp_v cp =? 92)%Z; reflexivity.
  - rewrite addEscaped_spans. reflexivity.
Qed.

Lemma escapeStep_offset viewMarkers e d :
  offset (escapeStep source viewMarkers e d) = (offset e + itemWidth source d)%Z.
Proof.
  destruct d as [input cp|input]; simpl.
  - destruct (isCombiningMark cp || isControl cp || isNonCharacter cp || isSurrogate cp).
    + rewrite addEscaped_offset. reflexivity.
    + destruct (cp_v cp =? 92)%Z; simpl; lia.
  - rewrite addEscaped_offset. reflexivity.
Qed.

Lemma escapeSteps_trackedSpan viewMarkers viewEnd (Hwf : Forall wellFormed viewMarkers) :
  forall items e calls,
    (0 <= offset e)%Z -> callsUpTo calls (offset e) ->
    spans e = map (trackedSpan calls) viewMarkers ->
    updateMarkersLoop (offset (fold_left (escapeStep source viewMarkers) items e)) viewEnd
                      viewMarkers
                      (spans (fold_left (escapeStep source viewMarkers) items e))
    = map (trackedSpan (calls ++ markerCalls source items (offset e) viewEnd)) viewMarkers.
Proof.
  induction items as [|d items IH]; intros e calls Hoff Hcalls Hspans; simpl.
  - rewrite Hspans. apply updateMarkersLoop_trackedSpan; assumption.
  - pose proof (itemWidth_nonneg d) as Hwidth.
    rewrite (IH (escapeStep source viewMarkers e d)
                (calls ++ [(vbegin (itemInput d), offset e)])).
    + rewrite escapeStep_offset, <- app_assoc. reflexivity.
    + rewrite escapeStep_offset. lia.
    + rewrite escapeStep_offset. apply callsUpTo_snoc; [assumption|lia].
    + rewrite escapeStep_spans, Hspans.
      apply updateMarkersLoop_trackedSpan; assumption.
Qed.

Lemma repeat_map_const {A B : Type} (x : B) (f : A -> B) : forall l : list A,
  (forall a, f a = x) -> repeat x (List.length l) = map f l.
Proof.
  induction l as [|a l IH]; intros Hf; simpl; [reflexivity|].
  rewrite Hf, IH by assumption. reflexivity.
Qed.

(** The spans at the end of the scan: every well-formed marker has its
    span in the rendered text. *)
Lemma escapeScan_spans view viewMarkers :
  Forall wellFormed viewMarkers ->
  spans (escapeScan source view viewMarkers)
  = map (trackedSpan (markerCalls source (utf8Decode source view) 0 (vend view)))
        viewMarkers.
Proof.
  intros Hwf. unfold escapeScan, updateMarkers. cbn [spans offset].
  apply (@escapeSteps_trackedSpan viewMarkers (vend view) Hwf (utf8Decode source view)
           (mkEscaper [] (repeat (diagnostic.mkTextSpan (-1) (-1)) (List.length viewMarkers))
                      (vbegin view) 0 false) []).
  - simpl. lia.
  - split; constructor.
  - simpl. apply repeat_map_const. reflexivity.
Qed.

(** The spans that [escapeSourceLine] returns for well-formed markers, on
    either return path. *)
Lemma escapeSourceLine_spans view viewMarkers :
  Forall wellFormed viewMarkers ->
  markers (escapeSourceLine source view viewMarkers)
  = returnedSpans source view viewMarkers.
Proof.
  intros Hwf. unfold escapeSourceLine, returnedSpans.
  rewrite escapeScan_requiresEscapes, negb_involutive, escapeScan_spans by assumption.
  destruct (forallb (keepsUnescaped source) (utf8Decode source view)); simpl; [|reflexivity].
  destruct viewMarkers as [|vm vms]; [reflexivity|].
  rewrite unescapedMarkers_last. reflexivity.
Qed.

End ReturnedSpans.

(** ** The dispatcher *)

Lemma forEachTokens_In ts : forall ti x,
  In x (forEachTokens ti ts)
  <-> exists k t, x = VisitToken (ti + k) t /\ nth_error ts k = Some t.
Proof.
  induction ts as [|t0 ts IH]; intros ti x; simpl.
  - split; [intros []|]. intros [k [t [_ Hnth]]]. destruct k; discriminate.
  - rewrite IH. split.
    + intros [<-|[k [t [-> Hnth]]]].
      * exists 0, t0. rewrite Nat.add_0_r. split; reflexivity.
      * exists (S k), t. rewrite Nat.add_succ_r. split; [reflexivity|assumption].
    + intros [[|k] [t [-> Hnth]]]; simpl in Hnth.
      * inversion Hnth; subst. left. rewrite Nat.add_0_r. reflexivity.
      * right. exists k, t. rewrite Nat.add_succ_r. split; [reflexivity|assumption].
Qed.

Lemma forEachInsignificants_In ins : forall ii x,
  In x (forEachInsignificants ii ins)
  <-> exists k i, x = VisitInsignificant (ii + k) i /\ nth_error ins k = Some i.
Proof.
  induction ins as [|i0 ins IH]; intros ii x; simpl.
  - split; [intros []|]. intros [k [i [_ Hnth]]]. destruct k; discriminate.
  - rewrite IH. split.
    + intros [<-|[k [i [-> Hnth]]]].
      * exists 0, i0. rewrite Nat.add_0_r. split; reflexivity.
      * exists (S k), i. rewrite Nat.add_succ_r. split; [reflexivity|assumption].
    + intros [[|k] [i [-> Hnth]]]; simpl in Hnth.
      * inversion Hnth; subst. left. rewrite Nat.add_0_r. reflexivity.
      * right. exists k, i. rewrite Nat.add_succ_r. split; [reflexivity|assumption].
Qed.

(** A visit of [forEach] is the visit of a token of the line at its index
    or of an insignificant of the line at its index. *)
Lemma forEach_In bl x :
  In x (forEach bl)
  <-> (exists k t, x = VisitToken k t /\ nth_error (tokens bl) k = Some t)
      \/ (exists k i, x = VisitInsignificant k i /\ nth_error (insignificants bl) k = Some i).
Proof.
  unfold forEach. split.
  - intros Hin.
    apply (Permutation_in _ (forEachFrom_permutation (tokens bl) 0 0 (insignificants bl)))
      in Hin.
    apply in_app_or in Hin. destruct Hin as [Hin|Hin].
    + left. apply forEachTokens_In in Hin. exact Hin.
    + right. apply forEachInsignificants_In in Hin. exact Hin.
  - intros Hx.
    apply (Permutation_in _ (Permutation_sym
             (forEachFrom_permutation (tokens bl) 0 0 (insignificants bl)))).
    apply in_or_app. destruct Hx as [Hx|Hx].
    + left. apply forEachTokens_In. exact Hx.
    + right. apply forEachInsignificants_In. exact Hx.
Qed.

Section Dispatcher.

Context `{StringsLayer}.
Variable source : String.

(** X11.  [reportLineErrors] changes nothing of a line but [isTainted]
    flags of insignificants, and only from unset to set: the tokens are
    left as they are, and every insignificant is found at its index either
    as it was or as it was with its flag set. *)
Theorem reportLineErrors_only_sets_flags (bl : BlockLine) :
  tokens (fst (reportLineErrors source bl)) = tokens bl
  /\ List.length (insignificants (fst (reportLineErrors source bl)))
     = List.length (insignificants bl)
  /\ forall j i, nth_error (insignificants bl) j = Some i ->
       nth_error (insignificants (fst (reportLineErrors source bl))) j = Some i
       \/ nth_error (insignificants (fst (reportLineErrors source bl))) j
          = Some (taintInsignificant i).
Proof.
  unfold reportLineErrors.
  destruct (reportVisits_later source (forEach bl) bl) as [Htok Hins].
  split; [exact Htok|]. split.
  - symmetry. eapply Forall2_length. exact Hins.
  - intros j i Hi.
    destruct (Forall2_taintedSince_nth_error Hins _ Hi) as [i' [Hi' [->| ->]]]; auto.
Qed.

Lemma reportVisits_all_silent visits : forall bl,
  (forall x, In x visits -> visitReportable bl x = false) ->
  reportVisits source bl visits = (bl, []).
Proof.
  induction visits as [|x visits IH]; intros bl Hall; simpl; [reflexivity|].
  rewrite (reportVisit_silent source bl x (Hall x (or_introl eq_refl))).
  rewrite IH; [reflexivity|]. intros y Hy. apply Hall. right. assumption.
Qed.

(** X12.  [reportLineErrors] emits no diagnostic exactly when every token
    and every insignificant of the line is stopped by the short-circuit of
    its reporter (it is tainted, it has no errors, or its kind has no
    reporter); the call then leaves the line as it is. *)
Theorem reportLineErrors_silent_iff (bl : BlockLine) :
  (snd (reportLineErrors source bl) = []
   <-> (forall t, In t (tokens bl) -> tokenReportable t = false)
       /\ (forall i, In i (insignificants bl) -> insignificantReportable i = false))
  /\ (snd (reportLineErrors source bl) = [] -> fst (reportLineErrors source bl) = bl).
Proof.
  unfold reportLineErrors. split; [split|].
  - intros Hsilent. split.
    + intros t Hin. destruct (tokenReportable t) eqn:Hr; [exfalso|reflexivity].
      apply In_nth_error in Hin. destruct Hin as [k Hk].
      eapply reportVisits_reports; [| |exact Hsilent].
      * apply forEach_In. left. exists k, t. split; [reflexivity|exact Hk].
      * exact Hr.
    + intros i Hin. destruct (insignificantReportable i) eqn:Hr; [exfalso|reflexivity].
      apply In_nth_error in Hin. destruct Hin as [k Hk].
      eapply reportVisits_reports; [| |exact Hsilent].
      * apply forEach_In. right. exists k, i. split; [reflexivity|exact Hk].
      * simpl. rewrite Hk. exact Hr.
  - intros [Htokens Hins]. rewrite reportVisits_all_silent; [reflexivity|].
    intros x Hx. apply forEach_In in Hx.
    destruct Hx as [[k [t [-> Hk]]]|[k [i [-> Hk]]]]; simpl.
    + apply Htokens. eapply nth_error_In; eassumption.
    + rewrite Hk. apply Hins. eapply nth_error_In; eassumption.
  - apply reportVisits_silent.
Qed.

Lemma tokenReportable_tainted t : tokenTainted t = true -> tokenReportable t = false.
Proof. destruct t; simpl; intros Ht; rewrite ?Ht; reflexivity. Qed.

Lemma reportedFor_token_tainted k t visits : forall bl,
  tokenTainted t = true ->
  (forall t', In (VisitToken k t') visits -> t' = t) ->
  reportedFor source (TokenAt k) bl visits = [].
Proof.
  induction visits as [|x visits IH]; intros bl Ht Hvalid; simpl; [reflexivity|].
  destruct (sameElement (visitElement x) (TokenAt k)) eqn:Hsame.
  - apply sameElement_eq in Hsame.
    destruct x as [ti t'|ii i]; simpl in Hsame; [|discriminate].
    inversion Hsame; subst ti.
    rewrite (Hvalid t' (or_introl eq_refl)).
    simpl. rewrite (reportToken_silent source bl k t (tokenReportable_tainted t Ht)).
    simpl. apply IH; [assumption|]. intros t'' Hin. apply Hvalid. right. assumption.
  - destruct (reportVisit source bl x) as [bl1 r1]. simpl.
    apply IH; [assumption|]. intros t'' Hin. apply Hvalid. right. assumption.
Qed.

(** X13.  Nothing is emitted on behalf of an element whose [isTainted]
    flag is set when [reportLineErrors] is called, be it a token or an
    insignificant. *)
Theorem tainted_element_not_reported (bl : BlockLine) (e : Element)
  (Htainted : elementTainted bl e) :
  reportedOnBehalf source bl e = [].
Proof.
  unfold reportedOnBehalf. destruct e as [k|j]; simpl in Htainted.
  - destruct Htainted as [t [Hk Ht]].
    apply (@reportedFor_token_tainted k t); [assumption|].
    intros t' Hin. apply forEach_In in Hin.
    destruct Hin as [[k' [t'' [Heq Hk']]]|[k' [i [Heq _]]]]; [|discriminate].
    inversion Heq; subst. congruence.
  - apply reportedFor_tainted. assumption.
Qed.

(** ** The newline reporter *)

Lemma reportDecodeErrorMarkers_code line tokenLines viewMarkers :
  codeNumbers (reportDecodeErrorMarkers source line tokenLines viewMarkers) = [1%Z]
  /\ Forall (fun d => originLines d = [line])
            (reportDecodeErrorMarkers source line tokenLines viewMarkers).
Proof. split; [reflexivity|]. repeat constructor. Qed.

(** X14.  The diagnostics of [reportNewline]: none for a tainted newline;
    otherwise a code 1 diagnostic if the newline has a decode error,
    followed by a code 3 diagnostic if it has a mixed indentation
    character; every block of them has the line before the newline's as
    origin line. *)
Theorem reportNewline_codes (bl : BlockLine) (tok : Element)
  (nli : TokenOf (LiteralValue NewLineError)) :
  codeNumbers (snd (reportNewline source bl tok nli))
  = (if isTainted nli then []
     else match decodedErrorInputs (errors (value nli)) with
          | [] => []
          | _ :: _ => [1%Z]
          end
          ++ match mixedIndentInputs (errors (value nli)) with
             | [] => []
             | _ :: _ => [3%Z]
             end)
  /\ Forall (fun d => originLines d = [(line (position nli) - 1)%Z])
            (snd (reportNewline source bl tok nli)).
Proof.
  unfold reportNewline. destruct (isTainted nli); simpl; [split; [reflexivity|constructor]|].
  destruct (hasErrors (value nli)) eqn:Hhas; simpl.
  2:{ unfold hasErrors in Hhas.
      destruct (errors (value nli)); [|discriminate].
      split; [reflexivity|constructor]. }
  clear Hhas.
  destruct (reportNewlineDecodeErrors_eq source bl tok nli
              (extractViewLines source bl (input nli))) as [[-> Hd]|[vm [Hd ->]]];
    match goal with
    | |- context [reportNewlineMixedIndent source ?b tok nli ?tl] =>
        destruct (reportNewlineMixedIndent_eq source b tok nli tl)
          as [[-> Hm]|[d [Hm Heq]]]
    end.
  - rewrite Hd, Hm. split; [reflexivity|constructor].
  - rewrite Hd. unfold reportNewlineMixedIndent in *.
    destruct (mixedIndentInputs (errors (value nli))) as [|m ms]; [congruence|].
    match goal with
    | |- context [insignificantsLoop ?f 0 ?l ?v] => destruct (insignificantsLoop f 0 l v)
    end.
    split; [reflexivity|repeat constructor].
  - rewrite Hm.
    destruct (decodedErrorInputs (errors (value nli))) as [|m ms]; [congruence|].
    split; [reflexivity|repeat constructor].
  - unfold reportNewlineMixedIndent in *.
    destruct (mixedIndentInputs (errors (value nli))) as [|m ms]; [congruence|].
    destruct (decodedErrorInputs (errors (value nli))) as [|m' ms']; [congruence|].
    match goal with
    | |- context [insignificantsLoop ?f 0 ?l ?v] => destruct (insignificantsLoop f 0 l v)
    end.
    split; [reflexivity|repeat constructor].
Qed.

End Dispatcher.

Lemma tainted_element_not_reported_witness :
  reportedOnBehalf sourceStray lineStrayTainted (InsignificantAt 0) = [].
Proof.
  apply (@tainted_element_not_reported modelStrings sourceStray lineStrayTainted
           (InsignificantAt 0)).
  simpl. eexists. split; reflexivity.
Defined.

(** ** Number and operator literals *)

Lemma existsb_Zeqb_In k seen : existsb (Z.eqb k) seen = true <-> In k seen.
Proof.
  rewrite existsb_exists. split.
  - intros [x [Hin Heq]]. apply Z.eqb_eq in Heq. subst. assumption.
  - intros Hin. exists k. split; [assumption|apply Z.eqb_refl].
Qed.

Lemma firstOfIndex_In {E : Type} (index : E -> Z) errs : forall seen f,
  In f (firstOfIndex index seen errs) -> In f errs /\ ~ In (index f) seen.
Proof.
  induction errs as [|err errs IH]; intros seen f; simpl; [intros []|].
  destruct (existsb (Z.eqb (index err)) seen) eqn:Hseen.
  - intros Hin. destruct (IH _ _ Hin). split; [right|]; assumption.
  - intros [<-|Hin].
    + split; [left; reflexivity|]. intros Hin. apply existsb_Zeqb_In in Hin. congruence.
    + destruct (IH _ _ Hin) as [Hf Hnot]. split; [right; assumption|].
      intros Hs. apply Hnot. right. assumption.
Qed.

Lemma firstOfIndex_NoDup {E : Type} (index : E -> Z) errs : forall seen,
  NoDup (map index (firstOfIndex index seen errs)).
Proof.
  induction errs as [|err errs IH]; intros seen; simpl; [constructor|].
  destruct (existsb (Z.eqb (index err)) seen); [apply IH|].
  simpl. constructor; [|apply IH].
  intros Hin. apply in_map_iff in Hin. destruct Hin as [f [Heq Hf]].
  apply firstOfIndex_In in Hf. destruct Hf as [_ Hnot]. apply Hnot. left. congruence.
Qed.

(** Every alternative among the errors that has not been met before has
    its first error in the result. *)
Lemma firstOfIndex_complete {E : Type} (index : E -> Z) errs : forall seen e,
  In e errs -> ~ In (index e) seen ->
  exists f, In f (firstOfIndex index seen errs) /\ index f = index e.
Proof.
  induction errs as [|err errs IH]; intros seen e; simpl; [intros []|].
  intros [->|Hin] Hnot.
  - destruct (existsb (Z.eqb (index e)) seen) eqn:Hseen.
    + apply existsb_Zeqb_In in Hseen. contradiction.
    + exists e. split; [left|]; reflexivity.
  - destruct (existsb (Z.eqb (index err)) seen) eqn:Hseen.
    + apply IH; assumption.
    + destruct (Z.eq_dec (index err) (index e)) as [Heq|Hne].
      * exists err. split; [left; reflexivity|assumption].
      * destruct (IH (index err :: seen) e Hin) as [f [Hf Hidx]].
        { intros [Hs|Hs]; [congruence|contradiction]. }
        exists f. split; [right; assumption|assumption].
Qed.

Lemma number_bitset_set_test bits a b :
  bitset_test (bitset_set bits (numberErrorIndex a)) (numberErrorIndex b)
  = (numberErrorIndex b =? numberErrorIndex a)%Z || bitset_test bits (numberErrorIndex b).
Proof.
  unfold bitset_test, bitset_set. rewrite Z.lor_spec.
  destruct a, b; simpl; try apply orb_comm; rewrite orb_false_r; reflexivity.
Qed.

Lemma operator_bitset_set_test bits a b :
  bitset_test (bitset_set bits (operatorErrorIndex a)) (operatorErrorIndex b)
  = (operatorErrorIndex b =? operatorErrorIndex a)%Z
    || bitset_test bits (operatorErrorIndex b).
Proof.
  unfold bitset_test, bitset_set. rewrite Z.lor_spec.
  destruct a, b; simpl; try apply orb_comm; rewrite orb_false_r; reflexivity.
Qed.

Section Literals.

Context `{StringsLayer}.
Variable source : String.

Lemma numberErrorDiagnostic_shape err line tokenLines viewMarkers :
  exists d, numberErrorDiagnostic source err line tokenLines viewMarkers = [d]
            /\ diagnostic.number (diagnostic.code d) = numberErrorCode err
            /\ List.length (diagnostic.spansOf d) = List.length viewMarkers.
Proof.
  destruct err; simpl;
    (eexists; split; [reflexivity|]; split; [reflexivity|];
     rewrite spansOf_lexerDiagnostic; apply escapeSourceLine_markers_length).
Qed.

Lemma numberErrorDiagnostic_spans err line tokenLines viewMarkers :
  map diagnostic.spansOf (numberErrorDiagnostic source err line tokenLines viewMarkers)
  = [markers (escapeSourceLine source tokenLines viewMarkers)].
Proof.
  destruct err; simpl; unfold reportDecodeErrorMarkers;
    rewrite ?spansOf_lexerDiagnostic; reflexivity.
Qed.

Lemma operatorErrorDiagnostic_shape err line tokenLines viewMarkers :
  exists d, operatorErrorDiagnostic source err line tokenLines viewMarkers = [d]
            /\ diagnostic.number (diagnostic.code d) = operatorErrorCode err
            /\ List.length (diagnostic.spansOf d) = List.length viewMarkers.
Proof.
  destruct err; simpl;
    (eexists; split; [reflexivity|]; split; [reflexivity|];
     rewrite spansOf_lexerDiagnostic; apply escapeSourceLine_markers_length).
Qed.

Lemma operatorErrorDiagnostic_spans err line tokenLines viewMarkers :
  map diagnostic.spansOf (operatorErrorDiagnostic source err line tokenLines viewMarkers)
  = [markers (escapeSourceLine source tokenLines viewMarkers)].
Proof.
  destruct err; simpl; unfold reportDecodeErrorMarkers;
    rewrite ?spansOf_lexerDiagnostic; reflexivity.
Qed.

Lemma reportNumberErrors_firstOfIndex line tokenLines all rest : forall bits seen,
  (forall e, bitset_test bits (numberErrorIndex e)
             = existsb (Z.eqb (numberErrorIndex e)) seen) ->
  reportNumberErrors source line tokenLines all rest bits
  = flat_map (fun err => numberErrorDiagnostic source err line tokenLines
                           (map numberErrorInput (errorsOfIndex numberErrorIndex err all)))
             (firstOfIndex numberErrorIndex seen rest).
Proof.
  induction rest as [|err rest IH]; intros bits seen Hbits; simpl; [reflexivity|].
  rewrite Hbits.
  destruct (existsb (Z.eqb (numberErrorIndex err)) seen) eqn:Hseen.
  - apply IH. assumption.
  - simpl. f_equal. apply IH.
    intros e. rewrite number_bitset_set_test, Hbits. reflexivity.
Qed.

Lemma reportOperatorErrors_firstOfIndex line tokenLines all rest : forall bits seen,
  (forall e, bitset_test bits (operatorErrorIndex e)
             = existsb (Z.eqb (operatorErrorIndex e)) seen) ->
  reportOperatorErrors source line tokenLines all rest bits
  = flat_map (fun err => operatorErrorDiagnostic source err line tokenLines
                           (map operatorErrorInput
                                (errorsOfIndex operatorErrorIndex err all)))
             (firstOfIndex operatorErrorIndex seen rest).
Proof.
  induction rest as [|err rest IH]; intros bits seen Hbits; simpl; [reflexivity|].
  rewrite Hbits.
  destruct (existsb (Z.eqb (operatorErrorIndex err)) seen) eqn:Hseen.
  - apply IH. assumption.
  - simpl. f_equal. apply IH.
    intros e. rewrite operator_bitset_set_test, Hbits. reflexivity.
Qed.

Lemma number_codes line tokenLines all firsts :
  codeNumbers (flat_map (fun err => numberErrorDiagnostic source err line tokenLines
                           (map numberErrorInput (errorsOfIndex numberErrorIndex err all)))
                        firsts)
  = map numberErrorCode firsts
  /\ map (fun d => List.length (diagnostic.spansOf d))
         (flat_map (fun err => numberErrorDiagnostic source err line tokenLines
                           (map numberErrorInput (errorsOfIndex numberErrorIndex err all)))
                   firsts)
     = map (fun err => List.length (errorsOfIndex numberErrorIndex err all)) firsts.
Proof.
  induction firsts as [|err firsts [IHc IHs]]; simpl; [split; reflexivity|].
  destruct (numberErrorDiagnostic_shape err line tokenLines
              (map numberErrorInput (errorsOfIndex numberErrorIndex err all)))
    as [d [Hd [Hcode Hspans]]].
  rewrite Hd; simpl. unfold codeNumbers in *; simpl.
  rewrite IHc, IHs, Hcode, Hspans, length_map. split; reflexivity.
Qed.

Lemma operator_codes line tokenLines all firsts :
  codeNumbers (flat_map (fun err => operatorErrorDiagnostic source err line tokenLines
                           (map operatorErrorInput (errorsOfIndex operatorErrorIndex err all)))
                        firsts)
  = map operatorErrorCode firsts
  /\ map (fun d => List.length (diagnostic.spansOf d))
         (flat_map (fun err => operatorErrorDiagnostic source err line tokenLines
                           (map operatorErrorInput (errorsOfIndex operatorErrorIndex err all)))
                   firsts)
     = map (fun err => List.length (errorsOfIndex operatorErrorIndex err all)) firsts.
Proof.
  induction firsts as [|err firsts [IHc IHs]]; simpl; [split; reflexivity|].
  destruct (operatorErrorDiagnostic_shape err line tokenLines
              (map operatorErrorInput (errorsOfIndex operatorErrorIndex err all)))
    as [d [Hd [Hcode Hspans]]].
  rewrite Hd; simpl. unfold codeNumbers in *; simpl.
  rewrite IHc, IHs, Hcode, Hspans, length_map. split; reflexivity.
Qed.


Lemma wellFormed_errorsOf_number (err : NumberLiteralError) (errs : list NumberLiteralError) :
  Forall (fun e => wellFormed (numberErrorInput e)) errs ->
  Forall wellFormed (map numberErrorInput (errorsOfIndex numberErrorIndex err errs)).
Proof.
  intros Hwf. apply Forall_map. unfold errorsOfIndex.
  rewrite Forall_forall in *. intros e He. apply filter_In in He. apply Hwf, He.
Qed.

Lemma number_spans line tokenLines all firsts :
  Forall (fun e => wellFormed (numberErrorInput e)) all ->
  map diagnostic.spansOf
      (flat_map (fun err => numberErrorDiagnostic source err line tokenLines
                              (map numberErrorInput (errorsOfIndex numberErrorIndex err all)))
                firsts)
  = map (fun err => returnedSpans source tokenLines
                      (map numberErrorInput (errorsOfIndex numberErrorIndex err all)))
        firsts.
Proof.
  intros Hwf. induction firsts as [|err firsts IH]; simpl; [reflexivity|].
  rewrite map_app, numberErrorDiagnostic_spans, IH. simpl.
  rewrite escapeSourceLine_spans by (apply wellFormed_errorsOf_number; assumption).
  reflexivity.
Qed.

Lemma wellFormed_errorsOf_operator (err : OperatorLiteralError) (errs : list OperatorLiteralError) :
  Forall (fun e => wellFormed (operatorErrorInput e)) errs ->
  Forall wellFormed (map operatorErrorInput (errorsOfIndex operatorErrorIndex err errs)).
Proof.
  intros Hwf. apply Forall_map. unfold errorsOfIndex.
  rewrite Forall_forall in *. intros e He. apply filter_In in He. apply Hwf, He.
Qed.

Lemma operator_spans line tokenLines all firsts :
  Forall (fun e => wellFormed (operatorErrorInput e)) all ->
  map diagnostic.spansOf
      (flat_map (fun err => operatorErrorDiagnostic source err line tokenLines
                              (map operatorErrorInput (errorsOfIndex operatorErrorIndex err all)))
                firsts)
  = map (fun err => returnedSpans source tokenLines
                      (map operatorErrorInput (errorsOfIndex operatorErrorIndex err all)))
        firsts.
Proof.
  intros Hwf. induction firsts as [|err firsts IH]; simpl; [reflexivity|].
  rewrite map_app, operatorErrorDiagnostic_spans, IH. simpl.
  rewrite escapeSourceLine_spans by (apply wellFormed_errorsOf_operator; assumption).
  reflexivity.
Qed.

(** X15.  [reportNumberLiteral] leaves the line as it is and emits
    nothing for a tainted literal; otherwise it emits one diagnostic for
    every alternative among the errors of the literal, in the order in
    which the alternatives first occur, each with the code of the
    alternative (1 for a decode error, 20, 21, 22).  The highlights of a
    diagnostic are the spans of the inputs of the errors of its
    alternative, in order: with escapes in the lines of the literal every
    error has its span in the rendered text; without escapes the first
    highlight is the raw span of the last error of the alternative, so
    that of two errors of one alternative the first has no highlight, and
    every other error keeps its span in the rendered text. *)
Theorem reportNumberLiteral_one_diagnostic_per_alternative
  (bl : BlockLine) (nl : TokenOf (LiteralValue NumberLiteralError)) :
  let errs := errors (value nl) in
  let firsts := firstOfIndex numberErrorIndex [] errs in
  let tokenLines := extractViewLines source bl (input nl) in
  let reported := snd (reportNumberLiteral source bl nl) in
  fst (reportNumberLiteral source bl nl) = bl
  /\ NoDup (map numberErrorIndex firsts)
  /\ (forall e, In e errs ->
                exists f, In f firsts /\ numberErrorIndex f = numberErrorIndex e)
  /\ codeNumbers reported = (if isTainted nl then [] else map numberErrorCode firsts)
  /\ map (fun d => List.length (diagnostic.spansOf d)) reported
     = (if isTainted nl then []
        else map (fun err => List.length (errorsOfIndex numberErrorIndex err errs)) firsts)
  /\ (Forall (fun e => wellFormed (numberErrorInput e)) errs ->
      map diagnostic.spansOf reported
      = if isTainted nl then []
        else map (fun err => returnedSpans source tokenLines
                               (map numberErrorInput
                                    (errorsOfIndex numberErrorIndex err errs))) firsts).
Proof.
  intros errs firsts tokenLines reported.
  split; [unfold reportNumberLiteral;
          destruct (isTainted nl || negb (hasErrors (value nl))); reflexivity|].
  split; [apply firstOfIndex_NoDup|].
  split; [intros e He; apply firstOfIndex_complete; [assumption|intros []]|].
  subst reported. unfold reportNumberLiteral.
  destruct (isTainted nl); simpl; [repeat split; reflexivity|].
  destruct (hasErrors (value nl)) eqn:Hhas; simpl.
  - rewrite (@reportNumberErrors_firstOfIndex _ _ _ _ 0%Z [])
      by (intros e; apply Z.testbit_0_l).
    split; [apply number_codes|]. split; [apply number_codes|].
    intros Hwf. apply number_spans. assumption.
  - unfold hasErrors in Hhas. subst firsts errs.
    destruct (errors (value nl)); [repeat split; reflexivity|discriminate].
Qed.

(** X16.  [reportOperatorLiteral] leaves the line as it is and emits
    nothing for a tainted literal; otherwise it emits one diagnostic for
    every alternative among the errors of the literal, in the order in
    which the alternatives first occur, each with the code of the
    alternative (1 for a decode error, 30, 31, 32).  The highlights of a
    diagnostic are the spans of the inputs of the errors of its
    alternative, in order: with escapes in the lines of the literal every
    error has its span in the rendered text; without escapes the first
    highlight is the raw span of the last error of the alternative, so
    that of two errors of one alternative the first has no highlight, and
    every other error keeps its span in the rendered text. *)
Theorem reportOperatorLiteral_one_diagnostic_per_alternative
  (bl : BlockLine) (ol : TokenOf (LiteralValue OperatorLiteralError)) :
  let errs := errors (value ol) in
  let firsts := firstOfIndex operatorErrorIndex [] errs in
  let tokenLines := extractViewLines source bl (input ol) in
  let reported := snd (reportOperatorLiteral source bl ol) in
  fst (reportOperatorLiteral source bl ol) = bl
  /\ NoDup (map operatorErrorIndex firsts)
  /\ (forall e, In e errs ->
                exists f, In f firsts /\ operatorErrorIndex f = operatorErrorIndex e)
  /\ codeNumbers reported = (if isTainted ol then [] else map operatorErrorCode firsts)
  /\ map (fun d => List.length (diagnostic.spansOf d)) reported
     = (if isTainted ol then []
        else map (fun err => List.length (errorsOfIndex operatorErrorIndex err errs)) firsts)
  /\ (Forall (fun e => wellFormed (operatorErrorInput e)) errs ->
      map diagnostic.spansOf reported
      = if isTainted ol then []
        else map (fun err => returnedSpans source tokenLines
                               (map operatorErrorInput
                                    (errorsOfIndex operatorErrorIndex err errs))) firsts).
Proof.
  intros errs firsts tokenLines reported.
  split; [unfold reportOperatorLiteral;
          destruct (isTainted ol || negb (hasErrors (value ol))); reflexivity|].
  split; [apply firstOfIndex_NoDup|].
  split; [intros e He; apply firstOfIndex_complete; [assumption|intros []]|].
  subst reported. unfold reportOperatorLiteral.
  destruct (isTainted ol); simpl; [repeat split; reflexivity|].
  destruct (hasErrors (value ol)) eqn:Hhas; simpl.
  - rewrite (@reportOperatorErrors_firstOfIndex _ _ _ _ 0%Z [])
      by (intros e; apply Z.testbit_0_l).
    split; [apply operator_codes|]. split; [apply operator_codes|].
    intros Hwf. apply operator_spans. assumption.
  - unfold hasErrors in Hhas. subst firsts errs.
    destruct (errors (value ol)); [repeat split; reflexivity|discriminate].
Qed.

End Literals.

Lemma reportNumberLiteral_one_diagnostic_per_alternative_witness :
  Forall (fun e => wellFormed (numberErrorInput e)) (errors (value numberTwoErrors))
  /\ codeNumbers (snd (reportNumberLiteral sourceNumber lineNumber numberTwoErrors))
     = [20%Z]
  /\ map diagnostic.spansOf
         (snd (reportNumberLiteral sourceNumber lineNumber numberTwoErrors))
     = [[diagnostic.mkTextSpan 3 1; diagnostic.mkTextSpan 3 1]].
Proof.
  assert (Hwf : Forall (fun e => wellFormed (numberErrorInput e))
                       (errors (value numberTwoErrors))).
  { repeat constructor; unfold wellFormed; simpl; lia. }
  split; [exact Hwf|].
  destruct (@reportNumberLiteral_one_diagnostic_per_alternative modelStrings sourceNumber
              lineNumber numberTwoErrors) as [_ [_ [_ [Hcodes [_ Hspans]]]]].
  split.
  - rewrite Hcodes. reflexivity.
  - rewrite (Hspans Hwf). vm_compute. reflexivity.
Defined.

Lemma reportOperatorLiteral_one_diagnostic_per_alternative_witness :
  Forall (fun e => wellFormed (operatorErrorInput e)) (errors (value operatorTwoErrors))
  /\ codeNumbers (snd (reportOperatorLiteral sourceOperator lineOperator operatorTwoErrors))
     = [31%Z]
  /\ map diagnostic.spansOf
         (snd (reportOperatorLiteral sourceOperator lineOperator operatorTwoErrors))
     = [[diagnostic.mkTextSpan 2 1; diagnostic.mkTextSpan 2 1]].
Proof.
  assert (Hwf : Forall (fun e => wellFormed (operatorErrorInput e))
                       (errors (value operatorTwoErrors))).
  { repeat constructor; unfold wellFormed; simpl; lia. }
  split; [exact Hwf|].
  destruct (@reportOperatorLiteral_one_diagnostic_per_alternative modelStrings
              sourceOperator lineOperator operatorTwoErrors)
    as [_ [_ [_ [Hcodes [_ Hspans]]]]].
  split.
  - rewrite Hcodes. reflexivity.
  - rewrite (Hspans Hwf). vm_compute. reflexivity.
Defined.

(** ** Collectors *)

Lemma insignificantsLoop_closed
  (body : nat -> Insignificant -> ViewMarkers -> ViewMarkers * Insignificant)
  (collected : Insignificant -> ViewMarkers) (marks : Insignificant -> bool)
  (tok : Element) :
  (forall idx t vm,
      body idx t vm
      = (vm ++ collected t,
         if marks t && negb (sameElement (InsignificantAt idx) tok)
         then taintInsignificant t else t)) ->
  forall ins idx vm,
    insignificantsLoop body idx ins vm
    = (vm ++ flat_map collected ins, taintOthers marks tok idx ins).
Proof.
  intros Hbody. induction ins as [|t ins IH]; intros idx vm; simpl.
  - rewrite app_nil_r. reflexivity.
  - rewrite Hbody, IH, app_assoc. reflexivity.
Qed.

Lemma collectUnexpectedCharacter_closed tokenLines tok idx t vm :
  collectUnexpectedCharacter tokenLines tok idx t vm
  = (vm ++ unexpectedMarkersOf tokenLines t,
     if unexpectedMarked tokenLines t && negb (sameElement (InsignificantAt idx) tok)
     then taintInsignificant t else t).
Proof.
  unfold unexpectedMarkersOf.
  destruct t; simpl; rewrite ?app_nil_r; try reflexivity.
  unfold withinLines.
  destruct ((vbegin tokenLines <=? vbegin (input t))%nat
            && (vend (input t) <=? vend tokenLines)%nat); simpl;
    rewrite ?app_nil_r; reflexivity.
Qed.

Lemma collectDecodeErrorMarker_closed tokenLines tok idx t vm :
  collectDecodeErrorMarker tokenLines tok idx t vm
  = (vm ++ decodeErrorMarkersOf tokenLines t,
     if decodeErrorMarked tokenLines t && negb (sameElement (InsignificantAt idx) tok)
     then taintInsignificant t else t).
Proof.
  unfold decodeErrorMarkersOf.
  destruct t; simpl; rewrite ?app_nil_r; try reflexivity;
    destruct (isTainted t); simpl; rewrite ?app_nil_r; try reflexivity;
    destruct (isPartOf (input t) tokenLines); simpl; rewrite ?app_nil_r; try reflexivity.
  destruct (forallb holdsDecodedErrorPosition (errors (value t))); simpl;
    rewrite ?app_nil_r; reflexivity.
Qed.

Lemma taintOthers_length marks tok ins : forall idx,
  List.length (taintOthers marks tok idx ins) = List.length ins.
Proof. induction ins as [|t ins IH]; intros idx; simpl; [|rewrite IH]; reflexivity. Qed.

Lemma taintOthers_nth_error marks tok ins : forall idx j t,
  nth_error ins j = Some t ->
  nth_error (taintOthers marks tok idx ins) j
  = Some (if marks t && negb (sameElement (InsignificantAt (idx + j)) tok)
          then taintInsignificant t else t).
Proof.
  induction ins as [|t0 ins IH]; intros idx [|j] t Ht; simpl in *; try discriminate.
  - inversion Ht; subst. rewrite Nat.add_0_r. reflexivity.
  - rewrite (IH (S idx) j t Ht). rewrite Nat.add_succ_r. reflexivity.
Qed.

Lemma decodeErrorMarkersOf_unmarked tokenLines t :
  decodeErrorMarked tokenLines t = false -> decodeErrorMarkersOf tokenLines t = [].
Proof. unfold decodeErrorMarkersOf. intros ->. reflexivity. Qed.

Lemma decodeErrorMarked_taint tokenLines t :
  decodeErrorMarked tokenLines (taintInsignificant t) = false.
Proof. destruct t; reflexivity. Qed.

(** A second pass over the collected line finds the markers of the
    element at [tok] only. *)
Lemma second_pass_markers tokenLines tok ins : forall idx,
  flat_map (decodeErrorMarkersOf tokenLines)
           (taintOthers (decodeErrorMarked tokenLines) tok idx ins)
  = match tok with
    | InsignificantAt i =>
        match (if (idx <=? i)%nat then nth_error ins (i - idx) else None) with
        | Some t => decodeErrorMarkersOf tokenLines t
        | None => []
        end
    | TokenAt _ => []
    end.
Proof.
  induction ins as [|t ins IH]; intros idx.
  - simpl. destruct tok as [k|i]; [reflexivity|].
    destruct (idx <=? i)%nat; [destruct (i - idx)|]; reflexivity.
  - cbn [taintOthers flat_map]. rewrite IH.
    assert (Hnone : decodeErrorMarkersOf tokenLines
                      (if decodeErrorMarked tokenLines t
                       then taintInsignificant t else t) = []).
    { destruct (decodeErrorMarked tokenLines t) eqn:Hm.
      - apply decodeErrorMarkersOf_unmarked, decodeErrorMarked_taint.
      - apply decodeErrorMarkersOf_unmarked; assumption. }
    destruct tok as [k|i]; cbn [sameElement negb].
    + rewrite andb_true_r, Hnone. reflexivity.
    + destruct (Nat.eqb_spec idx i) as [->|Hne]; cbn [negb].
      * rewrite andb_false_r, Nat.leb_refl, Nat.sub_diag.
        destruct (Nat.leb_spec (S i) i); [lia|]. cbn [nth_error]. apply app_nil_r.
      * rewrite andb_true_r, Hnone. cbn [app].
        destruct (Nat.leb_spec (S idx) i), (Nat.leb_spec idx i); try lia; [|reflexivity].
        replace (i - idx) with (S (i - S idx)) by lia. reflexivity.
Qed.

Lemma collectDecodeErrorMarkers_closed viewMarkers bl tokenLines tok :
  collectDecodeErrorMarkers viewMarkers bl tokenLines tok
  = (viewMarkers ++ flat_map (decodeErrorMarkersOf tokenLines) (insignificants bl),
     mkBlockLine (tokens bl)
       (taintOthers (decodeErrorMarked tokenLines) tok 0 (insignificants bl))).
Proof.
  unfold collectDecodeErrorMarkers.
  rewrite (insignificantsLoop_closed (collectDecodeErrorMarker tokenLines tok)
             (decodeErrorMarkersOf tokenLines) (decodeErrorMarked tokenLines) tok
             (collectDecodeErrorMarker_closed tokenLines tok)).
  reflexivity.
Qed.

(** X18.  [collectDecodeErrorMarkers] keeps the markers it is given and
    appends, in the order of the insignificants, the decode error
    positions of every carrier within the lines whose flag is not set,
    whatever element it collects for; it leaves the tokens alone and sets
    the flag of every such carrier but the one it collects for.  A second
    collection over the line it leaves finds the markers of that one
    element only, and none when it collected for a token. *)
Theorem collectDecodeErrorMarkers_collects
  (viewMarkers : ViewMarkers) (bl : BlockLine) (tokenLines : View) (tok : Element) :
  let collected := collectDecodeErrorMarkers viewMarkers bl tokenLines tok in
  fst collected
  = viewMarkers ++ flat_map (decodeErrorMarkersOf tokenLines) (insignificants bl)
  /\ snd collected
     = mkBlockLine (tokens bl)
         (taintOthers (decodeErrorMarked tokenLines) tok 0 (insignificants bl))
  /\ fst (collectDecodeErrorMarkers [] (snd collected) tokenLines tok)
     = match insignificantAt bl tok with
       | Some t => decodeErrorMarkersOf tokenLines t
       | None => []
       end.
Proof.
  intros collected. subst collected.
  rewrite !collectDecodeErrorMarkers_closed. simpl.
  split; [reflexivity|]. split; [reflexivity|].
  rewrite second_pass_markers.
  destruct tok as [k|i]; simpl; [reflexivity|]. rewrite Nat.sub_0_r. reflexivity.
Qed.

Section UnexpectedCharacters.

Context `{StringsLayer}.
Variable source : String.

(** X17.  For an unexpected character whose flag is not set,
    [reportUnexpectedCharacter] emits one diagnostic with code 2 for the
    line of the character; it leaves the tokens alone and sets the flag
    of every unexpected character of the line that lies within the
    physical lines of the reported one, but not that of the reported one.
    The highlights are the spans of these characters, in order and
    whether their flag was set or not: with escapes in the lines every
    character has its span in the rendered text; without escapes the
    first highlight is the raw span of the last character, so that of
    two characters the first has no highlight, and every other character
    keeps its span in the rendered text. *)
Theorem reportUnexpectedCharacter_collects
  (bl : BlockLine) (tok : Element) (uc : TagToken) (Hfresh : isTainted uc = false) :
  let tokenLines := extractViewLines source bl (input uc) in
  let collected := flat_map (unexpectedMarkersOf tokenLines) (insignificants bl) in
  let result := reportUnexpectedCharacter source bl tok uc in
  (exists d, snd result = [d]
             /\ diagnostic.number (diagnostic.code d) = 2%Z
             /\ originLines d = [line (position uc)]
             /\ List.length (diagnostic.spansOf d) = List.length collected
             /\ (Forall wellFormed collected ->
                 diagnostic.spansOf d = returnedSpans source tokenLines collected))
  /\ fst result
     = mkBlockLine (tokens bl)
         (taintOthers (unexpectedMarked tokenLines) tok 0 (insignificants bl)).
Proof.
  intros tokenLines collected result. subst result. unfold reportUnexpectedCharacter.
  rewrite Hfresh. fold tokenLines.
  rewrite (insignificantsLoop_closed (collectUnexpectedCharacter tokenLines tok)
             (unexpectedMarkersOf tokenLines) (unexpectedMarked tokenLines) tok
             (collectUnexpectedCharacter_closed tokenLines tok)).
  simpl. fold collected. split; [|reflexivity].
  eexists. split; [reflexivity|]. split; [reflexivity|]. split; [reflexivity|].
  rewrite spansOf_lexerDiagnostic. split.
  - apply escapeSourceLine_markers_length.
  - intros Hwf. apply escapeSourceLine_spans. assumption.
Qed.

End UnexpectedCharacters.

Lemma reportUnexpectedCharacter_collects_witness :
  isTainted (plain 0 1 1) = false
  /\ codeNumbers (snd (reportUnexpectedCharacter sourceTwoUnexpected lineTwoUnexpected
                         (InsignificantAt 0) (plain 0 1 1))) = [2%Z]
  /\ map diagnostic.spansOf
         (snd (reportUnexpectedCharacter sourceTwoUnexpected lineTwoUnexpected
                 (InsignificantAt 0) (plain 0 1 1)))
     = [[diagnostic.mkTextSpan 2 1; diagnostic.mkTextSpan 2 1]]
  /\ fst (reportUnexpectedCharacter sourceTwoUnexpected lineTwoUnexpected
            (InsignificantAt 0) (plain 0 1 1))
     = mkBlockLine (tokens lineTwoUnexpected)
         [UnexpectedCharacter (plain 0 1 1);
          UnexpectedCharacter (taint (plain 2 3 1))].
Proof.
  split; [reflexivity|].
  destruct (@reportUnexpectedCharacter_collects modelStrings sourceTwoUnexpected
              lineTwoUnexpected (InsignificantAt 0) (plain 0 1 1) eq_refl)
    as [[d [Hd [Hcode [_ [_ Hspans]]]]] Hline].
  split; [|split].
  - rewrite Hd. unfold codeNumbers. simpl. rewrite Hcode. reflexivity.
  - rewrite Hd. simpl. rewrite Hspans.
    + vm_compute. reflexivity.
    + repeat constructor; unfold wellFormed; simpl; lia.
  - rewrite Hline. reflexivity.
Defined.

(** ** Elements that are reported together *)

(** A relation between two insignificants of a line such that reporting
    one of them emits at most one diagnostic and sets the flag of the
    other makes [reportLineErrors] emit at most one diagnostic for the
    two. *)
Section ReportedTogether.

Context `{StringsLayer}.
Variable source : String.
Variable related : BlockLine -> nat -> nat -> Prop.

Hypothesis related_sym : forall bl i j, related bl i j -> related bl j i.
Hypothesis related_later : forall bl bl' i j,
  laterLine bl bl' -> related bl i j -> related bl' i j.
Hypothesis related_once : forall bl i j a,
  related bl i j -> nth_error (insignificants bl) i = Some a ->
  List.length (snd (reportInsignificant source bl i a)) <= 1.
Hypothesis related_taints : forall bl i j a,
  i <> j -> related bl i j -> nth_error (insignificants bl) i = Some a ->
  snd (reportInsignificant source bl i a) <> [] ->
  taintedAt (fst (reportInsignificant source bl i a)) j.

Lemma related_visit_once bl i j x :
  related bl i j -> visitElement x = InsignificantAt i ->
  List.length (snd (reportVisit source bl x)) <= 1.
Proof.
  intros Hrel Hx. destruct x as [ti t|ii i0]; simpl in *; [discriminate|].
  inversion Hx; subst.
  destruct (nth_error (insignificants bl) i) as [a|] eqn:Ha; [|simpl; lia].
  apply (related_once Hrel Ha).
Qed.

Lemma related_visit_taints bl i j x :
  i <> j -> related bl i j -> visitElement x = InsignificantAt i ->
  snd (reportVisit source bl x) <> [] ->
  taintedAt (fst (reportVisit source bl x)) j.
Proof.
  intros Hij Hrel Hx. destruct x as [ti t|ii i0]; simpl in *; [discriminate|].
  inversion Hx; subst.
  destruct (nth_error (insignificants bl) i) as [a|] eqn:Ha; [|simpl; congruence].
  apply (related_taints Hij Hrel Ha).
Qed.

Lemma related_member_once i j visits : forall bl,
  related bl i j -> NoDup (map visitElement visits) ->
  List.length (reportedFor source (InsignificantAt i) bl visits) <= 1.
Proof.
  induction visits as [|x visits IH]; intros bl Hrel Hnodup; simpl.
  - lia.
  - inversion Hnodup as [|e es Hnotin Hnodup']; subst.
    pose proof (reportVisit_later source bl x) as Hlater.
    destruct (sameElement (visitElement x) (InsignificantAt i)) eqn:Hsame.
    + apply sameElement_eq in Hsame.
      pose proof (related_visit_once x Hrel Hsame) as Hone.
      destruct (reportVisit source bl x) as [bl1 r1]. simpl in *.
      rewrite reportedFor_not_visited by (rewrite <- Hsame; assumption).
      rewrite app_nil_r. exact Hone.
    + destruct (reportVisit source bl x) as [bl1 r1]. simpl in *.
      apply (IH bl1); [|assumption]. eapply related_later; eassumption.
Qed.

Lemma related_pair_once i j visits : forall bl,
  i <> j -> related bl i j -> NoDup (map visitElement visits) ->
  List.length (reportedFor source (InsignificantAt i) bl visits)
  + List.length (reportedFor source (InsignificantAt j) bl visits) <= 1.
Proof.
  induction visits as [|x visits IH]; intros bl Hij Hrel Hnodup; simpl.
  - lia.
  - inversion Hnodup as [|e es Hnotin Hnodup']; subst.
    pose proof (reportVisit_later source bl x) as Hlater.
    pose proof (related_later Hlater Hrel) as Hrel1.
    destruct (sameElement (visitElement x) (InsignificantAt i)) eqn:Hsi;
      destruct (sameElement (visitElement x) (InsignificantAt j)) eqn:Hsj.
    + apply sameElement_eq in Hsi, Hsj. congruence.
    + apply sameElement_eq in Hsi.
      pose proof (related_visit_once x Hrel Hsi) as Hone.
      pose proof (related_visit_taints x Hij Hrel Hsi) as Htaints.
      destruct (reportVisit source bl x) as [bl1 r1]. simpl in *.
      rewrite (@reportedFor_not_visited _ source (InsignificantAt i) visits bl1)
        by (rewrite <- Hsi; assumption).
      rewrite app_nil_r. destruct r1 as [|d r1].
      * simpl. apply (@related_member_once j i visits bl1);
          [apply related_sym|]; assumption.
      * rewrite reportedFor_tainted by (apply Htaints; discriminate). simpl in *. lia.
    + apply sameElement_eq in Hsj.
      pose proof (related_visit_once x (related_sym Hrel) Hsj) as Hone.
      pose proof (related_visit_taints x (not_eq_sym Hij) (related_sym Hrel) Hsj)
        as Htaints.
      destruct (reportVisit source bl x) as [bl1 r1]. simpl in *.
      rewrite (@reportedFor_not_visited _ source (InsignificantAt j) visits bl1)
        by (rewrite <- Hsj; assumption).
      rewrite app_nil_r. destruct r1 as [|d r1].
      * simpl. pose proof (@related_member_once i j visits bl1 Hrel1 Hnodup'). lia.
      * rewrite reportedFor_tainted by (apply Htaints; discriminate). simpl in *. lia.
    + destruct (reportVisit source bl x) as [bl1 r1]. simpl in *.
      apply IH; assumption.
Qed.

Lemma related_taints_other i j visits : forall bl,
  i <> j -> related bl i j ->
  reportedFor source (InsignificantAt i) bl visits <> [] ->
  taintedAt (fst (reportVisits source bl visits)) j.
Proof.
  induction visits as [|x visits IH]; intros bl Hij Hrel; simpl.
  - congruence.
  - pose proof (reportVisit_later source bl x) as Hlater.
    pose proof (related_later Hlater Hrel) as Hrel1.
    pose proof (related_visit_taints x Hij Hrel) as Hstep.
    destruct (reportVisit source bl x) as [bl1 r1]. simpl in *.
    pose proof (IH bl1 Hij Hrel1) as IH1.
    pose proof (reportVisits_later source visits bl1) as Hrest.
    destruct (reportVisits source bl1 visits) as [bl2 r2]. simpl in *.
    intros Hemit.
    destruct (reportedFor source (InsignificantAt i) bl1 visits) as [|d ds] eqn:Hreports.
    + rewrite app_nil_r in Hemit.
      destruct (sameElement (visitElement x) (InsignificantAt i)) eqn:Hsame;
        [|congruence].
      apply sameElement_eq in Hsame.
      eapply taintedAt_later; [exact Hrest|]. apply Hstep; assumption.
    + apply IH1. discriminate.
Qed.

End ReportedTogether.

Lemma taintedSince_unexpectedMarked tokenLines x y :
  taintedSince x y -> unexpectedMarked tokenLines y = unexpectedMarked tokenLines x.
Proof. intros [->| ->]; [reflexivity|destruct x; reflexivity]. Qed.

Lemma unexpectedOnOneLine_sym source bl i j :
  unexpectedOnOneLine source bl i j -> unexpectedOnOneLine source bl j i.
Proof.
  intros [a [b [Ha [Hb [Hab Hba]]]]]. exists b, a. repeat split; assumption.
Qed.

Lemma unexpectedOnOneLine_later source bl bl' i j :
  laterLine bl bl' -> unexpectedOnOneLine source bl i j ->
  unexpectedOnOneLine source bl' i j.
Proof.
  intros Hlater [a [b [Ha [Hb [Hab Hba]]]]].
  destruct (Forall2_taintedSince_nth_error (proj2 Hlater) _ Ha) as [a' [Ha' Haa']].
  destruct (Forall2_taintedSince_nth_error (proj2 Hlater) _ Hb) as [b' [Hb' Hbb']].
  exists a', b'.
  rewrite !(extractViewLines_later source _ Hlater).
  rewrite (taintedSince_input Haa'), (taintedSince_input Hbb').
  rewrite (taintedSince_unexpectedMarked _ Haa'), (taintedSince_unexpectedMarked _ Hbb').
  repeat split; assumption.
Qed.

Section UnexpectedOnOneLine.

Context `{StringsLayer}.
Variable source : String.

Lemma unexpected_reported bl i uc :
  reportInsignificant source bl i (UnexpectedCharacter uc) = (bl, [])
  \/ exists d,
      reportInsignificant source bl i (UnexpectedCharacter uc)
      = (mkBlockLine (tokens bl)
           (taintOthers (unexpectedMarked (extractViewLines source bl (input uc)))
                        (InsignificantAt i) 0 (insignificants bl)),
         [d]).
Proof.
  simpl. destruct (isTainted uc) eqn:Ht.
  - left. unfold reportUnexpectedCharacter. rewrite Ht. reflexivity.
  - right. unfold reportUnexpectedCharacter. rewrite Ht.
    rewrite (insignificantsLoop_closed
               (collectUnexpectedCharacter (extractViewLines source bl (input uc))
                                           (InsignificantAt i))
               (unexpectedMarkersOf (extractViewLines source bl (input uc)))
               (unexpectedMarked (extractViewLines source bl (input uc)))
               (InsignificantAt i)
               (collectUnexpectedCharacter_closed (extractViewLines source bl (input uc))
                                                  (InsignificantAt i))).
    eexists. reflexivity.
Qed.

Lemma unexpected_reported_once bl i j a :
  unexpectedOnOneLine source bl i j -> nth_error (insignificants bl) i = Some a ->
  List.length (snd (reportInsignificant source bl i a)) <= 1.
Proof.
  intros [a' [b [Ha' [_ [_ Hba]]]]] Ha.
  assert (a' = a) by congruence. subst a'.
  destruct a; simpl in Hba; try discriminate.
  destruct (unexpected_reported bl i t) as [->|[d ->]]; simpl; lia.
Qed.

Lemma unexpected_reported_taints bl i j a :
  i <> j -> unexpectedOnOneLine source bl i j ->
  nth_error (insignificants bl) i = Some a ->
  snd (reportInsignificant source bl i a) <> [] ->
  taintedAt (fst (reportInsignificant source bl i a)) j.
Proof.
  intros Hij [a' [b [Ha' [Hb [Hab Hba]]]]] Ha.
  assert (a' = a) by congruence. subst a'.
  destruct a; simpl in Hba; try discriminate.
  destruct (unexpected_reported bl i t) as [->|[d ->]]; simpl; [congruence|].
  intros _. eexists. split.
  - apply taintOthers_nth_error. exact Hb.
  - simpl in Hab. rewrite Hab. simpl.
    destruct (Nat.eqb_spec j i); [lia|]. simpl. apply taintInsignificant_tainted.
Qed.

(** X19.  For two distinct unexpected characters of a line that lie on
    one physical line, one call of [reportLineErrors] emits at most one
    diagnostic on behalf of the two, and once it has emitted on behalf of
    one of them the flag of the other is set on the line the call
    leaves. *)
Theorem unexpected_characters_on_one_line_reported_once (bl : BlockLine) (i j : nat)
  (Hdistinct : i <> j) (Hline : unexpectedOnOneLine source bl i j) :
  List.length (reportedOnBehalf source bl (InsignificantAt i)
               ++ reportedOnBehalf source bl (InsignificantAt j)) <= 1
  /\ (reportedOnBehalf source bl (InsignificantAt i) <> [] ->
      taintedAt (fst (reportLineErrors source bl)) j)
  /\ (reportedOnBehalf source bl (InsignificantAt j) <> [] ->
      taintedAt (fst (reportLineErrors source bl)) i).
Proof.
  unfold reportedOnBehalf, reportLineErrors. split; [|split].
  - rewrite length_app.
    apply (@related_pair_once _ source (unexpectedOnOneLine source)
             (@unexpectedOnOneLine_sym source) (@unexpectedOnOneLine_later source)
             unexpected_reported_once unexpected_reported_taints);
      try assumption.
    apply forEach_NoDup.
  - apply (@related_taints_other _ source (unexpectedOnOneLine source)
             (@unexpectedOnOneLine_later source) unexpected_reported_taints);
      assumption.
  - apply (@related_taints_other _ source (unexpectedOnOneLine source)
             (@unexpectedOnOneLine_later source) unexpected_reported_taints).
    + apply not_eq_sym; assumption.
    + apply unexpectedOnOneLine_sym; assumption.
Qed.

End UnexpectedOnOneLine.

Lemma unexpected_characters_on_one_line_reported_once_witness :
  List.length (reportedOnBehalf sourceTwoUnexpected lineTwoUnexpected (InsignificantAt 0)
               ++ reportedOnBehalf sourceTwoUnexpected lineTwoUnexpected
                    (InsignificantAt 1)) <= 1
  /\ (reportedOnBehalf sourceTwoUnexpected lineTwoUnexpected (InsignificantAt 0) <> [] ->
      taintedAt (fst (reportLineErrors sourceTwoUnexpected lineTwoUnexpected)) 1)
  /\ (reportedOnBehalf sourceTwoUnexpected lineTwoUnexpected (InsignificantAt 1) <> [] ->
      taintedAt (fst (reportLineErrors sourceTwoUnexpected lineTwoUnexpected)) 0).
Proof.
  apply (@unexpected_characters_on_one_line_reported_once modelStrings
           sourceTwoUnexpected lineTwoUnexpected 0 1).
  - discriminate.
  - exists (UnexpectedCharacter (plain 0 1 1)), (UnexpectedCharacter (plain 2 3 1)).
    repeat split; reflexivity.
Defined.

(** ** Ropes *)

Lemma rope_add_filter r e :
  rope_add r e = r ++ filter (fun p => negb (emptyPiece p)) [e].
Proof.
  destruct e as [c|s|v]; simpl.
  - reflexivity.
  - destruct s; simpl; [rewrite app_nil_r|]; reflexivity.
  - unfold rope_add_view. destruct (vbegin v =? vend v)%nat; simpl;
      [rewrite app_nil_r|]; reflexivity.
Qed.

Lemma rope_build_from pieces : forall r,
  fold_left rope_add pieces r = r ++ filter (fun p => negb (emptyPiece p)) pieces.
Proof.
  induction pieces as [|e pieces IH]; intros r; simpl.
  - rewrite app_nil_r. reflexivity.
  - rewrite IH, rope_add_filter, <- app_assoc. simpl.
    destruct (negb (emptyPiece e)); reflexivity.
Qed.

Lemma emptyPiece_text `{StringsLayer} (source : String) (e : RopeElement) :
  emptyPiece e = true -> rope_to_string source [e] = [].
Proof.
  destruct e as [c|s|v]; simpl; try discriminate.
  - destruct s; [reflexivity|discriminate].
  - intros Hempty. apply Nat.eqb_eq in Hempty. rewrite app_nil_r.
    destruct v as [b e]. simpl in Hempty. subst. apply viewToString_empty.
Qed.

(** X20.  A rope built from the default rope by [+=] holds the pieces
    appended in order without the empty strings and the empty views; its
    text is nevertheless the concatenation of all the pieces, and it is
    empty exactly when every piece was an empty string or an empty
    view. *)
Theorem rope_build_text `{StringsLayer} (source : String) (pieces : list RopeElement) :
  rope_build pieces = filter (fun p => negb (emptyPiece p)) pieces
  /\ rope_to_string source (rope_build pieces) = rope_to_string source pieces
  /\ rope_is_empty (rope_build pieces) = forallb emptyPiece pieces.
Proof.
  unfold rope_build. rewrite rope_build_from. simpl. split; [reflexivity|]. split.
  - induction pieces as [|e pieces IH]; [reflexivity|]. simpl filter.
    change (e :: pieces) with ([e] ++ pieces).
    rewrite (@rope_to_string_app _ source [e] pieces).
    destruct (emptyPiece e) eqn:Hempty; simpl negb; cbv iota.
    + rewrite (emptyPiece_text source e Hempty). exact IH.
    + change (e :: filter (fun p => negb (emptyPiece p)) pieces)
        with ([e] ++ filter (fun p => negb (emptyPiece p)) pieces).
      rewrite (@rope_to_string_app _ source [e]), IH. reflexivity.
  - induction pieces as [|e pieces IH]; [reflexivity|]. simpl.
    destruct (emptyPiece e); simpl; [exact IH|reflexivity].
Qed.

(** ** Decode errors of a token *)

Section DecodeErrors.

Context `{StringsLayer}.
Variable source : String.

(** X21.  [reportDecodeErrors] emits one diagnostic with code 1 for the
    line of the element it reports on; it leaves the tokens alone and
    sets the flag of every insignificant the collector gathers within the
    physical lines of the element, but not that of the reported one.  The
    highlights are the spans of the decode error positions gathered from
    these insignificants, in order; the decode errors of a token of the
    line add none.  With escapes in the lines every position has its span
    in the rendered text; without escapes the first highlight is the raw
    span of the last position and every other position keeps its span in
    the rendered text. *)
Theorem reportDecodeErrors_highlights {V : Type}
  (bl : BlockLine) (tok : Element) (t : TokenOf V) :
  let tokenLines := extractViewLines source bl (input t) in
  let collected := flat_map (decodeErrorMarkersOf tokenLines) (insignificants bl) in
  let result := reportDecodeErrors source bl tok t in
  (exists d, snd result = [d]
             /\ diagnostic.number (diagnostic.code d) = 1%Z
             /\ originLines d = [line (position t)]
             /\ List.length (diagnostic.spansOf d) = List.length collected
             /\ (Forall wellFormed collected ->
                 diagnostic.spansOf d = returnedSpans source tokenLines collected))
  /\ fst result
     = mkBlockLine (tokens bl)
         (taintOthers (decodeErrorMarked tokenLines) tok 0 (insignificants bl)).
Proof.
  intros tokenLines collected result. subst result. unfold reportDecodeErrors.
  fold tokenLines.
  rewrite collectDecodeErrorMarkers_closed. simpl. fold collected. split; [|reflexivity].
  eexists. split; [reflexivity|]. split; [reflexivity|]. split; [reflexivity|].
  unfold reportDecodeErrorMarkers.
  rewrite spansOf_lexerDiagnostic. split.
  - apply escapeSourceLine_markers_length.
  - intros Hwf. apply escapeSourceLine_spans. assumption.
Qed.

End DecodeErrors.

Lemma reportDecodeErrors_highlights_witness :
  codeNumbers (snd (reportDecodeErrors sourceTwoStray lineTwoStray (InsignificantAt 0)
                      (plain 0 1 1))) = [1%Z]
  /\ map diagnostic.spansOf
         (snd (reportDecodeErrors sourceTwoStray lineTwoStray (InsignificantAt 0)
                 (plain 0 1 1)))
     = [[diagnostic.mkTextSpan 0 5; diagnostic.mkTextSpan 6 5]]
  /\ fst (reportDecodeErrors sourceTwoStray lineTwoStray (InsignificantAt 0) (plain 0 1 1))
     = mkBlockLine (tokens lineTwoStray)
         [InvalidEncoding (plain 0 1 1); InvalidEncoding (taint (plain 2 3 1))].
Proof.
  destruct (@reportDecodeErrors_highlights modelStrings sourceTwoStray unit lineTwoStray
              (InsignificantAt 0) (plain 0 1 1))
    as [[d [Hd [Hcode [_ [_ Hspans]]]]] Hline].
  split; [|split].
  - rewrite Hd. unfold codeNumbers. simpl. rewrite Hcode. reflexivity.
  - rewrite Hd. simpl. rewrite Hspans.
    + vm_compute. reflexivity.
    + repeat constructor; unfold wellFormed; simpl; lia.
  - rewrite Hline. reflexivity.
Defined.

(** ** Visits *)

Lemma forEachTokens_length ts : forall ti,
  List.length (forEachTokens ti ts) = List.length ts.
Proof. induction ts as [|t ts IH]; intros ti; simpl; [|rewrite IH]; reflexivity. Qed.

Lemma forEachInsignificants_length ins : forall ii,
  List.length (forEachInsignificants ii ins) = List.length ins.
Proof. induction ins as [|i ins IH]; intros ii; simpl; [|rewrite IH]; reflexivity. Qed.

(** X22.  [forEach] calls the callback once for every token and once for
    every insignificant of the line and for nothing else, also on a line
    whose vectors are not sorted: no element is visited twice, the number
    of calls is the number of elements, and every call is for a token or
    an insignificant of the line at its index. *)
Theorem forEach_visits_each_element_once (bl : BlockLine) :
  NoDup (map visitElement (forEach bl))
  /\ List.length (forEach bl)
     = List.length (tokens bl) + List.length (insignificants bl)
  /\ forall x,
       In x (forEach bl)
       <-> (exists k t, x = VisitToken k t /\ nth_error (tokens bl) k = Some t)
           \/ (exists k i, x = VisitInsignificant k i
                           /\ nth_error (insignificants bl) k = Some i).
Proof.
  split; [apply forEach_NoDup|]. split; [|apply forEach_In].
  unfold forEach.
  rewrite (Permutation_length (forEachFrom_permutation (tokens bl) 0 0 (insignificants bl))).
  rewrite length_app, forEachTokens_length, forEachInsignificants_length. reflexivity.
Qed.
